(** * progsnap: reading progsnap datasets and replaying edits

    A shallow embedding of [progsnap.py]: the tagged-record scanner, the
    tag handler table, the storage back ends' directory listing, the work
    history (ordering and snapshot lookups) and the text document that
    logged edits are replayed on.

    Python strings are lists of characters, Python integers are [Z]
    (unbounded), a raised [ProgsnapError] is a value of the type
    [ProgsnapError] carried by [Raise]. *)

From Stdlib Require Import ZArith Ascii String Sorted.
From stdpp Require Import gmap strings list fin_maps sorting.

Open Scope Z_scope.

(** ** Python strings *)

Abbreviation str := (list ascii).

(** A string literal of the source. *)
Definition lit (s : string) : str := list_ascii_of_string s.

(** The one-character strings the source searches for. *)
Definition NL : ascii := "010"%char.
Definition SLASH : ascii := "/"%char.

Module Py.

(** [len(s)] *)
Definition len (s : str) : Z := Z.of_nat (length s).

(** How a slice bound [i] is brought into [0 .. len]: a negative bound
    counts from the end, and both ends are clamped. *)
Definition clamp (n i : Z) : Z :=
  if i <? 0 then Z.max (i + n) 0 else Z.min i n.

(** [s[lo:hi]] *)
Definition slice (s : str) (lo hi : Z) : str :=
  let lo' := clamp (len s) lo in
  let hi' := clamp (len s) hi in
  take (Z.to_nat (hi' - lo')) (drop (Z.to_nat lo') s).

(** [s[lo:]] *)
Definition slice_from (s : str) (lo : Z) : str :=
  drop (Z.to_nat (clamp (len s) lo)) s.

(** [s[:hi]] *)
Definition slice_to (s : str) (hi : Z) : str :=
  take (Z.to_nat (clamp (len s) hi)) s.

(** Index of the first [c] in [s], counted from [i]; [-1] when there is
    none. *)
Fixpoint find_from (c : ascii) (s : str) (i : Z) : Z :=
  match s with
  | [] => -1
  | x :: s' => if decide (x = c) then i else find_from c s' (i + 1)
  end.

(** [s.find(c, start)] for a one-character [c]. *)
Definition find (c : ascii) (s : str) (start : Z) : Z :=
  let st := clamp (len s) start in
  find_from c (drop (Z.to_nat st) s) st.

(** [s.count(c)] for a one-character [c]. *)
Fixpoint count (c : ascii) (s : str) : Z :=
  match s with
  | [] => 0
  | x :: s' => (if decide (x = c) then 1 else 0) + count c s'
  end.

(** [s.endswith(c)] for a one-character [c]. *)
Definition endswith (s : str) (c : ascii) : bool :=
  match last s with
  | Some x => bool_decide (x = c)
  | None => false
  end.

(** [s.startswith(p)] *)
Fixpoint startswith (s p : str) : bool :=
  match p, s with
  | [], _ => true
  | _ :: _, [] => false
  | y :: p', x :: s' => bool_decide (x = y) && startswith s' p'
  end.

End Py.

(** ** JSON values *)

(** What [json.loads] returns: [None], a [bool], an [int], a [str], a
    [list] or a [dict] with string keys. Numbers are the integers. *)
#[local] Unset Elimination Schemes.
Inductive JValue : Type :=
  | JNull
  | JBool (b : bool)
  | JNum (n : Z)
  | JStr (s : str)
  | JArr (items : list JValue)
  | JObj (fields : gmap str JValue).
#[local] Set Elimination Schemes.

(** A snapshot identifier, as it stands in the [snapids] list of an edit:
    a number or a string. *)
Inductive SnapId : Type :=
  | SnapInt (n : Z)
  | SnapStr (s : str).

#[global] Instance SnapId_eq_dec : EqDecision SnapId.
Proof. solve_decision. Defined.

(** ** Errors *)

(** The [ProgsnapError]s of the source, one constructor per message, with
    the values the message is formatted from. *)
Inductive ProgsnapError : Type :=
  | InvalidData (line_no : Z)
  | NoSuchLine (row : Z)
  | PositionOutOfBounds (row col pos len : Z)
  | DeletionBeyondEnd (pos len : Z)
  | DeleteMismatch (expected saw : str)
  | MultipleEditEvents (snapid : SnapId).

(** The exceptions a call can end with: a [ProgsnapError], or one of
    Python's own. *)
Inductive exn : Type :=
  | Progsnap (e : ProgsnapError)
  | TypeError
  | KeyError (key : str).
Coercion Progsnap : ProgsnapError >-> exn.

Inductive result (A : Type) : Type :=
  | Ok (a : A)
  | Raise (e : exn).
Arguments Ok {A} a.
Arguments Raise {A} e.

#[global] Instance result_ret : MRet result := fun _ a => Ok a.
#[global] Instance result_bind : MBind result := fun _ _ k r =>
  match r with
  | Ok a => k a
  | Raise e => Raise e
  end.

(** ** Lines of a text *)

(** The loop of the generator [_line_chunks]: the chunks yielded from
    [pos] on. Each turn moves [pos] forward by one character at least, so
    [fuel] turns are enough when [fuel] is the length of the text. *)
Fixpoint line_chunks_from (fuel : nat) (text : str) (pos : Z) : list str :=
  match fuel with
  | O => []
  | S fuel' =>
      if pos <? Py.len text then
        let nextnl := Py.find NL text pos in
        if nextnl <? 0 then [Py.slice_from text pos]
        else Py.slice text pos (nextnl + 1)
             :: line_chunks_from fuel' text (nextnl + 1)
      else []
  end.

(** [_line_chunks], as the list of the chunks it yields. *)
Definition _line_chunks (text : str) : list str :=
  line_chunks_from (length text) text 0.

(** ** TextDocument *)

Module TextDocument.

Record t : Type := Doc { _text : str }.

Definition VERIFY_DELETES : bool := true.

(** [__init__] *)
Definition init : t := Doc [].

Definition get_text (d : t) : str := _text d.
Definition set_text (d : t) (text : str) : t := Doc text.

(** [get_num_lines] *)
Definition get_num_lines (d : t) : Z :=
  let num_nl := Py.count NL (_text d) in
  if negb (Py.endswith (_text d) NL) then num_nl + 1 else num_nl.

(** The loop of [get_line] over the chunks, [count] of them passed. *)
Fixpoint get_line_from (lines : list str) (count index : Z) : result str :=
  match lines with
  | [] => Raise (NoSuchLine index)
  | line :: lines' =>
      if count =? index then Ok line
      else get_line_from lines' (count + 1) index
  end.

(** [get_line] *)
Definition get_line (d : t) (index : Z) : result str :=
  get_line_from (_line_chunks (_text d)) 0 index.

(** The loop of [_get_pos] that skips to the beginning of the desired
    row: [n] rows are still to be skipped and [pos] is where the current
    one starts. *)
Fixpoint skip_rows (text : str) (row : Z) (n : nat) (pos : Z) : result Z :=
  match n with
  | O => Ok pos
  | S n' =>
      let nextpos := Py.find NL text pos in
      if nextpos <? 0 then Raise (NoSuchLine row)
      else skip_rows text row n' (nextpos + 1)
  end.

(** [_get_pos] *)
Definition _get_pos (d : t) (row col : Z) : result Z :=
  pos ← skip_rows (_text d) row (Z.to_nat row) 0;
  let pos := pos + col in
  if pos >? Py.len (_text d)
  then Raise (PositionOutOfBounds row col pos (Py.len (_text d)))
  else Ok pos.

(** [insert_at] *)
Definition insert_at (d : t) (row col : Z) (text : str) : result t :=
  pos ← _get_pos d row col;
  Ok (Doc (Py.slice_to (_text d) pos ++ text ++ Py.slice_from (_text d) pos)).

(** [delete_at], with the class attribute [VERIFY_DELETES] as [verify]. *)
Definition delete_at_with (verify : bool) (d : t) (row col : Z) (text : str)
  : result t :=
  pos ← _get_pos d row col;
  let endpos := pos + Py.len text in
  '(endpos, text) ←
    (if endpos >? Py.len (_text d) then
       if (endpos =? Py.len (_text d) + 1) && Py.endswith text NL
       then Ok (endpos - 1, Py.slice_to text (Py.len text - 1))
       else Raise (DeletionBeyondEnd endpos (Py.len (_text d)))
     else Ok (endpos, text));
  _ ← (if verify then
          let to_remove := Py.slice (_text d) pos endpos in
          if bool_decide (to_remove ≠ text)
          then Raise (DeleteMismatch text to_remove)
          else Ok tt
        else Ok tt);
  Ok (Doc (Py.slice_to (_text d) pos ++ Py.slice_from (_text d) endpos)).

Definition delete_at : t -> Z -> Z -> str -> result t :=
  delete_at_with VERIFY_DELETES.

End TextDocument.

(** ** Tag handlers *)

(** A callback is called with a tag and a value. It acts on the state of
    the object that registered it (the list of events of a work history,
    the properties of a dataset) and returns normally ([None]) or raises. *)
Definition callback (S : Type) : Type := str → JValue → S → S * option exn.

Module TagHandler.

Record t (S : Type) : Type := Make { _handlers : gmap str (callback S) }.
Arguments Make {S} _.
Arguments _handlers {S} _.

Definition unknown : str := lit "unknown".

(** [lambda tag, value: None] *)
Definition ignore {S : Type} : callback S := λ _ _ s, (s, None).

(** [__init__]: the handler of 'unknown' is set first, then every entry
    of [callbacks] is stored, over it where the key is 'unknown'. *)
Definition init {S : Type} (callbacks : gmap str (callback S)) : t S :=
  Make (callbacks ∪ <[unknown := ignore]> ∅).

(** [register_callback] *)
Definition register_callback {S : Type} (th : t S) (tagname : str)
    (tv_callback : callback S) : t S :=
  Make (<[tagname := tv_callback]> (_handlers th)).

(** [register_callbacks] *)
Definition register_callbacks {S : Type} (th : t S) (tagnames : list str)
    (tv_callback : callback S) : t S :=
  foldl (λ th tagname, register_callback th tagname tv_callback) th tagnames.

(** [get_callback]; indexing the table at a missing key is a
    [KeyError]. *)
Definition get_callback {S : Type} (th : t S) (tagname : str)
  : result (callback S) :=
  match _handlers th !! tagname with
  | Some cb => Ok cb
  | None =>
      match _handlers th !! unknown with
      | Some cb => Ok cb
      | None => Raise (KeyError unknown)
      end
  end.

End TagHandler.

(** ** The scanner *)

(** [key in obj] for a string [key]: a key of a dict, an item of a list, a
    substring of a string; a [TypeError] for the values that are not
    containers. *)
Definition is_JStr (key : str) (v : JValue) : bool :=
  match v with
  | JStr s => bool_decide (s = key)
  | _ => false
  end.

Fixpoint substring_of (key s : str) : bool :=
  Py.startswith s key ||
  match s with
  | [] => false
  | _ :: s' => substring_of key s'
  end.

Definition contains (key : str) (obj : JValue) : result bool :=
  match obj with
  | JObj fields => Ok (bool_decide (is_Some (fields !! key)))
  | JArr items => Ok (existsb (is_JStr key) items)
  | JStr s => Ok (substring_of key s)
  | JNull | JBool _ | JNum _ => Raise TypeError
  end.

(** [obj[key]] for a string [key]. *)
Definition getitem (obj : JValue) (key : str) : result JValue :=
  match obj with
  | JObj fields =>
      match fields !! key with
      | Some v => Ok v
      | None => Raise (KeyError key)
      end
  | _ => Raise TypeError
  end.

(** [type(v) is str] *)
Definition is_str (v : JValue) : bool :=
  match v with
  | JStr _ => true
  | _ => false
  end.

(** The test of [_scan] that the required fields are present:
    [('tag' not in obj) or ('value' not in obj) or (type(obj['tag']) is not str)],
    evaluated from left to right as far as needed. *)
Definition fields_missing (obj : JValue) : result bool :=
  has_tag ← contains (lit "tag") obj;
  if negb has_tag then Ok true
  else
    has_value ← contains (lit "value") obj;
    if negb has_value then Ok true
    else
      tag ← getitem obj (lit "tag");
      Ok (negb (is_str tag)).

(** One turn of the loop of [_scan], on the line [obj] with number
    [line_no]. *)
Definition scan_line {S : Type} (line_no : Z) (obj : JValue)
    (tag_handler : TagHandler.t S) (s : S) : S * option exn :=
  match fields_missing obj with
  | Raise e => (s, Some e)
  | Ok true => (s, Some (Progsnap (InvalidData line_no)))
  | Ok false =>
      match getitem obj (lit "tag"), getitem obj (lit "value") with
      | Ok (JStr tag), Ok value =>
          match TagHandler.get_callback tag_handler tag with
          | Ok tv_callback => tv_callback tag value s
          | Raise e => (s, Some e)
          end
      | Raise e, _ | _, Raise e => (s, Some e)
      | Ok _, _ => (s, Some TypeError)
      end
  end.

(** The loop of [_scan] over the lines of the file, each as the value
    [json.loads] gives for it, with the state the callbacks act on;
    [line_no] lines have been read. *)
Fixpoint scan_from {S : Type} (line_no : Z) (f : list JValue)
    (tag_handler : TagHandler.t S) (s : S) : S * option exn :=
  match f with
  | [] => (s, None)
  | obj :: f' =>
      let line_no := line_no + 1 in
      match scan_line line_no obj tag_handler s with
      | (s', None) => scan_from line_no f' tag_handler s'
      | (s', Some e) => (s', Some e)
      end
  end.

(** [_scan] *)
Definition _scan {S : Type} (f : list JValue) (tag_handler : TagHandler.t S)
    (s : S) : S * option exn :=
  scan_from 0 f tag_handler s.

(** ** Sorting *)

(** Python's [list.sort] and [sorted], which compare with [<] only. This is
    CPython's algorithm for the lists it sorts in one run (fewer than 64
    items): the run the list starts with is found by [count_run], reversed
    when it descends, and the items after it are put in by binary
    insertion. Longer lists are cut into such runs and merged:
    [ListObject.list_sort], further down, is the algorithm for a list of
    any length, and does on fewer than 64 items what [sort] does (lemma
    [list_sort_short]). *)
Module PySort.
Section sort.
Context {A : Type} (lt : A → A → bool).

(** How far a strictly descending run goes on after [prev]. *)
Fixpoint run_desc (prev : A) (l : list A) : nat :=
  match l with
  | [] => O
  | x :: l' => if lt x prev then S (run_desc x l') else O
  end.

(** How far a non-descending run goes on after [prev]. *)
Fixpoint run_asc (prev : A) (l : list A) : nat :=
  match l with
  | [] => O
  | x :: l' => if lt x prev then O else S (run_asc x l')
  end.

(** [count_run]: the length of the run at the head of the list, and
    whether it descends. *)
Definition count_run (l : list A) : nat * bool :=
  match l with
  | [] => (O, false)
  | [x] => (1%nat, false)
  | x :: y :: l' =>
      if lt y x then (S (S (run_desc y l')), true)
      else (S (S (run_asc y l')), false)
  end.

(** The binary search of [binarysort] for the place of [pivot] in
    [a[l:r]]. *)
Fixpoint bisect (fuel : nat) (pivot : A) (a : list A) (l r : nat) : nat :=
  match fuel with
  | O => l
  | S fuel' =>
      if (l <? r)%nat then
        let p := (l + (r - l) / 2)%nat in
        match a !! p with
        | Some x =>
            if lt pivot x then bisect fuel' pivot a l p
            else bisect fuel' pivot a (S p) r
        | None => l
        end
      else l
  end.

(** [binarysort]: [done] is sorted, the items of [todo] are inserted
    into it one after the other. *)
Fixpoint binarysort (done todo : list A) : list A :=
  match todo with
  | [] => done
  | pivot :: todo' =>
      let l := bisect (length done) pivot done 0 (length done) in
      binarysort (take l done ++ pivot :: drop l done) todo'
  end.

(** [list.sort] *)
Definition sort (l : list A) : list A :=
  let '(n, descending) := count_run l in
  let run := take n l in
  binarysort (if descending then reverse run else run) (drop n l).

End sort.

(** [functools.cmp_to_key]: the keys compare by the sign of [mycmp]. *)
Definition cmp_to_key {A : Type} (mycmp : A → A → Z) : A → A → bool :=
  λ a b, mycmp a b <? 0.

(** [<] on strings: by the first character that differs, a proper prefix
    first. *)
Fixpoint str_lt (a b : str) : bool :=
  match a, b with
  | _, [] => false
  | [], _ :: _ => true
  | x :: a', y :: b' =>
      if (nat_of_ascii x <? nat_of_ascii y)%nat then true
      else if (nat_of_ascii y <? nat_of_ascii x)%nat then false
      else str_lt a' b'
  end.

End PySort.

(** ** Events and work histories *)

(** The class of an event. *)
Inductive EventType : Type := Edit | Submission | Compilation | TestResults.

#[global] Instance EventType_eq_dec : EqDecision EventType.
Proof. solve_decision. Defined.

(** An event, by the properties the work history reads: [has("editid")] is
    [editid e ≠ None] and [has("snapids")] is [snapids e ≠ None]. Edit
    identifiers and timestamps are integers ([ts] is numeric once the
    constructor has normalised it). *)
Record Event : Type := {
  evt_type : EventType;
  editid : option Z;
  ts : Z;
  snapids : option (list SnapId)
}.

Module WorkHistory.

(** A work history: the events loaded so far, and [file_events], the
    events that scanning the backing file appends, one per record, in
    the order of the file. *)
Record t : Type := Make {
  _events : list Event;
  file_events : list Event;
  _loaded : bool;
  _sortworkhistory : bool
}.

(** [__init__] *)
Definition init (file_events : list Event) (sortworkhistory : bool) : t :=
  Make [] file_events false sortworkhistory.

(** [compare_events] *)
Definition compare_events (a b : Event) : Z :=
  match editid a, editid b with
  | Some ea, Some eb =>
      let cmp := ea - eb in
      if negb (cmp =? 0) then cmp else ts a - ts b
  | _, _ => ts a - ts b
  end.

(** [_read_work_history] *)
Definition _read_work_history (self : t) : t :=
  let events := _events self ++ file_events self in
  let events :=
    if _sortworkhistory self
    then PySort.sort (PySort.cmp_to_key compare_events) events
    else events in
  Make events (file_events self) (_loaded self) (_sortworkhistory self).

(** [_load_events] *)
Definition _load_events (self : t) : t :=
  if negb (_loaded self) then
    let self := _read_work_history self in
    Make (_events self) (file_events self) true (_sortworkhistory self)
  else self.

(** [events] *)
Definition events (self : t) : t * list Event :=
  let self := _load_events self in (self, _events self).

(** The test of [find_edit_events_with_snapid] on one event. *)
Definition is_edit_with_snapid (snapid : SnapId) (evt : Event) : bool :=
  bool_decide (evt_type evt = Edit) &&
  match snapids evt with
  | Some ids => bool_decide (snapid ∈ ids)
  | None => false
  end.

(** [find_edit_events_with_snapid] *)
Definition find_edit_events_with_snapid (self : t) (snapid : SnapId)
  : t * list Event :=
  let self := _load_events self in
  (self, List.filter (is_edit_with_snapid snapid) (_events self)).

(** [find_single_edit_event_with_snapid] *)
Definition find_single_edit_event_with_snapid (self : t) (snapid : SnapId)
  : t * result (option Event) :=
  let '(self, candidates) := find_edit_events_with_snapid self snapid in
  match candidates with
  | [] => (self, Ok None)
  | [evt] => (self, Ok (Some evt))
  | _ => (self, Raise (MultipleEditEvents snapid))
  end.

End WorkHistory.

(** ** Storage *)

(** ["{}/{}".format(a, b)] *)
Definition join (a b : str) : str := a ++ SLASH :: b.

(** Access to a dataset in a directory. [os_listdir] is [os.listdir]: the
    names in a directory of the file system, in the order the system gives
    them. *)
Module ProgsnapDirectory.

Record t : Type := Make { _basedir : str }.

(** [listdir] *)
Definition listdir (os_listdir : str → list str) (self : t) (path : str)
  : list str :=
  os_listdir (join (_basedir self) path).

End ProgsnapDirectory.

(** Access to a dataset in a zipfile, by the names of its entries
    ([infolist], in the order of the archive). *)
Module ProgsnapZipfile.

Record t : Type := Make { infolist : list str }.

(** The member of the directory that the entry [fname] stands for, if it
    lies under [pfx]. *)
Definition member_of (pfx fname : str) : option str :=
  if Py.startswith fname pfx then
    let rest := Py.slice_from fname (Py.len pfx) in
    if bool_decide (rest ≠ []) then
      let first_slash := Py.find SLASH rest 0 in
      Some (if first_slash >? 0 then Py.slice rest 0 first_slash else rest)
    else None
  else None.

(** The loop of [listdir] over the entries. *)
Definition members (pfx : str) (entries : list str) : gset str :=
  foldl (λ result fname,
           match member_of pfx fname with
           | Some member => {[ member ]} ∪ result
           | None => result
           end) ∅ entries.

(** [listdir] *)
Definition listdir (self : t) (path : str) : list str :=
  let pfx := path ++ [SLASH] in
  PySort.sort PySort.str_lt (elements (members pfx (infolist self))).

End ProgsnapZipfile.

(** ** Vocabulary of the properties *)

(** The tables a program can build: by [__init__], then by registering
    callbacks. *)
Inductive constructed {S : Type} : TagHandler.t S → Prop :=
  | constructed_init callbacks :
      constructed (TagHandler.init callbacks)
  | constructed_register th tagname tv_callback :
      constructed th →
      constructed (TagHandler.register_callback th tagname tv_callback).

(** The line [{"tag": tag, "value": value}]. *)
Definition record (tag : str) (value : JValue) : JValue :=
  JObj (<[lit "tag" := JStr tag]> (<[lit "value" := value]> ∅)).

(** [obj] is an object with a string [tag] under 'tag' and [value] under
    'value' (and whatever other fields). *)
Definition is_record (obj : JValue) (call : str * JValue) : Prop :=
  ∃ fields, obj = JObj fields
            ∧ fields !! lit "tag" = Some (JStr call.1)
            ∧ fields !! lit "value" = Some call.2.

(** [obj] is an object in which 'tag' or 'value' is missing, or 'tag' is
    not a string. *)
Definition malformed (obj : JValue) : Prop :=
  ∃ fields, obj = JObj fields
            ∧ (fields !! lit "tag" = None
               ∨ fields !! lit "value" = None
               ∨ ∃ v, fields !! lit "tag" = Some v ∧ is_str v = false).

(** The handler invocations [calls], made one after the other on the state
    [s] until one of them raises. *)
Fixpoint dispatch_all {S : Type} (th : TagHandler.t S)
    (calls : list (str * JValue)) (s : S) : S * option exn :=
  match calls with
  | [] => (s, None)
  | (tag, value) :: calls' =>
      match TagHandler.get_callback th tag with
      | Raise e => (s, Some e)
      | Ok tv_callback =>
          match tv_callback tag value s with
          | (s', None) => dispatch_all th calls' s'
          | (s', Some e) => (s', Some e)
          end
      end
  end.

(** A handler that logs its calls, for the examples. *)
Definition log_call : callback (list (str * JValue)) :=
  λ tag value s, (s ++ [(tag, value)], None).

(** [evt] is an Edit event whose snapids hold [snapid]. *)
Definition edit_with_snapid (snapid : SnapId) (evt : Event) : Prop :=
  evt_type evt = Edit ∧ ∃ ids, snapids evt = Some ids ∧ snapid ∈ ids.

(** The text of [s] before its first slash, all of [s] when it has none. *)
Fixpoint first_segment (s : str) : str :=
  match s with
  | [] => []
  | c :: s' => if decide (c = SLASH) then [] else c :: first_segment s'
  end.

(** No item of the list is less than the one before it. *)
Definition nondescending {A : Type} (lt : A → A → bool) (l : list A) : Prop :=
  ∀ i x y, l !! i = Some x → l !! S i = Some y → lt y x = false.

(** ** Directories of an archive *)

(** [s.rfind(c)] for a one-character [c]: the index of the last [c] in
    [s]; [-1] when there is none. *)
Fixpoint rfind (c : ascii) (s : str) : Z :=
  match s with
  | [] => -1
  | x :: s' =>
      let r := rfind c s' in
      if r <? 0 then (if decide (x = c) then 0 else -1) else r + 1
  end.

(** [_get_dirpart]: the directory part of a filename. *)
Definition _get_dirpart (fname : str) : str :=
  let last_slash := rfind SLASH fname in
  if last_slash >? 0 then Py.slice fname 0 last_slash else [].

Module ZipDirs.

(** The name of an entry with its trailing slash trimmed, as [_find_dirs]
    trims it. *)
Definition trimmed (fname : str) : str :=
  if Py.endswith fname SLASH then Py.slice fname 0 (Py.len fname - 1)
  else fname.

(** The inner loop of [_find_dirs]: [dirpart] and the directory parts of
    it are added to the set, until the directory part is empty. Each turn
    shortens [dirpart], so its length is fuel enough. *)
Fixpoint add_dirparts (fuel : nat) (dirpart : str) (dirs : gset str)
  : gset str :=
  match fuel with
  | O => dirs
  | S fuel' =>
      if bool_decide (dirpart ≠ []) then
        add_dirparts fuel' (_get_dirpart dirpart) ({[ dirpart ]} ∪ dirs)
      else dirs
  end.

(** [_find_dirs]: the set [_dirs] that [__init__] builds from the entries
    of the archive. *)
Definition _find_dirs (self : ProgsnapZipfile.t) : gset str :=
  foldl (λ dirs fname,
           let fname := trimmed fname in
           let dirpart := _get_dirpart fname in
           add_dirparts (length dirpart) dirpart dirs)
        ∅ (ProgsnapZipfile.infolist self).

(** [isdir] *)
Definition isdir (self : ProgsnapZipfile.t) (path : str) : bool :=
  bool_decide (path ∈ _find_dirs self).

(** [isfile]. [file_size] gives the size of the entry of a name;
    [getinfo] raises [KeyError] for a name that the archive has no entry
    of, and the object it returns is not false. *)
Definition isfile (file_size : str → Z) (self : ProgsnapZipfile.t)
    (path : str) : result bool :=
  if bool_decide (path ∈ ProgsnapZipfile.infolist self)
  then Ok (file_size path >? 0)
  else Raise (KeyError path).

End ZipDirs.

(** [p] is a directory above [f]: [f] is [p], a slash and more text, and
    [p] is not empty. *)
Definition dir_above (f p : str) : Prop :=
  p ≠ [] ∧ ∃ rest, f = p ++ SLASH :: rest.

(** ** Further errors *)

(** What a call of the parts below can end with, beside a result: one of
    the exceptions above, or one more [ProgsnapError] of the source. *)
Inductive Failure : Type :=
  | Raised (e : exn)
  | NoSuchProperty (name : str)
  | UnknownEditType (type : str).

Inductive outcome (A : Type) : Type :=
  | Done (a : A)
  | Failed (e : Failure).
Arguments Done {A} a.
Arguments Failed {A} e.

#[global] Instance outcome_ret : MRet outcome := fun _ a => Done a.
#[global] Instance outcome_bind : MBind outcome := fun _ _ k r =>
  match r with
  | Done a => k a
  | Failed e => Failed e
  end.

(** A call of a function above, inside one below. *)
Definition lift {A : Type} (r : result A) : outcome A :=
  match r with
  | Ok a => Done a
  | Raise e => Failed (Raised e)
  end.

(** ** Objects with properties *)

(** [_HasProps], for an object whose properties are JSON values:
    [_props]. *)
Module HasProps.

Abbreviation t := (gmap str JValue).

(** [__init__] without argument, and with a dictionary. *)
Definition init : t := ∅.

(** [add_all]: [dict.update], the values of [other] win. *)
Definition add_all (props other : t) : t := other ∪ props.

Definition init_with (jsobj : t) : t := add_all init jsobj.

(** [__getattr__]: the call [obj.name()]. *)
Definition getprop (props : t) (name : str) : outcome JValue :=
  match props !! name with
  | Some value => Done value
  | None => Failed (NoSuchProperty name)
  end.

(** [setprop] *)
Definition setprop (props : t) (tag : str) (value : JValue) : t :=
  <[tag := value]> props.

(** [_setdefault]: [dict.setdefault], the object after the call and the
    value returned. *)
Definition _setdefault (props : t) (tag : str) (defvalue : JValue)
  : t * JValue :=
  match props !! tag with
  | Some value => (props, value)
  | None => (<[tag := defvalue]> props, defvalue)
  end.

(** [has] *)
Definition has (props : t) (propname : str) : bool :=
  bool_decide (is_Some (props !! propname)).

End HasProps.

(** [Test] *)
Module Test.

Definition init (jsobj : HasProps.t) : HasProps.t := HasProps.init_with jsobj.

(** [opaque] *)
Definition opaque (props : HasProps.t) : HasProps.t * JValue :=
  HasProps._setdefault props (lit "opaque") (JBool false).

(** [invisible] *)
Definition invisible (props : HasProps.t) : HasProps.t * JValue :=
  HasProps._setdefault props (lit "invisible") (JBool false).

End Test.

(** ** Looking up events by snapshot *)

Module WorkHistoryLookup.
Section lookup.

(** The [snapid] property of an event, which the record [Event] leaves
    out: [None] when the event has no such property. *)
Context (snapid_of : Event → option SnapId).

(** The loop of [_find_event_with_snapid]. *)
Fixpoint find_event (wanted : EventType) (snapid : SnapId)
    (events : list Event) : outcome (option Event) :=
  match events with
  | [] => Done None
  | evt :: events' =>
      if bool_decide (evt_type evt = wanted) then
        match snapid_of evt with
        | None => Failed (NoSuchProperty (lit "snapid"))
        | Some id =>
            if bool_decide (id = snapid) then Done (Some evt)
            else find_event wanted snapid events'
        end
      else find_event wanted snapid events'
  end.

(** [_find_event_with_snapid] *)
Definition _find_event_with_snapid (self : WorkHistory.t)
    (wanted : EventType) (snapid : SnapId)
  : WorkHistory.t * outcome (option Event) :=
  let self := WorkHistory._load_events self in
  (self, find_event wanted snapid (WorkHistory._events self)).

(** [find_submission_event] *)
Definition find_submission_event (self : WorkHistory.t) (snapid : SnapId) :=
  _find_event_with_snapid self Submission snapid.

(** [find_compilation_event] *)
Definition find_compilation_event (self : WorkHistory.t) (snapid : SnapId) :=
  _find_event_with_snapid self Compilation snapid.

(** [find_testresults_event] *)
Definition find_testresults_event (self : WorkHistory.t) (snapid : SnapId) :=
  _find_event_with_snapid self TestResults snapid.

End lookup.
End WorkHistoryLookup.

(** ** Applying edits *)

(** A position, by the properties the applicator reads; [None] for a
    property that the object does not have. *)
Module Position.

Record t : Type := Make { row : option Z; col : option Z }.

Definition get_row (p : t) : outcome Z :=
  match row p with
  | Some r => Done r
  | None => Failed (NoSuchProperty (lit "row"))
  end.

Definition get_col (p : t) : outcome Z :=
  match col p with
  | Some c => Done c
  | None => Failed (NoSuchProperty (lit "col"))
  end.

End Position.

(** An edit, by the properties the applicator reads: its type and text as
    strings, its start as the [Position] that the constructor of [Edit]
    makes of it. *)
Module EditProps.

Record t : Type := Make {
  type : option str;
  start : option Position.t;
  text : option str
}.

Definition get_type (e : t) : outcome str :=
  match type e with
  | Some v => Done v
  | None => Failed (NoSuchProperty (lit "type"))
  end.

Definition get_start (e : t) : outcome Position.t :=
  match start e with
  | Some v => Done v
  | None => Failed (NoSuchProperty (lit "start"))
  end.

Definition get_text (e : t) : outcome str :=
  match text e with
  | Some v => Done v
  | None => Failed (NoSuchProperty (lit "text"))
  end.

End EditProps.

Module EditApplicator.

(** [_do_insert]; the arguments of the call are evaluated from left to
    right. *)
Definition _do_insert (edit : EditProps.t) (text_document : TextDocument.t)
  : outcome TextDocument.t :=
  st ← EditProps.get_start edit;
  row ← Position.get_row st;
  st ← EditProps.get_start edit;
  col ← Position.get_col st;
  text ← EditProps.get_text edit;
  lift (TextDocument.insert_at text_document row col text).

(** [_do_delete] *)
Definition _do_delete (edit : EditProps.t) (text_document : TextDocument.t)
  : outcome TextDocument.t :=
  st ← EditProps.get_start edit;
  row ← Position.get_row st;
  st ← EditProps.get_start edit;
  col ← Position.get_col st;
  text ← EditProps.get_text edit;
  lift (TextDocument.delete_at text_document row col text).

(** [_do_fulltext] *)
Definition _do_fulltext (edit : EditProps.t) (text_document : TextDocument.t)
  : outcome TextDocument.t :=
  text ← EditProps.get_text edit;
  Done (TextDocument.set_text text_document text).

(** [apply] *)
Definition apply (edit : EditProps.t) (text_document : TextDocument.t)
  : outcome TextDocument.t :=
  type ← EditProps.get_type edit;
  if bool_decide (type = lit "insert") then _do_insert edit text_document
  else if bool_decide (type = lit "delete") then _do_delete edit text_document
  else if bool_decide (type = lit "fulltext")
       then _do_fulltext edit text_document
  else Failed (UnknownEditType type).

End EditApplicator.

(** The edits [edits] applied one after the other, until one raises. *)
Fixpoint apply_all (edits : list EditProps.t) (doc : TextDocument.t)
  : outcome TextDocument.t :=
  match edits with
  | [] => Done doc
  | edit :: edits' =>
      doc' ← EditApplicator.apply edit doc;
      apply_all edits' doc'
  end.

(** [match_text] of the example that replays the edits: the texts are
    equal, or one is the other with a newline added. *)
Definition match_text (actual expected : str) : bool :=
  bool_decide (actual = expected)
  || bool_decide (actual ++ [NL] = expected)
  || bool_decide (actual = expected ++ [NL]).

(** An event that the lookup of an event of the type [wanted] for
    [snapid] passes over: it is of another type, or its snapid is another
    one. *)
Definition passed_over (snapid_of : Event → option SnapId)
    (wanted : EventType) (snapid : SnapId) (evt : Event) : Prop :=
  evt_type evt = wanted → ∃ id, snapid_of evt = Some id ∧ id ≠ snapid.

(** Neither of [x] and [y] is less than the other: the sort ranks them
    equally. *)
Definition tie {A : Type} (lt : A → A → bool) (x y : A) : bool :=
  negb (lt x y) && negb (lt y x).

(** ** [list.sort] on lists of every length *)

(** CPython's [list.sort] as Python 3.11 has it (Objects/listobject.c),
    for a list of any length. The list is cut into runs from left to
    right: the run found by [count_run], reversed when it descends and
    filled up to [minrun] items by [binarysort]. The runs wait on a stack
    and neighbours are merged, in the order that [found_new_run] and
    [merge_force_collapse] decide, by [merge_at]: it leaves out the items
    at the two ends that are in place already and merges the rest with
    [merge_lo] or [merge_hi], which go from taking one item at a time to
    galloping and back as [min_gallop] tells. A list of fewer than 64
    items is one run, and so sorted by [PySort.sort].

    The loops of the C code are recursions on a number [fuel] of passes
    that the loop cannot use up: the length of the list for the searches
    and for the loop over the runs, the number of the items to merge for
    a merge, the height of the stack for the loops that merge runs. *)
Module ListObject.
Section list_sort.
Context {A : Type} (lt : A → A → bool).
#[local] Open Scope nat_scope.

Definition MIN_GALLOP : nat := 7.

(** [merge_compute_minrun]; [n] is halved in every pass. *)
Fixpoint minrun_loop (fuel n r : nat) : nat :=
  match fuel with
  | O => n + r
  | S fuel' =>
      if 64 <=? n then minrun_loop fuel' (n / 2) (Nat.lor r (Nat.land n 1))
      else n + r
  end.

Definition merge_compute_minrun (n : nat) : nat := minrun_loop n n 0.

(** *** Galloping *)

(** The loop of a gallop that doubles the offset: [ofs] goes 1, 3, 7, ...
    while it is below [maxofs] and [continue] holds at it; [lastofs] is
    the offset before it. *)
Fixpoint gallop_loop (fuel : nat) (continue : nat → bool)
    (maxofs lastofs ofs : nat) : nat * nat :=
  match fuel with
  | O => (lastofs, ofs)
  | S fuel' =>
      if (ofs <? maxofs) && continue ofs
      then gallop_loop fuel' continue maxofs ofs (2 * ofs + 1)
      else (lastofs, ofs)
  end.

(** The binary search that ends a gallop, between [lastofs] and [ofs]. *)
Fixpoint gallop_search (fuel : nat) (before : nat → bool)
    (lastofs ofs : nat) : nat :=
  match fuel with
  | O => ofs
  | S fuel' =>
      if lastofs <? ofs then
        let m := lastofs + (ofs - lastofs) / 2 in
        if before m then gallop_search fuel' before (S m) ofs
        else gallop_search fuel' before lastofs m
      else ofs
  end.

(** [gallop_left] and [gallop_right] are one search, for the place in [a]
    up to which the items are before the key, as [before] tells: it starts
    at [a[hint]], gallops to the right when that item is before the key
    and to the left when it is not, and ends with a binary search. *)
Definition gallop (before : A → bool) (a : list A) (hint : nat) : nat :=
  let n := length a in
  let before_at i :=
    match a !! i with Some x => before x | None => false end in
  let '(lastofs, ofs) :=
    if before_at hint then
      let maxofs := n - hint in
      let '(lastofs, ofs) :=
        gallop_loop n (λ ofs, before_at (hint + ofs)) maxofs 0 1 in
      (lastofs + hint + 1, Nat.min ofs maxofs + hint)
    else
      let maxofs := hint + 1 in
      let '(lastofs, ofs) :=
        gallop_loop n (λ ofs, negb (before_at (hint - ofs))) maxofs 0 1 in
      (hint + 1 - Nat.min ofs maxofs, hint - lastofs) in
  gallop_search n before_at lastofs ofs.

(** [gallop_left]: the items before the place are less than [key]. *)
Definition gallop_left (key : A) (a : list A) (hint : nat) : nat :=
  gallop (λ x, lt x key) a hint.

(** [gallop_right]: the items from the place on are greater than [key]. *)
Definition gallop_right (key : A) (a : list A) (hint : nat) : nat :=
  gallop (λ x, negb (lt key x)) a hint.

(** *** Merging two runs *)

(** A merge on its way: [Y] and [X] are what is left of the two runs, [X]
    being the run that was copied to the temp array, each with the item
    that is merged next at its head; [out] holds the items merged so far,
    in the order in which they were merged. [merge_lo] merges from the
    left, [merge_hi] from the right, so that there the three lists are the
    reverse of what the array holds. *)
Record merging : Type := Merging {
  out : list A;
  X : list A;
  Y : list A;
  min_gallop : nat
}.

(** A merge that is over: the merged items and [ms->min_gallop]. *)
Definition merged : Type := list A * nat.

(** Where the loops are: taking one item at a time, with the counts of
    the items that [X] and [Y] won in a row, or galloping. *)
Inductive mode : Type := Straight (xcount ycount : nat) | Galloping.

Section merge.
(** [Y_first y x]: the head [y] of [Y] is merged before the head [x] of
    [X]. [gallop_X key X], [gallop_Y key Y]: how many items at the head of
    the run are merged before [key], the head of the other run. [X_first]:
    a round of galloping begins with [X]. *)
Context (Y_first : A → A → bool) (gallop_X gallop_Y : A → list A → nat)
        (X_first : bool).

(** The tests that leave the loops: [X] is down to one item (labels
    [CopyB], [CopyA]: the rest of [Y] goes before it) or to none, or [Y]
    is empty (label [Succeed]: the rest of [X] follows). *)
Definition check (st : merging) : merged + merging :=
  if length (X st) <=? 1 then inl (out st ++ Y st ++ X st, min_gallop st)
  else match Y st with
       | [] => inl (out st ++ X st, min_gallop st)
       | _ :: _ => inr st
       end.

Definition take_X (n : nat) (st : merging) : merging :=
  Merging (out st ++ take n (X st)) (drop n (X st)) (Y st) (min_gallop st).

Definition take_Y (n : nat) (st : merging) : merging :=
  Merging (out st ++ take n (Y st)) (X st) (drop n (Y st)) (min_gallop st).

Definition count_X (st : merging) : nat :=
  match Y st with y :: _ => gallop_X y (X st) | [] => 0 end.

Definition count_Y (st : merging) : nat :=
  match X st with x :: _ => gallop_Y x (Y st) | [] => 0 end.

Definition and_then {B : Type} (r : merged + merging)
    (k : merging → merged + B) : merged + B :=
  match r with inl m => inl m | inr st => k st end.

(** One pass of the loop that takes one item at a time. *)
Definition straight (xcount ycount : nat) (st : merging)
  : merged + mode * merging :=
  match X st, Y st with
  | x :: _, y :: _ =>
      if Y_first y x then
        and_then (check (take_Y 1 st)) (λ st,
          if min_gallop st <=? S ycount
          then inr (Galloping, Merging (out st) (X st) (Y st)
                                 (S (min_gallop st)))
          else inr (Straight 0 (S ycount), st))
      else
        and_then (check (take_X 1 st)) (λ st,
          if min_gallop st <=? S xcount
          then inr (Galloping, Merging (out st) (X st) (Y st)
                                 (S (min_gallop st)))
          else inr (Straight (S xcount) 0, st))
  | _, _ => inl (out st ++ Y st ++ X st, min_gallop st)
  end.

(** One pass of the loop that gallops. *)
Definition galloping (st : merging) : merged + mode * merging :=
  let st := Merging (out st) (X st) (Y st)
              (min_gallop st - (if 1 <? min_gallop st then 1 else 0)) in
  let leave (k1 k2 : nat) (st : merging) : merged + mode * merging :=
    if (MIN_GALLOP <=? k1) || (MIN_GALLOP <=? k2) then inr (Galloping, st)
    else inr (Straight 0 0, Merging (out st) (X st) (Y st)
                              (S (min_gallop st))) in
  if X_first then
    let k1 := count_X st in
    and_then (check (take_X k1 st)) (λ st,
    and_then (check (take_Y 1 st)) (λ st,
    let k2 := count_Y st in
    and_then (check (take_Y k2 st)) (λ st,
    and_then (check (take_X 1 st)) (λ st,
    leave k1 k2 st))))
  else
    let k1 := count_Y st in
    and_then (check (take_Y k1 st)) (λ st,
    and_then (check (take_X 1 st)) (λ st,
    let k2 := count_X st in
    and_then (check (take_X k2 st)) (λ st,
    and_then (check (take_Y 1 st)) (λ st,
    leave k1 k2 st)))).

Fixpoint merge_loop (fuel : nat) (m : mode) (st : merging) : merged :=
  match fuel with
  | O => (out st ++ Y st ++ X st, min_gallop st)
  | S fuel' =>
      match match m with
            | Straight xcount ycount => straight xcount ycount st
            | Galloping => galloping st
            end with
      | inl done => done
      | inr (m', st') => merge_loop fuel' m' st'
      end
  end.

(** The merge of the runs [Y] and [X]: the first item of [Y] is merged at
    once, then the loops run. *)
Definition merge (X Y : list A) (min_gallop : nat) : merged :=
  match check (take_Y 1 (Merging [] X Y min_gallop)) with
  | inl done => done
  | inr st => merge_loop (2 * (length X + length Y)) (Straight 0 0) st
  end.

End merge.

(** [merge_lo]: [a] is the run in the temp array; the merge goes from the
    left, where [b[0]] is known to come first. *)
Definition merge_lo (a b : list A) (min_gallop : nat) : merged :=
  merge (λ y x, lt y x)
    (λ key X, gallop_right key X 0) (λ key Y, gallop_left key Y 0)
    true a b min_gallop.

(** [merge_hi]: [b] is the run in the temp array; the merge goes from the
    right, where the last item of [a] is known to come last. The gallops
    search the runs as the array has them, and count from the right. *)
Definition merge_hi (a b : list A) (min_gallop : nat) : merged :=
  let '(l, min_gallop) :=
    merge (λ y x, lt x y)
      (λ key X,
         length X - gallop_left key (reverse X) (length X - 1))
      (λ key Y,
         length Y - gallop_right key (reverse Y) (length Y - 1))
      false (reverse b) (reverse a) min_gallop in
  (reverse l, min_gallop).

(** [merge_at]: the merge of two runs that are neighbours, [a] before
    [b]. *)
Definition merge_at (a b : list A) (min_gallop : nat) : merged :=
  match b with
  | [] => (a, min_gallop)
  | b0 :: _ =>
      let k := gallop_right b0 a 0 in
      let a' := drop k a in
      match last a' with
      | None => (a ++ b, min_gallop)
      | Some a_last =>
          let nb := gallop_left a_last b (length b - 1) in
          if nb =? 0 then (a ++ b, min_gallop)
          else
            let b' := take nb b in
            let '(l, min_gallop) :=
              if length a' <=? nb then merge_lo a' b' min_gallop
              else merge_hi a' b' min_gallop in
            (take k a ++ l ++ drop nb b, min_gallop)
      end
  end.

(** *** The stack of runs *)

(** A run that waits to be merged: where it starts in the list, its
    items, and the power of the boundary to the run after it. *)
Record run : Type := Run { start : nat; items : list A; power : nat }.

(** [powerloop]: [a] and [b] are compared with [n] and doubled until [n]
    falls between them; as [b - a] doubles and stays below [2 * n], that
    is before [n + 1] passes. *)
Fixpoint powerloop_from (fuel a b n result : nat) : nat :=
  match fuel with
  | O => S result
  | S fuel' =>
      if n <=? a then powerloop_from fuel' (2 * (a - n)) (2 * (b - n)) n
                        (S result)
      else if n <=? b then S result
      else powerloop_from fuel' (2 * a) (2 * b) n (S result)
  end.

Definition powerloop (s1 n1 n2 n : nat) : nat :=
  let a := 2 * s1 + n1 in
  powerloop_from (S n) a (a + n1 + n2) n 0.

(** The loop of [found_new_run]: the two runs on top are merged while
    the power below the top is greater than the new one. The stack has
    its top at the head. *)
Fixpoint merge_above (fuel : nat) (new_power : nat) (stack : list run)
    (min_gallop : nat) : list run * nat :=
  match fuel, stack with
  | S fuel', top :: below :: stack' =>
      if new_power <? power below then
        let '(l, min_gallop) :=
          merge_at (items below) (items top) min_gallop in
        merge_above fuel' new_power
          (Run (start below) l (power below) :: stack') min_gallop
      else (stack, min_gallop)
  | _, _ => (stack, min_gallop)
  end.

(** [found_new_run], for a new run of [n2] items *)
Definition found_new_run (stack : list run) (n2 listlen min_gallop : nat)
  : list run * nat :=
  match stack with
  | [] => (stack, min_gallop)
  | top :: _ =>
      let new_power :=
        powerloop (start top) (length (items top)) n2 listlen in
      let '(stack, min_gallop) :=
        merge_above (length stack) new_power stack min_gallop in
      match stack with
      | top :: stack' =>
          (Run (start top) (items top) new_power :: stack', min_gallop)
      | [] => (stack, min_gallop)
      end
  end.

(** [merge_force_collapse] *)
Fixpoint merge_force_collapse (fuel : nat) (stack : list run)
    (min_gallop : nat) : list run * nat :=
  match fuel, stack with
  | S fuel', top :: below :: stack' =>
      match stack' with
      | third :: stack''  =>
          if length (items third) <? length (items top) then
            let '(l, min_gallop) :=
              merge_at (items third) (items below) min_gallop in
            merge_force_collapse fuel'
              (top :: Run (start third) l (power third) :: stack'')
              min_gallop
          else
            let '(l, min_gallop) :=
              merge_at (items below) (items top) min_gallop in
            merge_force_collapse fuel'
              (Run (start below) l (power below) :: stack')
              min_gallop
      | [] =>
          let '(l, min_gallop) :=
            merge_at (items below) (items top) min_gallop in
          merge_force_collapse fuel'
            (Run (start below) l (power below) :: stack')
            min_gallop
      end
  | _, _ => (stack, min_gallop)
  end.

(** The loop of [list.sort] over the runs: [rest] is the part of the list
    that is not cut into runs yet, from position [lo] on. *)
Fixpoint runs_loop (fuel : nat) (listlen minrun : nat) (stack : list run)
    (lo : nat) (rest : list A) (min_gallop : nat) : list run * nat :=
  match fuel, rest with
  | S fuel', _ :: _ =>
      let '(n, descending) := PySort.count_run lt rest in
      let new := take n rest in
      let new := if descending then reverse new else new in
      let force := Nat.min (length rest) minrun in
      let '(new, n) :=
        if n <? minrun
        then (PySort.binarysort lt new (take (force - n) (drop n rest)),
              force)
        else (new, n) in
      let '(stack, min_gallop) :=
        found_new_run stack n listlen min_gallop in
      runs_loop fuel' listlen minrun (Run lo new 0 :: stack) (lo + n)
        (drop n rest) min_gallop
  | _, _ => (stack, min_gallop)
  end.

(** [list.sort] *)
Definition list_sort (l : list A) : list A :=
  if length l <? 2 then l
  else
    let '(stack, min_gallop) :=
      runs_loop (length l) (length l) (merge_compute_minrun (length l))
        [] 0 l MIN_GALLOP in
    let '(stack, _) :=
      merge_force_collapse (length stack) stack min_gallop in
    concat (reverse (map items stack)).

End list_sort.

Arguments merging : clear implicits.
Arguments merged : clear implicits.
Arguments run : clear implicits.

End ListObject.

(** What a merge takes for granted of its two gallops, where [ltf x y]
    says that [x] must come before [y] in the order of the merge: of the
    run [l], [g key l] items are merged before [key]; [key] is not less
    than the last of them, and the item after them is not less than
    [key]. *)
Definition gallop_between {A : Type} (ltf : A → A → bool)
    (g : A → list A → nat) : Prop :=
  ∀ key l, l ≠ [] →
    (∀ z, last (take (g key l) l) = Some z → ltf key z = false)
    ∧ (∀ z, head (drop (g key l) l) = Some z → ltf z key = false).

(** What holds of a merge on its way, between the items [pre] and [post]
    that the list has before and after the two runs: what is left of
    either run can follow the items merged so far, the last item of [X] is
    not less than the last item of [Y], and the items are those of [all]. *)
Definition merge_invariant {A : Type} (ltf : A → A → bool)
    (pre post all : list A) (st : ListObject.merging A) : Prop :=
  nondescending ltf (pre ++ ListObject.out st ++ ListObject.X st ++ post)
  ∧ nondescending ltf (pre ++ ListObject.out st ++ ListObject.Y st ++ post)
  ∧ (∀ x y, last (ListObject.X st) = Some x →
            last (ListObject.Y st) = Some y → ltf x y = false)
  ∧ ListObject.out st ++ ListObject.X st ++ ListObject.Y st ≡ₚ all.

(** What holds of the items [l] that a merge gives. *)
Definition merge_result {A : Type} (ltf : A → A → bool)
    (pre post all l : list A) : Prop :=
  nondescending ltf (pre ++ l ++ post) ∧ l ≡ₚ all.

(** The items of the runs of a stack, in the order of the list. *)
Definition stack_items {A : Type} (stack : list (ListObject.run A))
  : list A :=
  concat (reverse (map ListObject.items stack)).

(** ** Reading the file of a work history *)

(** The tags of the records that make an event, each with the class of
    its event. *)
Definition event_class (tag : str) : option EventType :=
  if decide (tag = lit "edit") then Some Edit
  else if decide (tag = lit "submission") then Some Submission
  else if decide (tag = lit "compilation") then Some Compilation
  else if decide (tag = lit "testresults") then Some TestResults
  else None.

(** A work history with the lines of its file. [_read_work_history] scans
    them with a handler table of four callbacks, each of which appends to
    [self._events] the event its class makes of the value of the record.
    [construct] stands for the constructors [Edit(value)],
    [Submission(value)], [Compilation(value)], [TestResults(value)], which
    raise on a value they cannot read (no 'ts', a timestamp that does not
    parse). An exception of the scan leaves
    [_read_work_history] and [_load_events] at once: the events appended
    so far stay in the list and [_loaded] is not set. *)
Module WorkHistoryFile.
Section reading.
Context (construct : EventType → JValue → result Event).

Record t : Type := Make {
  _events : list Event;
  file : list JValue;
  _loaded : bool;
  _sortworkhistory : bool
}.

(** [__init__] *)
Definition init (file : list JValue) (sortworkhistory : bool) : t :=
  Make [] file false sortworkhistory.

(** [lambda tag, value: self._events.append(Edit(value))], and the like *)
Definition append (class : EventType) : callback (list Event) :=
  λ _ value events,
    match construct class value with
    | Ok evt => (events ++ [evt], None)
    | Raise e => (events, Some e)
    end.

Definition handlers : TagHandler.t (list Event) :=
  let th := TagHandler.init ∅ in
  let th := TagHandler.register_callback th (lit "edit") (append Edit) in
  let th := TagHandler.register_callback th (lit "submission")
              (append Submission) in
  let th := TagHandler.register_callback th (lit "compilation")
              (append Compilation) in
  TagHandler.register_callback th (lit "testresults") (append TestResults).

(** [_read_work_history] *)
Definition _read_work_history (self : t) : t * option exn :=
  match _scan (file self) handlers (_events self) with
  | (events, Some e) =>
      (Make events (file self) (_loaded self) (_sortworkhistory self), Some e)
  | (events, None) =>
      let events :=
        if _sortworkhistory self
        then ListObject.list_sort
               (PySort.cmp_to_key WorkHistory.compare_events) events
        else events in
      (Make events (file self) (_loaded self) (_sortworkhistory self), None)
  end.

(** [_load_events] *)
Definition _load_events (self : t) : t * option exn :=
  if negb (_loaded self) then
    match _read_work_history self with
    | (self, Some e) => (self, Some e)
    | (self, None) =>
        (Make (_events self) (file self) true (_sortworkhistory self), None)
    end
  else (self, None).

(** [events] *)
Definition events (self : t) : t * result (list Event) :=
  match _load_events self with
  | (self, Some e) => (self, Raise e)
  | (self, None) => (self, Ok (_events self))
  end.

End reading.
End WorkHistoryFile.

(** The events that the records [calls] give, in their order, up to the
    first whose constructor raises, with the exception it raises. *)
Fixpoint events_of (construct : EventType → JValue → result Event)
    (calls : list (str * JValue)) : list Event * option exn :=
  match calls with
  | [] => ([], None)
  | (tag, value) :: calls' =>
      match event_class tag with
      | None => events_of construct calls'
      | Some class =>
          match construct class value with
          | Ok evt =>
              let '(evts, raised) := events_of construct calls' in
              (evt :: evts, raised)
          | Raise e => ([], Some e)
          end
      end
  end.

(** A constructor for examples: an event of the class with the number of
    the record as its timestamp; any other value has no 'ts'. *)
Definition event_at (class : EventType) (value : JValue) : result Event :=
  match value with
  | JNum n =>
      Ok {| evt_type := class; editid := None; ts := n; snapids := None |}
  | _ => Raise (KeyError (lit "ts"))
  end.

(** * Properties *)

(** ** Python strings *)

Section py_facts.
Implicit Types s t : str.

Lemma len_nonneg s : 0 ≤ Py.len s.
Proof. unfold Py.len. lia. Qed.

Lemma len_app s t : Py.len (s ++ t) = Py.len s + Py.len t.
Proof. unfold Py.len. rewrite length_app. lia. Qed.

Lemma len_nil : Py.len [] = 0.
Proof. reflexivity. Qed.

Lemma len_cons c s : Py.len (c :: s) = 1 + Py.len s.
Proof. unfold Py.len. simpl length. lia. Qed.

Lemma clamp_id n i : 0 ≤ i ≤ n → Py.clamp n i = i.
Proof.
  intros [H0 Hn]. unfold Py.clamp.
  destruct (Z.ltb_spec i 0); lia.
Qed.

Lemma clamp_range n i : 0 ≤ n → 0 ≤ Py.clamp n i ≤ n.
Proof.
  intros Hn. unfold Py.clamp.
  destruct (Z.ltb_spec i 0); lia.
Qed.

Lemma slice_to_app s t : Py.slice_to (s ++ t) (Py.len s) = s.
Proof.
  unfold Py.slice_to. rewrite clamp_id.
  - unfold Py.len at 1. rewrite Nat2Z.id. apply take_app_length.
  - rewrite len_app. pose proof (len_nonneg s). pose proof (len_nonneg t). lia.
Qed.

Lemma slice_from_app s t : Py.slice_from (s ++ t) (Py.len s) = t.
Proof.
  unfold Py.slice_from. rewrite clamp_id.
  - unfold Py.len at 1. rewrite Nat2Z.id. apply drop_app_length.
  - rewrite len_app. pose proof (len_nonneg s). pose proof (len_nonneg t). lia.
Qed.

Lemma slice_from_len s : Py.slice_from s (Py.len s) = [].
Proof.
  rewrite <- (app_nil_r s) at 1. rewrite slice_from_app. reflexivity.
Qed.

Lemma slice_app_mid s t u :
  Py.slice (s ++ t ++ u) (Py.len s) (Py.len s + Py.len t) = t.
Proof.
  pose proof (len_nonneg s). pose proof (len_nonneg t).
  pose proof (len_nonneg u).
  unfold Py.slice. rewrite !clamp_id by (rewrite !len_app; lia).
  replace (Py.len s + Py.len t - Py.len s) with (Py.len t) by lia.
  unfold Py.len at 1 2. rewrite !Nat2Z.id.
  rewrite drop_app_length. apply take_app_length.
Qed.

(** A slice taken between two bounds inside the string cuts it in three. *)
Lemma slice_split s lo hi :
  0 ≤ lo ≤ hi → hi ≤ Py.len s →
  s = Py.slice_to s lo ++ Py.slice s lo hi ++ Py.slice_from s hi
  ∧ Py.len (Py.slice_to s lo) = lo
  ∧ Py.len (Py.slice s lo hi) = hi - lo.
Proof.
  intros Hlo Hhi.
  unfold Py.slice_to, Py.slice, Py.slice_from.
  rewrite !clamp_id by lia.
  assert (Hlen : (Z.to_nat hi ≤ length s)%nat) by (unfold Py.len in Hhi; lia).
  split; [|split].
  - rewrite <- (take_drop (Z.to_nat lo) s) at 1. f_equal.
    rewrite <- (take_drop (Z.to_nat (hi - lo)) (drop (Z.to_nat lo) s)) at 1.
    f_equal. rewrite drop_drop. f_equal. lia.
  - unfold Py.len. rewrite length_take. lia.
  - unfold Py.len. rewrite length_take, length_drop. lia.
Qed.

Lemma endswith_snoc s c : Py.endswith (s ++ [c]) c = true.
Proof.
  unfold Py.endswith. rewrite last_snoc. apply bool_decide_eq_true. reflexivity.
Qed.

Lemma endswith_inv s c : Py.endswith s c = true → ∃ s', s = s' ++ [c].
Proof.
  unfold Py.endswith. destruct (last s) as [x|] eqn:Hl; [|discriminate].
  intros Hx. apply bool_decide_eq_true in Hx. subst x.
  apply last_Some in Hl. exact Hl.
Qed.

Lemma slice_to_snoc s c : Py.slice_to (s ++ [c]) (Py.len (s ++ [c]) - 1) = s.
Proof.
  rewrite len_app. replace (Py.len s + Py.len [c] - 1) with (Py.len s).
  - apply slice_to_app.
  - unfold Py.len. simpl. lia.
Qed.

End py_facts.

(** ** TextDocument: deletion *)

Section delete_at_facts.
Import TextDocument.
Implicit Types (d : t) (text : str).

(** What [delete_at] does once the range is known to end inside the
    buffer. *)
Lemma delete_at_in_range d row col text pos :
  _get_pos d row col = Ok pos →
  pos + Py.len text ≤ Py.len (_text d) →
  delete_at d row col text =
    let saw := Py.slice (_text d) pos (pos + Py.len text) in
    if bool_decide (saw ≠ text) then Raise (DeleteMismatch text saw)
    else Ok (Doc (Py.slice_to (_text d) pos
                  ++ Py.slice_from (_text d) (pos + Py.len text))).
Proof.
  intros Hpos Hend. unfold delete_at, delete_at_with, VERIFY_DELETES.
  rewrite Hpos. cbn.
  destruct (Z.gtb_spec (pos + Py.len text) (Py.len (_text d))); [lia|].
  cbn. destruct (bool_decide _); reflexivity.
Qed.

(** The special case: a delete that runs one character past the end and
    expects a newline there is the delete of the text without it. *)
Lemma delete_at_drop_newline d row col text pos :
  _get_pos d row col = Ok pos →
  pos + Py.len text = Py.len (_text d) →
  delete_at d row col (text ++ [NL]) = delete_at d row col text.
Proof.
  intros Hpos Hend.
  rewrite (delete_at_in_range d row col text pos) by (auto; lia).
  unfold delete_at, delete_at_with, VERIFY_DELETES.
  rewrite Hpos. cbn.
  assert (Hl : Py.len (text ++ [NL]) = Py.len text + 1)
    by (rewrite len_app; reflexivity).
  destruct (Z.gtb_spec (pos + Py.len (text ++ [NL])) (Py.len (_text d)));
    [|lia].
  destruct (Z.eqb_spec (pos + Py.len (text ++ [NL])) (Py.len (_text d) + 1));
    [|lia].
  rewrite endswith_snoc. cbn.
  rewrite slice_to_snoc.
  replace (pos + Py.len (text ++ [NL]) - 1) with (pos + Py.len text) by lia.
  destruct (bool_decide _); reflexivity.
Qed.

Lemma delete_at_beyond_end d row col text pos :
  _get_pos d row col = Ok pos →
  pos + Py.len text > Py.len (_text d) →
  ¬ (pos + Py.len text = Py.len (_text d) + 1 ∧ Py.endswith text NL = true) →
  delete_at d row col text =
    Raise (DeletionBeyondEnd (pos + Py.len text) (Py.len (_text d))).
Proof.
  intros Hpos Hend Hno. unfold delete_at, delete_at_with, VERIFY_DELETES.
  rewrite Hpos. cbn.
  destruct (Z.gtb_spec (pos + Py.len text) (Py.len (_text d))); [|lia].
  destruct (Z.eqb_spec (pos + Py.len text) (Py.len (_text d) + 1)); cbn.
  - destruct (Py.endswith text NL); [|reflexivity]. tauto.
  - reflexivity.
Qed.

(** C1. A delete whose end offset is one past the end of the buffer and
    whose text ends with a newline goes on with the newline dropped from
    the end offset and from the expected text; an end offset that exceeds
    the buffer by any other amount raises the deletion-beyond-end error.
    On the buffer "\ndef", deleting "def\n" at (1,0) leaves "\n". *)
Theorem delete_at_trailing_newline :
  (∀ d row col text pos,
      _get_pos d row col = Ok pos →
      pos + Py.len text = Py.len (_text d) + 1 →
      Py.endswith text NL = true →
      let endpos := pos + Py.len text - 1 in
      let text' := Py.slice_to text (Py.len text - 1) in
      let saw := Py.slice (_text d) pos endpos in
      text = text' ++ [NL]
      ∧ delete_at d row col text =
          (if bool_decide (saw ≠ text') then Raise (DeleteMismatch text' saw)
           else Ok (Doc (Py.slice_to (_text d) pos
                         ++ Py.slice_from (_text d) endpos))))
  ∧ (∀ d row col text pos,
      _get_pos d row col = Ok pos →
      pos + Py.len text > Py.len (_text d) →
      pos + Py.len text ≠ Py.len (_text d) + 1 →
      delete_at d row col text =
        Raise (DeletionBeyondEnd (pos + Py.len text) (Py.len (_text d))))
  ∧ delete_at (Doc (NL :: lit "def")) 1 0 (lit "def" ++ [NL])
    = Ok (Doc [NL]).
Proof.
  split; [|split].
  - intros d row col text pos Hpos Hend Hnl endpos text' saw.
    destruct (endswith_inv _ _ Hnl) as [t' ->].
    subst text' saw endpos. rewrite slice_to_snoc. split; [reflexivity|].
    assert (Hl : Py.len (t' ++ [NL]) = Py.len t' + 1)
      by (rewrite len_app; reflexivity).
    rewrite (delete_at_drop_newline d row col t' pos) by (auto; lia).
    rewrite (delete_at_in_range d row col t' pos) by (auto; lia).
    cbn zeta.
    replace (pos + Py.len (t' ++ [NL]) - 1) with (pos + Py.len t') by lia.
    reflexivity.
  - intros d row col text pos Hpos Hend Hne.
    apply delete_at_beyond_end; [done..|]. intros [? _]. lia.
  - reflexivity.
Qed.

Lemma delete_at_trailing_newline_witness :
  delete_at (Doc (lit "ab")) 0 1 (lit "b" ++ [NL]) = Ok (Doc (lit "a"))
  ∧ delete_at (Doc (lit "ab")) 0 1 (lit "bcd")
    = Raise (DeletionBeyondEnd 4 2).
Proof.
  split.
  - pose proof (proj1 delete_at_trailing_newline
                  (Doc (lit "ab")) 0 1 (lit "b" ++ [NL]) 1
                  eq_refl eq_refl eq_refl) as [_ H].
    exact H.
  - exact (proj1 (proj2 delete_at_trailing_newline)
             (Doc (lit "ab")) 0 1 (lit "bcd") 1
             eq_refl eq_refl ltac:(discriminate)).
Defined.

(** C2. When the range of a delete lies inside the buffer, the call
    raises the delete-mismatch error exactly when the buffer between
    start and end differs from the expected text, and raises nothing
    else; when they agree, that part of the buffer is removed. The same
    holds, for the text without its last newline, when the
    trailing-newline exception applies. *)
Theorem delete_at_mismatch_iff d row col text pos :
  _get_pos d row col = Ok pos →
  0 ≤ pos →
  pos + Py.len text ≤ Py.len (_text d) →
  let saw := Py.slice (_text d) pos (pos + Py.len text) in
  (delete_at d row col text = Raise (DeleteMismatch text saw) ↔ saw ≠ text)
  ∧ (∀ e, delete_at d row col text = Raise e → e = DeleteMismatch text saw)
  ∧ (saw = text →
     ∃ pre post, _text d = pre ++ text ++ post ∧ Py.len pre = pos
                 ∧ delete_at d row col text = Ok (Doc (pre ++ post)))
  ∧ (pos + Py.len text = Py.len (_text d) →
     delete_at d row col (text ++ [NL]) = delete_at d row col text).
Proof.
  intros Hpos H0 Hend saw.
  pose proof (delete_at_in_range d row col text pos Hpos Hend) as Heq.
  cbn zeta in Heq. fold saw in Heq.
  pose proof (len_nonneg text) as Hlt.
  destruct (slice_split (_text d) pos (pos + Py.len text)) as (Hs & Hl & _);
    [lia..|].
  fold saw in Hs.
  repeat split.
  - intros H Hsaw. rewrite Heq in H.
    rewrite bool_decide_eq_false_2 in H by (intros Hn; exact (Hn Hsaw)).
    discriminate.
  - intros Hne. rewrite Heq. rewrite bool_decide_eq_true_2 by exact Hne.
    reflexivity.
  - intros e He. rewrite Heq in He. destruct (bool_decide (saw ≠ text)).
    + congruence.
    + discriminate.
  - intros Hsaw.
    exists (Py.slice_to (_text d) pos),
           (Py.slice_from (_text d) (pos + Py.len text)).
    split; [|split].
    + rewrite <- Hsaw at 1. exact Hs.
    + exact Hl.
    + rewrite Heq. rewrite bool_decide_eq_false_2; [reflexivity|].
      intros Hn. exact (Hn Hsaw).
  - intros Hlen. apply (delete_at_drop_newline d row col text pos); auto.
Qed.

Lemma delete_at_mismatch_iff_witness :
  delete_at (Doc (lit "abc")) 0 1 (lit "x")
  = Raise (DeleteMismatch (lit "x") (lit "b")).
Proof.
  apply (proj1 (delete_at_mismatch_iff (Doc (lit "abc")) 0 1 (lit "x") 1
                  eq_refl ltac:(lia) ltac:(vm_compute; discriminate))).
  vm_compute. discriminate.
Defined.

End delete_at_facts.

(** ** TextDocument: positions *)

Section get_pos_facts.
Import TextDocument.
Implicit Types (d : t) (s pre mid rest : str).

Lemma count_app c s1 s2 : Py.count c (s1 ++ s2) = Py.count c s1 + Py.count c s2.
Proof. induction s1 as [|x s1 IH]; cbn; [lia|]. rewrite IH. lia. Qed.

Lemma count_cons_same c s : Py.count c (c :: s) = 1 + Py.count c s.
Proof. cbn. rewrite decide_True by reflexivity. reflexivity. Qed.

Lemma count_nonneg c s : 0 ≤ Py.count c s.
Proof. induction s as [|x s IH]; cbn; [lia|]. destruct (decide (x = c)); lia. Qed.

Lemma count_zero c s : Py.count c s = 0 ↔ c ∉ s.
Proof.
  induction s as [|x s IH]; cbn.
  - split; [intros _; apply not_elem_of_nil | done].
  - pose proof (count_nonneg c s). rewrite not_elem_of_cons.
    destruct (decide (x = c)) as [->|Hne].
    + split; [lia | intros [? _]; done].
    + rewrite Z.add_0_l, IH. split; [intros; split; [congruence|done] | tauto].
Qed.

Lemma find_from_absent c s i : c ∉ s → Py.find_from c s i = -1.
Proof.
  revert i. induction s as [|x s IH]; intros i Hc; cbn; [reflexivity|].
  apply not_elem_of_cons in Hc as [Hx Hs].
  destruct (decide (x = c)); [congruence|]. apply IH, Hs.
Qed.

Lemma find_from_first c s1 s2 i :
  c ∉ s1 → Py.find_from c (s1 ++ c :: s2) i = i + Py.len s1.
Proof.
  revert i. induction s1 as [|x s1 IH]; intros i Hc; cbn.
  - destruct (decide (c = c)); [|done]. unfold Py.len. cbn. lia.
  - apply not_elem_of_cons in Hc as [Hx Hs].
    destruct (decide (x = c)); [congruence|].
    rewrite IH by exact Hs. rewrite len_cons. lia.
Qed.

Lemma find_app c pre s : Py.find c (pre ++ s) (Py.len pre) = Py.find_from c s (Py.len pre).
Proof.
  unfold Py.find. rewrite clamp_id.
  - unfold Py.len at 1. rewrite Nat2Z.id, drop_app_length. reflexivity.
  - rewrite len_app. pose proof (len_nonneg pre). pose proof (len_nonneg s). lia.
Qed.

(** A string that is empty or ends with a newline, and has no newline, is
    empty. *)
Lemma no_newline_empty mid :
  Py.count NL mid = 0 → mid = [] ∨ Py.endswith mid NL = true → mid = [].
Proof.
  intros Hc [->|He]; [reflexivity|].
  apply endswith_inv in He as [m ->].
  rewrite count_app, count_cons_same in Hc. cbn in Hc.
  pose proof (count_nonneg NL m). lia.
Qed.

(** Skipping [n] rows from the start of [mid] when [mid] consists of
    exactly [n] newline-terminated lines. *)
Lemma skip_rows_lines row n : ∀ pre mid rest,
  Py.count NL mid = Z.of_nat n →
  mid = [] ∨ Py.endswith mid NL = true →
  skip_rows (pre ++ mid ++ rest) row n (Py.len pre) = Ok (Py.len pre + Py.len mid).
Proof.
  induction n as [|n IH]; intros pre mid rest Hc He.
  - rewrite (no_newline_empty mid) by (auto; lia).
    cbn [skip_rows]. rewrite len_nil. f_equal. lia.
  - assert (Hin : NL ∈ mid).
    { destruct (decide (NL ∈ mid)) as [|Hn]; [done|].
      apply count_zero in Hn. lia. }
    apply list_elem_of_split_l in Hin as (l1 & mid' & -> & Hl1).
    rewrite count_app, count_cons_same in Hc.
    assert (Hl0 : Py.count NL l1 = 0) by (apply count_zero; exact Hl1).
    cbn [skip_rows]. rewrite <- !app_assoc. rewrite find_app.
    cbn [app]. rewrite find_from_first by exact Hl1.
    pose proof (len_nonneg pre). pose proof (len_nonneg l1).
    destruct (Z.ltb_spec (Py.len pre + Py.len l1) 0); [lia|].
    specialize (IH (pre ++ l1 ++ [NL]) mid' rest).
    rewrite <- !app_assoc in IH. cbn [app] in IH.
    rewrite !len_app in IH. rewrite !len_app, len_cons.
    replace (Py.len [NL]) with 1 in IH by reflexivity.
    replace (Py.len pre + (Py.len l1 + 1)) with (Py.len pre + Py.len l1 + 1)
      in IH by lia.
    rewrite IH.
    + f_equal. lia.
    + lia.
    + destruct He as [He|He]; [destruct l1; discriminate|].
      destruct mid' as [|y m'] using rev_ind; [left; reflexivity|right].
      apply endswith_inv in He as [m He].
      change (l1 ++ NL :: m' ++ [y]) with (l1 ++ (NL :: m') ++ [y]) in He.
      rewrite app_assoc in He. apply app_inj_tail in He as [_ ->].
      apply endswith_snoc.
Qed.

(** C9. Position resolution does not look at the length of the addressed
    line: when row [row] starts at offset [len pre] (the part [pre] of the
    buffer before it holds exactly [row] newline-terminated lines),
    (row, col) resolves to that offset plus [col] whenever the sum does
    not exceed the length of the buffer, whatever [col] is. So a column
    past the end of its line lands in a later line: in "ab\ncd", (0,4)
    is offset 4, inside the second line, and inserts and deletes there
    act on that line. *)
Theorem get_pos_ignores_line_length :
  (∀ d row col pre rest,
      _text d = pre ++ rest →
      Py.count NL pre = row →
      pre = [] ∨ Py.endswith pre NL = true →
      _get_pos d row col =
        (if Py.len pre + col >? Py.len (_text d)
         then Raise (PositionOutOfBounds row col (Py.len pre + col)
                       (Py.len (_text d)))
         else Ok (Py.len pre + col)))
  ∧ (let d := Doc (lit "ab" ++ NL :: lit "cd") in
     _get_pos d 0 4 = Ok 4
     ∧ insert_at d 0 4 (lit "X") = Ok (Doc (lit "ab" ++ NL :: lit "cXd"))
     ∧ delete_at d 0 4 (lit "d") = Ok (Doc (lit "ab" ++ NL :: lit "c"))).
Proof.
  split; [|repeat split].
  intros d row col pre rest Htext Hcount Hend.
  unfold _get_pos. rewrite Htext.
  pose proof (skip_rows_lines row (Z.to_nat row) [] pre rest) as Hskip.
  cbn [app] in Hskip. rewrite len_nil, Z.add_0_l in Hskip.
  rewrite Hskip; [reflexivity| |exact Hend].
  pose proof (count_nonneg NL pre). lia.
Qed.

Lemma get_pos_ignores_line_length_witness :
  TextDocument._get_pos (Doc (lit "a" ++ NL :: lit "bc" ++ NL :: lit "d")) 1 3
  = Ok 5.
Proof.
  exact (proj1 get_pos_ignores_line_length
           (Doc (lit "a" ++ NL :: lit "bc" ++ NL :: lit "d")) 1 3
           (lit "a" ++ [NL]) (lit "bc" ++ NL :: lit "d")
           eq_refl eq_refl (or_intror eq_refl)).
Defined.

End get_pos_facts.

(** ** TextDocument: counting lines *)

Section num_lines_facts.
Import TextDocument.

(** C3, at the empty buffer. A new document has no line: [_line_chunks]
    yields nothing for it and [get_line] finds no line 0. Yet
    [get_num_lines] answers 1, because the empty text does not end with a
    newline and so is counted as text after the final newline. *)
Theorem get_num_lines_empty :
  get_num_lines init = 1
  ∧ _line_chunks (_text init) = []
  ∧ get_line init 0 = Raise (NoSuchLine 0).
Proof. repeat split. Qed.

End num_lines_facts.

Section num_lines_nonempty.
Import TextDocument.

Lemma count_terminated lines :
  Forall (λ line, NL ∉ line) lines →
  Py.count NL (concat (map (λ line, line ++ [NL]) lines))
  = Z.of_nat (length lines).
Proof.
  induction 1 as [|line lines Hline _ IH]; [reflexivity|].
  cbn [map concat length]. rewrite !count_app, count_cons_same, IH.
  apply count_zero in Hline. rewrite Hline. cbn [Py.count]. lia.
Qed.

Lemma endswith_terminated lines :
  lines ≠ [] →
  Py.endswith (concat (map (λ line, line ++ [NL]) lines)) NL = true.
Proof.
  induction lines as [|line lines IH]; [done|]. intros _.
  cbn [map concat]. destruct lines as [|line' lines].
  - cbn [map concat]. rewrite app_nil_r. apply endswith_snoc.
  - specialize (IH ltac:(done)). unfold Py.endswith in *.
    rewrite last_app.
    destruct (last (concat (map (λ line, line ++ [NL]) (line' :: lines))));
      [exact IH|discriminate].
Qed.

Lemma endswith_tail text tail :
  tail ≠ [] → NL ∉ tail → Py.endswith (text ++ tail) NL = false.
Proof.
  intros Hne Hnl. unfold Py.endswith. rewrite last_app.
  destruct (last tail) as [x|] eqn:Hlast.
  - apply bool_decide_eq_false_2. intros ->.
    apply Hnl. apply last_Some in Hlast as [tail' ->].
    apply elem_of_app. right. apply list_elem_of_here.
  - apply last_None in Hlast. done.
Qed.

(** Away from the empty buffer [get_num_lines] counts as C3 says: the
    lines that a newline ends, and one more for text after the last
    newline. *)
Lemma get_num_lines_nonempty lines tail :
  Forall (λ line, NL ∉ line) lines →
  NL ∉ tail →
  lines ≠ [] ∨ tail ≠ [] →
  get_num_lines (Doc (concat (map (λ line, line ++ [NL]) lines) ++ tail))
  = Z.of_nat (length lines) + (if decide (tail = []) then 0 else 1).
Proof.
  intros Hlines Htail Hne. unfold get_num_lines. cbn [_text].
  rewrite count_app, (count_terminated _ Hlines).
  apply count_zero in Htail as Hcount. rewrite Hcount.
  destruct (decide (tail = [])) as [->|Htl].
  - destruct Hne as [Hne|Hne]; [|done].
    rewrite app_nil_r, (endswith_terminated _ Hne). cbn. lia.
  - rewrite (endswith_tail _ _ Htl Htail). cbn. lia.
Qed.

End num_lines_nonempty.

(** ** Tag handlers *)

Section tag_handler_facts.
Context {S : Type}.
Implicit Types (th : TagHandler.t S) (cb : callback S).
Import TagHandler.

Lemma constructed_unknown th : constructed th → is_Some (_handlers th !! unknown).
Proof.
  induction 1 as [callbacks | th tagname cb _ IH]; cbn.
  - destruct (callbacks !! unknown) as [c|] eqn:Hc.
    + exists c. apply lookup_union_Some_l, Hc.
    + exists ignore. rewrite lookup_union_r by exact Hc.
      apply lookup_insert_eq.
  - destruct (decide (tagname = unknown)) as [->|Hne].
    + rewrite lookup_insert_eq. eauto.
    + rewrite lookup_insert_ne by exact Hne. exact IH.
Qed.

Lemma constructed_register_callbacks th tagnames cb :
  constructed th → constructed (register_callbacks th tagnames cb).
Proof.
  unfold register_callbacks. revert th.
  induction tagnames as [|tagname tagnames IH]; intros th Hth; cbn.
  - exact Hth.
  - apply IH. constructor. exact Hth.
Qed.

Lemma get_callback_registered th tagname cb :
  _handlers th !! tagname = Some cb → get_callback th tagname = Ok cb.
Proof. intros H. unfold get_callback. rewrite H. reflexivity. Qed.

Lemma get_callback_fallback th tagname cb :
  _handlers th !! tagname = None →
  _handlers th !! unknown = Some cb →
  get_callback th tagname = Ok cb.
Proof. intros H Hu. unfold get_callback. rewrite H, Hu. reflexivity. Qed.

Lemma fields_missing_obj fields :
  fields_missing (JObj fields) =
    match fields !! lit "tag", fields !! lit "value" with
    | Some tag, Some _ => Ok (negb (is_str tag))
    | _, _ => Ok true
    end.
Proof.
  unfold fields_missing, contains, getitem.
  destruct (fields !! lit "tag") as [tag|]; [|reflexivity].
  destruct (fields !! lit "value") as [value|]; reflexivity.
Qed.

Lemma scan_line_record line_no obj call th s :
  is_record obj call →
  scan_line line_no obj th s =
    match get_callback th call.1 with
    | Ok tv_callback => tv_callback call.1 call.2 s
    | Raise e => (s, Some e)
    end.
Proof.
  intros (fields & -> & Htag & Hvalue). unfold scan_line.
  rewrite fields_missing_obj. unfold getitem.
  rewrite Htag, Hvalue. reflexivity.
Qed.

Lemma scan_line_malformed line_no obj th s :
  malformed obj →
  scan_line line_no obj th s = (s, Some (Progsnap (InvalidData line_no))).
Proof.
  intros (fields & -> & H). unfold scan_line.
  rewrite fields_missing_obj.
  destruct (fields !! lit "tag") as [tag|] eqn:Htag; [|reflexivity].
  destruct (fields !! lit "value") as [value|] eqn:Hvalue; [|reflexivity].
  destruct H as [H|[H|(v & Hv & Hs)]]; [discriminate..|].
  injection Hv as ->. rewrite Hs. reflexivity.
Qed.

Lemma scan_from_records th tail : ∀ good calls line_no s,
  Forall2 is_record good calls →
  scan_from line_no (good ++ tail) th s =
    match dispatch_all th calls s with
    | (s', None) => scan_from (line_no + Z.of_nat (length good)) tail th s'
    | (s', Some e) => (s', Some e)
    end.
Proof.
  induction good as [|obj good IH]; intros calls line_no s Hgood.
  - apply Forall2_nil_inv_l in Hgood as ->. cbn.
    rewrite Z.add_0_r. reflexivity.
  - apply Forall2_cons_inv_l in Hgood as ([tag value] & calls' & Hobj & Hgood & ->).
    cbn [app scan_from dispatch_all].
    rewrite (scan_line_record _ _ _ _ _ Hobj). cbn [fst snd].
    destruct (get_callback th tag) as [cb|e]; [|reflexivity].
    destruct (cb tag value s) as [s' [e|]]; [reflexivity|].
    rewrite (IH _ _ _ Hgood).
    replace (line_no + 1 + Z.of_nat (length good))
      with (line_no + Z.of_nat (length (obj :: good))) by (cbn [length]; lia).
    reflexivity.
Qed.

Lemma is_record_record tag value : is_record (record tag value) (tag, value).
Proof.
  exists (<[lit "tag" := JStr tag]> (<[lit "value" := value]> ∅)).
  split; [reflexivity|]. split.
  - apply lookup_insert_eq.
  - rewrite lookup_insert_ne by discriminate. apply lookup_insert_eq.
Qed.

Lemma scan_single obj call th s :
  is_record obj call →
  _scan [obj] th s =
    match get_callback th call.1 with
    | Ok tv_callback => tv_callback call.1 call.2 s
    | Raise e => (s, Some e)
    end.
Proof.
  intros Hobj. unfold _scan. cbn [scan_from].
  rewrite (scan_line_record _ _ _ _ _ Hobj).
  destruct (get_callback th call.1) as [cb|e]; [|reflexivity].
  destruct (cb call.1 call.2 s) as [s' [e|]]; reflexivity.
Qed.

End tag_handler_facts.

(** ** The scanner *)

(** The scan at lines that are objects. Let the lines of a stream begin
    with the lines [good], each an
    object with a string under 'tag' and a value under 'value', [calls]
    being their (tag, value) pairs in order. Scanning [good] makes exactly
    the handler invocations [calls], one per line, in file order. If the
    next line [bad] lacks 'tag' or 'value', or its 'tag' is not a string,
    then scanning the stream makes these same invocations and no other and
    raises "Invalid data at line n" with n the 1-based number of [bad],
    whatever the lines [rest] after it are. (A handler that raises ends the
    scan on its line, as any exception does.) *)
Lemma scan_stops_at_first_malformed {S : Type} (th : TagHandler.t S)
    (good : list JValue) (calls : list (str * JValue)) (bad : JValue)
    (rest : list JValue) (s : S) :
  Forall2 is_record good calls →
  malformed bad →
  length calls = length good
  ∧ _scan good th s = dispatch_all th calls s
  ∧ _scan (good ++ bad :: rest) th s =
      match dispatch_all th calls s with
      | (s', None) =>
          (s', Some (Progsnap (InvalidData (Z.of_nat (length good) + 1))))
      | (s', Some e) => (s', Some e)
      end.
Proof.
  intros Hgood Hbad. split; [|split].
  - symmetry. exact (Forall2_length _ _ _ Hgood).
  - unfold _scan. rewrite <- (app_nil_r good) at 1.
    rewrite (scan_from_records th [] good calls 0 s Hgood).
    destruct (dispatch_all th calls s) as [s' [e|]]; reflexivity.
  - unfold _scan.
    rewrite (scan_from_records th (bad :: rest) good calls 0 s Hgood).
    destruct (dispatch_all th calls s) as [s' [e|]]; [reflexivity|].
    cbn [scan_from]. rewrite (scan_line_malformed _ _ _ _ Hbad).
    reflexivity.
Qed.

Lemma scan_stops_at_first_malformed_example :
  let th := TagHandler.init (<[lit "a" := log_call]> ∅) in
  let good := [record (lit "a") (JNum 1); record (lit "b") JNull] in
  let bad := JObj (<[lit "tag" := JNum 3]> (<[lit "value" := JNull]> ∅)) in
  _scan (good ++ bad :: [record (lit "a") (JNum 4)]) th []
  = ([(lit "a", JNum 1)], Some (Progsnap (InvalidData 3))).
Proof.
  intros th good bad.
  pose proof (scan_stops_at_first_malformed th good
                [(lit "a", JNum 1); (lit "b", JNull)] bad
                [record (lit "a") (JNum 4)] []) as H.
  destruct H as (_ & _ & H).
  - repeat constructor; apply is_record_record.
  - exists (<[lit "tag" := JNum 3]> (<[lit "value" := JNull]> ∅)).
    split; [reflexivity|]. right. right. exists (JNum 3).
    split; reflexivity.
  - rewrite H. reflexivity.
Qed.

(** C6, at a line that is not an object. The check of the fields asks
    ['tag' not in obj] of whatever the line parses to. For a number, a
    boolean or null, which have no field at all, [in] is not defined: the
    scan ends with a TypeError, which is no [ProgsnapError] and carries no
    line number, where the fields being missing should make it end with
    "Invalid data at line 1". A string that merely contains the two words
    passes the first two tests and then fails in the same way at
    [obj['tag']]. No handler is invoked and no later line is read. *)
Theorem scan_line_without_fields_type_error {S : Type}
    (th : TagHandler.t S) (rest : list JValue) (s : S) :
  (∀ n, _scan (JNum n :: rest) th s = (s, Some TypeError))
  ∧ (∀ b, _scan (JBool b :: rest) th s = (s, Some TypeError))
  ∧ _scan (JNull :: rest) th s = (s, Some TypeError)
  ∧ _scan (JStr (lit "tagvalue") :: rest) th s = (s, Some TypeError)
  ∧ (∀ e : ProgsnapError, TypeError ≠ Progsnap e).
Proof.
  split_and!; try reflexivity. discriminate.
Qed.

(** C10. In every handler table, made by [__init__] and any registrations
    after it, the key 'unknown' holds a callback, the fallback. A record
    whose tag is the string "unknown" is dispatched to it, as is a record
    with any tag that has no callback of its own; and registering a callback
    under 'unknown' makes that callback the one a record tagged "unknown"
    and every record with an unrecognized tag is dispatched to. *)
Theorem unknown_is_reserved {S : Type} (th : TagHandler.t S) :
  constructed th →
  ∃ fallback,
    TagHandler._handlers th !! TagHandler.unknown = Some fallback
    ∧ (∀ value s,
         _scan [record TagHandler.unknown value] th s
         = fallback TagHandler.unknown value s)
    ∧ (∀ tag value s,
         TagHandler._handlers th !! tag = None →
         _scan [record tag value] th s = fallback tag value s)
    ∧ (∀ cb,
         let th' := TagHandler.register_callback th TagHandler.unknown cb in
         (∀ value s,
            _scan [record TagHandler.unknown value] th' s
            = cb TagHandler.unknown value s)
         ∧ (∀ tag value s,
              TagHandler._handlers th !! tag = None →
              _scan [record tag value] th' s = cb tag value s)).
Proof.
  intros Hth. destruct (constructed_unknown th Hth) as [fallback Hu].
  exists fallback. split; [exact Hu|]. split; [|split].
  - intros value s.
    rewrite (scan_single _ _ th s (is_record_record _ value)). cbn [fst snd].
    rewrite (get_callback_registered _ _ _ Hu). reflexivity.
  - intros tag value s Htag.
    rewrite (scan_single _ _ th s (is_record_record tag value)). cbn [fst snd].
    rewrite (get_callback_fallback _ _ _ Htag Hu). reflexivity.
  - intros cb th'.
    assert (Hu' : TagHandler._handlers th' !! TagHandler.unknown = Some cb)
      by apply lookup_insert_eq.
    split.
    + intros value s.
      rewrite (scan_single _ _ th' s (is_record_record _ value)). cbn [fst snd].
      rewrite (get_callback_registered _ _ _ Hu'). reflexivity.
    + intros tag value s Htag.
      rewrite (scan_single _ _ th' s (is_record_record tag value)). cbn [fst snd].
      rewrite (get_callback_fallback th' tag cb); [reflexivity| |exact Hu'].
      subst th'. unfold TagHandler.register_callback.
      cbn [TagHandler._handlers]. rewrite lookup_insert_ne; [exact Htag|].
      intros Heq. rewrite <- Heq, Hu in Htag. discriminate.
Qed.

Lemma unknown_is_reserved_witness :
  let th0 : TagHandler.t (list (str * JValue)) :=
    TagHandler.init (<[lit "a" := TagHandler.ignore]> ∅) in
  let th := TagHandler.register_callback th0 TagHandler.unknown log_call in
  _scan [record TagHandler.unknown JNull] th [] = ([(TagHandler.unknown, JNull)], None)
  ∧ _scan [record (lit "b") JNull] th [] = ([(lit "b", JNull)], None).
Proof.
  intros th0 th.
  destruct (unknown_is_reserved th0) as (fallback & _ & _ & _ & H).
  - constructor.
  - destruct (H log_call) as [H1 H2]. split.
    + exact (H1 JNull []).
    + apply (H2 (lit "b") JNull []). reflexivity.
Defined.

(** ** Work histories *)

Section work_history_facts.
Import WorkHistory.

Lemma is_edit_with_snapid_spec snapid evt :
  is_edit_with_snapid snapid evt = true ↔ edit_with_snapid snapid evt.
Proof.
  unfold is_edit_with_snapid, edit_with_snapid.
  rewrite andb_true_iff, bool_decide_eq_true. split.
  - intros [Ht Hs]. split; [exact Ht|].
    destruct (snapids evt) as [ids|]; [|discriminate].
    exists ids. split; [reflexivity|]. apply bool_decide_eq_true in Hs. exact Hs.
  - intros [Ht (ids & -> & Hin)]. split; [exact Ht|].
    apply bool_decide_eq_true. exact Hin.
Qed.

Lemma filter_none snapid (l : list Event) :
  Forall (λ evt, ¬ edit_with_snapid snapid evt) l →
  List.filter (is_edit_with_snapid snapid) l = [].
Proof.
  induction 1 as [|evt l Hevt _ IH]; [reflexivity|]. cbn [List.filter].
  destruct (is_edit_with_snapid snapid evt) eqn:E; [|exact IH].
  exfalso. apply Hevt, is_edit_with_snapid_spec, E.
Qed.

Lemma filter_at snapid (l1 l2 : list Event) evt :
  edit_with_snapid snapid evt →
  List.filter (is_edit_with_snapid snapid) (l1 ++ evt :: l2)
  = List.filter (is_edit_with_snapid snapid) l1
    ++ evt :: List.filter (is_edit_with_snapid snapid) l2.
Proof.
  intros Hevt. rewrite List.filter_app. cbn [List.filter].
  apply is_edit_with_snapid_spec in Hevt. rewrite Hevt. reflexivity.
Qed.

(** C7. On the events of a work history, the lookup of the Edit event of a
    snapshot returns None when no event is an Edit whose snapids hold the
    id; returns the event when one event, at one place of the list, is
    such an Edit and no other is; and raises "There are multiple edit
    events for snapshot ..." when the events at two places of the list are
    such Edits. *)
Theorem find_single_edit_event_cases (self : t) (snapid : SnapId) :
  let evts := (events self).2 in
  let found := (find_single_edit_event_with_snapid self snapid).2 in
  (Forall (λ evt, ¬ edit_with_snapid snapid evt) evts → found = Ok None)
  ∧ (∀ before evt after,
       evts = before ++ evt :: after →
       edit_with_snapid snapid evt →
       Forall (λ evt, ¬ edit_with_snapid snapid evt) (before ++ after) →
       found = Ok (Some evt))
  ∧ (∀ before evt1 between evt2 after,
       evts = before ++ evt1 :: between ++ evt2 :: after →
       edit_with_snapid snapid evt1 →
       edit_with_snapid snapid evt2 →
       found = Raise (Progsnap (MultipleEditEvents snapid))).
Proof.
  intros evts found.
  assert (Hfound :
    found = match List.filter (is_edit_with_snapid snapid) evts with
            | [] => Ok None
            | [evt] => Ok (Some evt)
            | _ => Raise (Progsnap (MultipleEditEvents snapid))
            end).
  { subst found evts.
    unfold find_single_edit_event_with_snapid, find_edit_events_with_snapid,
      events. cbn [snd].
    destruct (List.filter _ _) as [|e1 [|e2 l]]; reflexivity. }
  rewrite Hfound. clearbody evts found. split; [|split].
  - intros Hnone. rewrite (filter_none _ _ Hnone). reflexivity.
  - intros before evt after -> Hevt Hnone.
    apply Forall_app in Hnone as [Hb Ha].
    rewrite (filter_at _ _ _ _ Hevt), (filter_none _ _ Hb),
      (filter_none _ _ Ha). reflexivity.
  - intros before evt1 between evt2 after -> H1 H2.
    rewrite (filter_at _ _ _ _ H1), (filter_at _ _ _ _ H2).
    destruct (List.filter _ before) as [|e1 [|e2 l]]; cbn;
      try reflexivity;
      destruct (List.filter _ between) as [|e3 l3]; reflexivity.
Qed.

End work_history_facts.

Lemma find_single_edit_event_cases_witness :
  let s1 := SnapStr (lit "s1") in
  let edit ids t := {| evt_type := Edit; editid := None; ts := t;
                       snapids := Some ids |} in
  let other := {| evt_type := Submission; editid := None; ts := 5;
                  snapids := Some [s1] |} in
  (WorkHistory.find_single_edit_event_with_snapid
     (WorkHistory.init [other; edit [SnapInt 2] 1] false) s1).2 = Ok None
  ∧ (WorkHistory.find_single_edit_event_with_snapid
       (WorkHistory.init [other; edit [s1] 1; edit [SnapInt 2] 2] false) s1).2
    = Ok (Some (edit [s1] 1))
  ∧ (WorkHistory.find_single_edit_event_with_snapid
       (WorkHistory.init [edit [s1] 1; other; edit [SnapInt 2; s1] 2] false) s1).2
    = Raise (Progsnap (MultipleEditEvents s1)).
Proof.
  intros s1 edit other.
  assert (Hother : ¬ edit_with_snapid s1 other)
    by (intros [H _]; discriminate).
  assert (H2 : ¬ edit_with_snapid s1 (edit [SnapInt 2] 1)).
  { intros [_ (ids & [= <-] & Hin)]. apply list_elem_of_singleton in Hin.
    discriminate. }
  assert (H2' : ¬ edit_with_snapid s1 (edit [SnapInt 2] 2)).
  { intros [_ (ids & [= <-] & Hin)]. apply list_elem_of_singleton in Hin.
    discriminate. }
  assert (H1 : ∀ t, edit_with_snapid s1 (edit [s1] t)).
  { intros t. split; [reflexivity|]. exists [s1]. split; [reflexivity|].
    apply list_elem_of_here. }
  assert (H12 : edit_with_snapid s1 (edit [SnapInt 2; s1] 2)).
  { split; [reflexivity|]. exists [SnapInt 2; s1]. split; [reflexivity|].
    apply list_elem_of_further, list_elem_of_here. }
  split; [|split].
  - apply (find_single_edit_event_cases
             (WorkHistory.init [other; edit [SnapInt 2] 1] false) s1).
    cbn. repeat constructor; assumption.
  - apply (proj1 (proj2 (find_single_edit_event_cases
             (WorkHistory.init [other; edit [s1] 1; edit [SnapInt 2] 2] false) s1))
             [other] (edit [s1] 1) [edit [SnapInt 2] 2]).
    + reflexivity.
    + apply H1.
    + cbn. repeat constructor; assumption.
  - apply (proj2 (proj2 (find_single_edit_event_cases
             (WorkHistory.init [edit [s1] 1; other; edit [SnapInt 2; s1] 2] false) s1))
             [] (edit [s1] 1) [other] (edit [SnapInt 2; s1] 2) []).
    + reflexivity.
    + apply H1.
    + apply H12.
Defined.

(** ** Sorting *)

Section sort_facts.
Context {A : Type} (lt : A → A → bool).
Implicit Types (l done todo : list A).
Import PySort.

Lemma nondescending_nil : nondescending lt [].
Proof. intros i x y Hx. discriminate. Qed.

Lemma nondescending_cons_iff x l :
  nondescending lt (x :: l)
  ↔ (∀ y, head l = Some y → lt y x = false) ∧ nondescending lt l.
Proof.
  split.
  - intros H. split.
    + intros y Hy. rewrite head_lookup in Hy. exact (H 0%nat x y eq_refl Hy).
    + intros i a b Ha Hb. exact (H (S i) a b Ha Hb).
  - intros [Hhd Htl] [|i] a b Ha Hb; cbn in Ha, Hb.
    + injection Ha as <-. apply Hhd. rewrite head_lookup. exact Hb.
    + exact (Htl i a b Ha Hb).
Qed.

Lemma nondescending_singleton x : nondescending lt [x].
Proof.
  apply nondescending_cons_iff. split; [intros y; discriminate|].
  apply nondescending_nil.
Qed.

Lemma nondescending_app_iff l1 l2 :
  nondescending lt (l1 ++ l2)
  ↔ nondescending lt l1 ∧ nondescending lt l2
    ∧ (∀ x y, last l1 = Some x → head l2 = Some y → lt y x = false).
Proof.
  induction l1 as [|a l1 IH]; cbn [app].
  - split; [intros H|intros (_ & H & _); exact H].
    split; [apply nondescending_nil|]. split; [exact H|]. discriminate.
  - rewrite !nondescending_cons_iff, IH. destruct l1 as [|b l1].
    + pose proof nondescending_nil as Hnil. cbn. split.
      * intros (Hhd & _ & H2 & _). split_and!; try done.
        intros x y [= <-]. apply Hhd.
      * intros ((_ & _) & H2 & Hb). split_and!; try done.
        intros y Hy. exact (Hb a y eq_refl Hy).
    + change (last (a :: b :: l1)) with (last (b :: l1)). cbn [app head].
      tauto.
Qed.

Hypothesis lt_asym : ∀ x y, lt x y = true → lt y x = false.

Lemma bisect_spec pivot (a : list A) : ∀ fuel lo hi,
  (hi - lo ≤ fuel)%nat →
  (lo ≤ hi ≤ length a)%nat →
  (∀ x, (0 < lo)%nat → a !! pred lo = Some x → lt pivot x = false) →
  (∀ y, a !! hi = Some y → lt pivot y = true) →
  let k := bisect lt fuel pivot a lo hi in
  (k ≤ length a)%nat
  ∧ (∀ x, (0 < k)%nat → a !! pred k = Some x → lt pivot x = false)
  ∧ (∀ y, a !! k = Some y → lt pivot y = true).
Proof.
  induction fuel as [|fuel IH]; intros lo hi Hfuel Hlr Hleft Hright;
    cbn [bisect].
  - assert (hi = lo) as -> by lia. split; [lia|]. split; assumption.
  - destruct (Nat.ltb_spec lo hi) as [Hlt|Hge].
    + pose proof (Nat.div_lt (hi - lo) 2 ltac:(lia) ltac:(lia)) as Hdiv.
      set (p := (lo + (hi - lo) / 2)%nat) in *.
      assert (Hp : (lo ≤ p < hi)%nat) by (subst p; lia).
      destruct (a !! p) as [x|] eqn:Hx.
      * destruct (lt pivot x) eqn:Hcmp.
        -- apply IH; [lia|lia|exact Hleft|].
           intros y Hy. congruence.
        -- apply IH; [lia|lia| |exact Hright].
           intros y _ Hy. cbn in Hy. congruence.
      * apply lookup_ge_None in Hx. lia.
    + assert (hi = lo) as -> by lia. split; [lia|]. split; assumption.
Qed.

Lemma insert_nondescending pivot done :
  nondescending lt done →
  let k := bisect lt (length done) pivot done 0 (length done) in
  nondescending lt (take k done ++ pivot :: drop k done).
Proof.
  intros Hdone k.
  destruct (bisect_spec pivot done (length done) 0 (length done))
    as (Hk & Hleft & Hright); [lia|lia|intros x ?; lia| |].
  { intros y Hy. apply lookup_lt_Some in Hy. lia. }
  fold k in Hk, Hleft, Hright.
  rewrite <- (take_drop k done) in Hdone.
  apply nondescending_app_iff in Hdone as (Htake & Hdrop & _).
  apply nondescending_app_iff. split; [exact Htake|]. split.
  - apply nondescending_cons_iff. split; [|exact Hdrop].
    intros y Hy. rewrite head_lookup, lookup_drop, Nat.add_0_r in Hy.
    apply lt_asym, Hright, Hy.
  - intros x y Hx [= <-].
    rewrite last_lookup, length_take_le, lookup_take in Hx by exact Hk.
    destruct k as [|k']; [discriminate|]. cbn [pred] in Hx.
    rewrite decide_True in Hx by lia.
    apply Hleft; [lia|exact Hx].
Qed.

Lemma binarysort_nondescending todo : ∀ done,
  nondescending lt done → nondescending lt (binarysort lt done todo).
Proof.
  induction todo as [|pivot todo IH]; intros done Hdone; cbn.
  - exact Hdone.
  - apply IH, insert_nondescending, Hdone.
Qed.

Lemma run_asc_nondescending l : ∀ prev,
  nondescending lt (prev :: take (run_asc lt prev l) l).
Proof.
  induction l as [|x l IH]; intros prev; cbn.
  - apply nondescending_singleton.
  - destruct (lt x prev) eqn:Hcmp; cbn.
    + apply nondescending_singleton.
    + apply nondescending_cons_iff. split; [|apply IH].
      intros y [= <-]. exact Hcmp.
Qed.

Lemma run_desc_nondescending l : ∀ prev,
  nondescending lt (reverse (prev :: take (run_desc lt prev l) l)).
Proof.
  induction l as [|x l IH]; intros prev; cbn [run_desc].
  - apply nondescending_singleton.
  - destruct (lt x prev) eqn:Hcmp; cbn [take].
    + rewrite reverse_cons. apply nondescending_app_iff.
      split; [apply IH|]. split; [apply nondescending_singleton|].
      intros a b Ha [= <-]. rewrite last_reverse in Ha.
      injection Ha as <-. apply lt_asym, Hcmp.
    + apply nondescending_singleton.
Qed.

Lemma sort_nondescending l : nondescending lt (sort lt l).
Proof.
  unfold sort. destruct l as [|x [|y l]]; cbn [count_run].
  - apply binarysort_nondescending, nondescending_nil.
  - apply binarysort_nondescending, nondescending_singleton.
  - destruct (lt y x) eqn:Hcmp; apply binarysort_nondescending.
    + change (take (S (S (run_desc lt y l))) (x :: y :: l))
        with (x :: y :: take (run_desc lt y l) l).
      rewrite reverse_cons. apply nondescending_app_iff.
      split; [apply run_desc_nondescending|].
      split; [apply nondescending_singleton|].
      intros a b Ha [= <-]. rewrite last_reverse in Ha.
      injection Ha as <-. apply lt_asym, Hcmp.
    + change (take (S (S (run_asc lt y l))) (x :: y :: l))
        with (x :: y :: take (run_asc lt y l) l).
      apply nondescending_cons_iff. split; [|apply run_asc_nondescending].
      intros b [= <-]. exact Hcmp.
Qed.

End sort_facts.

Section sort_facts_general.
Context {A : Type} (lt : A → A → bool).
Implicit Types (l done todo : list A).
Import PySort.

Lemma binarysort_Permutation todo : ∀ done,
  binarysort lt done todo ≡ₚ done ++ todo.
Proof.
  induction todo as [|pivot todo IH]; intros done; cbn.
  - rewrite app_nil_r. reflexivity.
  - rewrite IH, <- app_assoc. cbn [app].
    set (k := bisect lt _ _ _ _ _).
    rewrite <- (take_drop k done) at 3. rewrite <- app_assoc.
    apply Permutation_app_head. apply Permutation_middle.
Qed.

Lemma sort_Permutation l : sort lt l ≡ₚ l.
Proof.
  unfold sort. destruct (count_run lt l) as [n descending].
  rewrite binarysort_Permutation.
  destruct descending; [rewrite reverse_Permutation|];
    rewrite take_drop; reflexivity.
Qed.

Lemma run_asc_all l : ∀ prev,
  nondescending lt (prev :: l) → run_asc lt prev l = length l.
Proof.
  induction l as [|x l IH]; intros prev H; cbn; [reflexivity|].
  apply nondescending_cons_iff in H as [Hhd Htl].
  rewrite (Hhd x eq_refl), (IH _ Htl). reflexivity.
Qed.

Lemma sort_fixes_nondescending l : nondescending lt l → sort lt l = l.
Proof.
  intros H. unfold sort.
  assert (Hrun : count_run lt l = (length l, false)).
  { destruct l as [|x [|y l]]; [reflexivity..|]. cbn [count_run].
    apply nondescending_cons_iff in H as [Hhd Htl].
    rewrite (Hhd y eq_refl), (run_asc_all _ _ Htl). reflexivity. }
  rewrite Hrun, take_ge, drop_all by lia. reflexivity.
Qed.

Lemma nondescending_StronglySorted (P : A → Prop) l :
  (∀ x y z, P x → P y → P z →
            lt y x = false → lt z y = false → lt z x = false) →
  Forall P l →
  nondescending lt l →
  StronglySorted (λ x y, lt y x = false) l.
Proof.
  intros Htrans HP. induction HP as [|x l Hx HP IH]; intros H.
  - constructor.
  - apply nondescending_cons_iff in H as [Hhd Htl]. specialize (IH Htl).
    constructor; [exact IH|].
    destruct IH as [|y l Hsorted Hy]; [constructor|].
    pose proof (Hhd y eq_refl) as Hxy.
    apply Forall_cons_1 in HP as [HPy HP].
    constructor; [exact Hxy|].
    rewrite Forall_forall in Hy, HP. apply Forall_forall.
    intros z Hz. apply (Htrans x y z); auto.
Qed.

End sort_facts_general.

(** ** [list.sort] on lists of every length *)

Section gallop_facts.
Context {A : Type} (before : A → bool) (a : list A).
Import ListObject.
#[local] Open Scope nat_scope.

Lemma gallop_loop_spec (continue : nat → bool) (maxofs : nat) :
  ∀ fuel lastofs ofs,
    lastofs < ofs → lastofs < maxofs → maxofs ≤ ofs + fuel →
    (lastofs = 0 ∨ continue lastofs = true) →
    let r := gallop_loop fuel continue maxofs lastofs ofs in
    r.1 < r.2 ∧ r.1 < maxofs
    ∧ (r.1 = 0 ∨ continue r.1 = true)
    ∧ (maxofs ≤ r.2 ∨ continue r.2 = false).
Proof.
  induction fuel as [|fuel IH]; intros lastofs ofs Hlt Hmax Hfuel Hlast;
    cbn [gallop_loop].
  - cbn. split_and!; [lia|lia|exact Hlast|left; lia].
  - destruct (Nat.ltb_spec ofs maxofs) as [Hofs|Hofs]; cbn [andb].
    + destruct (continue ofs) eqn:Hc.
      * apply IH; [lia|lia|lia|right; exact Hc].
      * cbn. split_and!; [lia|lia|exact Hlast|right; exact Hc].
    + cbn. split_and!; [lia|lia|exact Hlast|left; lia].
Qed.

Lemma gallop_search_spec (before_at : nat → bool) :
  ∀ fuel lastofs ofs,
    ofs - lastofs ≤ fuel → lastofs ≤ ofs →
    (lastofs = 0 ∨ before_at (lastofs - 1) = true) →
    before_at ofs = false →
    let k := gallop_search fuel before_at lastofs ofs in
    k ≤ ofs ∧ (k = 0 ∨ before_at (k - 1) = true) ∧ before_at k = false.
Proof.
  induction fuel as [|fuel IH]; intros lastofs ofs Hfuel Hle Hlast Hofs;
    cbn [gallop_search].
  - assert (lastofs = ofs) as -> by lia. cbn. split_and!; [lia|exact Hlast|exact Hofs].
  - destruct (Nat.ltb_spec lastofs ofs) as [Hlt|Hge].
    + pose proof (Nat.Div0.div_le_upper_bound (ofs - lastofs) 2 (ofs - lastofs)
                    ltac:(lia)) as Hdiv.
      assert (Hm : (ofs - lastofs) / 2 < ofs - lastofs)
        by (apply Nat.div_lt; lia).
      destruct (before_at (lastofs + (ofs - lastofs) / 2)) eqn:Hb.
      * destruct (IH (S (lastofs + (ofs - lastofs) / 2)) ofs)
          as (H1 & H2 & H3); [lia|lia| |exact Hofs|].
        { right. cbn. rewrite Nat.sub_0_r. exact Hb. }
        split_and!; [lia|exact H2|exact H3].
      * destruct (IH lastofs (lastofs + (ofs - lastofs) / 2))
          as (H1 & H2 & H3); [lia|lia|exact Hlast|exact Hb|].
        split_and!; [lia|exact H2|exact H3].
    + assert (lastofs = ofs) as -> by lia.
      split_and!; [lia|exact Hlast|exact Hofs].
Qed.

(** The place a gallop finds: the item before it is before the key, if
    there is one, and the item at it is not, if there is one. *)
Lemma gallop_spec (hint : nat) :
  hint < length a →
  let k := gallop before a hint in
  k ≤ length a
  ∧ (∀ x, last (take k a) = Some x → before x = true)
  ∧ (∀ x, head (drop k a) = Some x → before x = false).
Proof.
  intros Hhint.
  set (before_at := λ i, match a !! i with
                         | Some x => before x
                         | None => false
                         end).
  set (n := length a).
  change (gallop before a hint)
    with (let '(lastofs, ofs) :=
            if before_at hint then
              let '(lastofs, ofs) :=
                gallop_loop n (λ ofs, before_at (hint + ofs)) (n - hint) 0 1 in
              (lastofs + hint + 1, Nat.min ofs (n - hint) + hint)
            else
              let '(lastofs, ofs) :=
                gallop_loop n (λ ofs, negb (before_at (hint - ofs)))
                  (hint + 1) 0 1 in
              (hint + 1 - Nat.min ofs (hint + 1), hint - lastofs) in
          gallop_search n before_at lastofs ofs).
  assert (Hend : before_at n = false).
  { unfold before_at. rewrite (lookup_ge_None_2 a n); [reflexivity|lia]. }
  assert (Hk : ∀ lastofs ofs,
    lastofs ≤ ofs → ofs ≤ n →
    (lastofs = 0 ∨ before_at (lastofs - 1) = true) →
    before_at ofs = false →
    let k := gallop_search n before_at lastofs ofs in
    k ≤ length a
    ∧ (∀ x, last (take k a) = Some x → before x = true)
    ∧ (∀ x, head (drop k a) = Some x → before x = false)).
  { intros lastofs ofs Hle Hofs Hlast Hb.
    destruct (gallop_search_spec before_at n lastofs ofs)
      as (H1 & H2 & H3); [lia|lia|exact Hlast|exact Hb|].
    cbn. set (k := gallop_search n before_at lastofs ofs) in *.
    split_and!; [unfold n in *; lia| |].
    - intros x Hx. rewrite last_lookup in Hx.
      rewrite length_take in Hx.
      replace (Nat.min k (length a)) with k in Hx by (unfold n in *; lia).
      destruct k as [|k]; [discriminate|].
      cbn [Nat.pred] in Hx. rewrite lookup_take, decide_True in Hx by lia.
      destruct H2 as [H2|H2]; [discriminate|].
      cbn in H2. rewrite Nat.sub_0_r in H2. unfold before_at in H2.
      rewrite Hx in H2. exact H2.
    - intros x Hx. rewrite head_lookup, lookup_drop, Nat.add_0_r in Hx.
      unfold before_at in H3. rewrite Hx in H3. exact H3. }
  destruct (before_at hint) eqn:Hhere.
  - pose proof (gallop_loop_spec (λ ofs, before_at (hint + ofs)) (n - hint)
                  n 0 1) as Hloop.
    destruct Hloop as (H1 & H2 & H3 & H4);
      [lia|unfold n; lia|lia|left; reflexivity|].
    destruct (gallop_loop n (λ ofs, before_at (hint + ofs)) (n - hint) 0 1)
      as [lastofs ofs].
    cbn [fst snd] in *. apply Hk.
    + lia.
    + lia.
    + right. replace (lastofs + hint + 1 - 1) with (hint + lastofs) by lia.
      destruct H3 as [->|H3]; [rewrite Nat.add_0_r; exact Hhere|exact H3].
    + destruct H4 as [H4|H4].
      * replace (Nat.min ofs (n - hint) + hint) with n by lia. exact Hend.
      * destruct (Nat.le_gt_cases (n - hint) ofs) as [Hge|Hlt].
        -- replace (Nat.min ofs (n - hint) + hint) with n by lia. exact Hend.
        -- replace (Nat.min ofs (n - hint) + hint) with (hint + ofs) by lia.
           exact H4.
  - pose proof (gallop_loop_spec (λ ofs, negb (before_at (hint - ofs)))
                  (hint + 1) n 0 1) as Hloop.
    destruct Hloop as (H1 & H2 & H3 & H4);
      [lia|lia|unfold n; lia|left; reflexivity|].
    destruct (gallop_loop n (λ ofs, negb (before_at (hint - ofs)))
                (hint + 1) 0 1) as [lastofs ofs].
    cbn [fst snd] in *. apply Hk.
    + lia.
    + unfold n. lia.
    + destruct H4 as [H4|H4].
      * left. lia.
      * destruct (Nat.le_gt_cases (hint + 1) ofs) as [Hge|Hlt]; [left; lia|].
        right.
        replace (hint + 1 - Nat.min ofs (hint + 1) - 1) with (hint - ofs)
          by lia.
        apply negb_false_iff in H4. exact H4.
    + destruct H3 as [->|H3]; [rewrite Nat.sub_0_r; exact Hhere|].
      apply negb_true_iff in H3. exact H3.
Qed.

End gallop_facts.

Section reverse_facts.
Context {A : Type} (lt : A → A → bool).

Lemma nondescending_reverse (l : list A) :
  nondescending lt (reverse l) ↔ nondescending (λ x y, lt y x) l.
Proof.
  induction l as [|x l IH].
  - split; intros _; apply nondescending_nil.
  - rewrite reverse_cons. split.
    + intros H. apply nondescending_app_iff in H as (Hl & _ & Hj).
      apply nondescending_cons_iff. split; [|apply IH, Hl].
      intros y Hy. apply (Hj y x); [|reflexivity].
      rewrite last_reverse. exact Hy.
    + intros H. apply nondescending_cons_iff in H as (Hj & Hl).
      apply nondescending_app_iff. split; [apply IH, Hl|].
      split; [apply nondescending_singleton|].
      intros y z Hy [= <-]. rewrite last_reverse in Hy. exact (Hj y Hy).
Qed.

End reverse_facts.

Section nondescending_facts.
Context {A : Type} (lt : A → A → bool).
Implicit Types l : list A.

Lemma nondescending_app_l l1 l2 :
  nondescending lt (l1 ++ l2) → nondescending lt l1.
Proof. intros H. apply nondescending_app_iff in H. tauto. Qed.

Lemma nondescending_app_r l1 l2 :
  nondescending lt (l1 ++ l2) → nondescending lt l2.
Proof. intros H. apply nondescending_app_iff in H. tauto. Qed.

(** Two lists that overlap in a list with an item go together. *)
Lemma nondescending_overlap l1 l2 l3 :
  l2 ≠ [] →
  nondescending lt (l1 ++ l2) → nondescending lt (l2 ++ l3) →
  nondescending lt (l1 ++ l2 ++ l3).
Proof.
  intros Hl2 H12 H23.
  apply nondescending_app_iff in H12 as (H1 & _ & Hj).
  apply nondescending_app_iff. split; [exact H1|]. split; [exact H23|].
  intros x y Hx Hy. apply (Hj x y Hx).
  destruct l2 as [|z l2]; [congruence|exact Hy].
Qed.

Lemma nondescending_snoc l x :
  nondescending lt l → (∀ y, last l = Some y → lt x y = false) →
  nondescending lt (l ++ [x]).
Proof.
  intros Hl Hx. apply nondescending_app_iff. split; [exact Hl|].
  split; [apply nondescending_singleton|].
  intros y z Hy [= <-]. exact (Hx y Hy).
Qed.

Lemma last_drop_Some l n x : last (drop n l) = Some x → last l = Some x.
Proof.
  intros H. rewrite <- (take_drop n l), last_app, H. reflexivity.
Qed.

End nondescending_facts.

Section merge_facts.
Context {A : Type} (ltf : A → A → bool).
Context (gallop_X gallop_Y : A → list A → nat) (X_first : bool).
Context (pre post all : list A).
Import ListObject.
#[local] Open Scope nat_scope.

Hypothesis ltf_asym : ∀ x y, ltf x y = true → ltf y x = false.
Hypothesis gallop_X_between : gallop_between ltf gallop_X.
Hypothesis gallop_Y_between : gallop_between ltf gallop_Y.

#[local] Abbreviation invariant := (merge_invariant ltf pre post all).
#[local] Abbreviation merge_ok := (merge_result ltf pre post all).
#[local] Abbreviation nd := (nondescending ltf).

Lemma check_spec (st : merging A) :
  invariant st →
  match check st with
  | inl done => merge_ok done.1
  | inr st' => st' = st ∧ 2 ≤ length (X st) ∧ Y st ≠ []
  end.
Proof.
  intros (Ha & Hb & Hc & Hperm). unfold check.
  destruct (Nat.leb_spec (length (X st)) 1) as [Hlen|Hlen].
  - cbn [fst]. split.
    + destruct (X st) as [|x [|? ?]] eqn:HX; [| |cbn in Hlen; lia].
      * rewrite app_nil_r. rewrite <- !app_assoc. exact Hb.
      * destruct (Y st) as [|y Y'] eqn:HY.
        { rewrite <- !app_assoc. exact Ha. }
        rewrite <- !app_assoc. rewrite (app_assoc pre).
        apply nondescending_overlap; [discriminate| |].
        -- rewrite <- app_assoc.
           rewrite !app_assoc in Hb. apply nondescending_app_l in Hb.
           rewrite <- !app_assoc in Hb. exact Hb.
        -- change (nd ((y :: Y') ++ [x] ++ post)).
           apply nondescending_overlap; [discriminate| |].
           ++ apply nondescending_snoc.
              ** apply nondescending_app_r in Hb.
                 apply nondescending_app_r in Hb.
                 apply nondescending_app_l in Hb. exact Hb.
              ** intros z Hz. exact (Hc x z eq_refl Hz).
           ++ apply nondescending_app_r in Ha.
              apply nondescending_app_r in Ha. exact Ha.
    + rewrite <- Hperm. apply Permutation_app_head, Permutation_app_comm.
  - destruct (Y st) as [|y Y'] eqn:HY.
    + cbn [fst]. split.
      * rewrite <- !app_assoc. exact Ha.
      * rewrite <- Hperm, app_nil_r. reflexivity.
    + split; [reflexivity|]. split; [lia|discriminate].
Qed.

Lemma take_X_invariant (k : nat) (st : merging A) :
  invariant st → Y st ≠ [] →
  (∀ z y, last (take k (X st)) = Some z → head (Y st) = Some y →
          ltf y z = false) →
  invariant (take_X k st).
Proof.
  intros (Ha & Hb & Hc & Hperm) HY Hj. unfold take_X.
  split_and!; cbn [out X Y].
  - rewrite <- !app_assoc, (app_assoc (take k (X st))), take_drop. exact Ha.
  - rewrite <- !app_assoc.
    destruct (take k (X st)) as [|t T] eqn:HT; [exact Hb|].
    rewrite (app_assoc pre), (app_assoc (pre ++ out st)).
    destruct (Y st) as [|y Y'] eqn:HYeq; [congruence|].
    apply nondescending_app_iff. split_and!.
    + rewrite <- (take_drop k (X st)), HT in Ha.
      rewrite <- !app_assoc in Ha. rewrite <- app_assoc.
      rewrite (app_assoc pre), (app_assoc (pre ++ out st)) in Ha.
      apply nondescending_app_l in Ha. rewrite <- !app_assoc in Ha.
      exact Ha.
    + apply nondescending_app_r in Hb. apply nondescending_app_r in Hb.
      exact Hb.
    + intros z y' Hz [= <-]. rewrite last_app in Hz.
      destruct (last (t :: T)) as [z'|] eqn:Hlast.
      * injection Hz as <-. exact (Hj z' y eq_refl eq_refl).
      * apply last_None in Hlast. discriminate.
  - intros x y Hx Hy. apply last_drop_Some in Hx. exact (Hc x y Hx Hy).
  - rewrite <- Hperm, <- !app_assoc, (app_assoc (take k (X st))), take_drop.
    reflexivity.
Qed.

Lemma take_Y_invariant (k : nat) (st : merging A) :
  invariant st → X st ≠ [] →
  (∀ z x, last (take k (Y st)) = Some z → head (X st) = Some x →
          ltf x z = false) →
  invariant (take_Y k st).
Proof.
  intros (Ha & Hb & Hc & Hperm) HX Hj. unfold take_Y.
  split_and!; cbn [out X Y].
  - rewrite <- !app_assoc.
    destruct (take k (Y st)) as [|t T] eqn:HT; [exact Ha|].
    rewrite (app_assoc pre), (app_assoc (pre ++ out st)).
    destruct (X st) as [|x X'] eqn:HXeq; [congruence|].
    apply nondescending_app_iff. split_and!.
    + rewrite <- (take_drop k (Y st)), HT in Hb.
      rewrite <- !app_assoc in Hb. rewrite <- app_assoc.
      rewrite (app_assoc pre), (app_assoc (pre ++ out st)) in Hb.
      apply nondescending_app_l in Hb. rewrite <- !app_assoc in Hb.
      exact Hb.
    + apply nondescending_app_r in Ha. apply nondescending_app_r in Ha.
      exact Ha.
    + intros z x' Hz [= <-]. rewrite last_app in Hz.
      destruct (last (t :: T)) as [z'|] eqn:Hlast.
      * injection Hz as <-. exact (Hj z' x eq_refl eq_refl).
      * apply last_None in Hlast. discriminate.
  - rewrite <- !app_assoc, (app_assoc (take k (Y st))), take_drop. exact Hb.
  - intros x y Hx Hy. apply last_drop_Some in Hy. exact (Hc x y Hx Hy).
  - rewrite <- Hperm, <- !app_assoc.
    apply Permutation_app_head.
    rewrite <- (take_drop k (Y st)) at 3.
    rewrite (app_assoc (take k (Y st))), (app_assoc (X st)).
    apply Permutation_app_tail, Permutation_app_comm.
Qed.

#[local] Abbreviation step_spec P r :=
  (match r with inl done => merge_ok (fst done) | inr next => P next end).

Lemma and_then_spec {B : Type} (P : B → Prop) (st : merging A)
    (k : merging A → merged A + B) :
  invariant st →
  (invariant st → 2 ≤ length (X st) → Y st ≠ [] → step_spec P (k st)) →
  step_spec P (and_then (check st) k).
Proof.
  intros Hinv Hk. pose proof (check_spec st Hinv) as Hcheck.
  destruct (check st) as [done|st']; cbn [and_then]; [exact Hcheck|].
  destruct Hcheck as (-> & HX & HY). exact (Hk Hinv HX HY).
Qed.

(** What a pass of either loop leaves: the invariant, the two runs as
    the loops need them, and fewer items to merge. *)
#[local] Abbreviation smaller st :=
  (λ next : mode * merging A,
     invariant next.2 ∧ 2 ≤ length (X next.2) ∧ Y next.2 ≠ []
     ∧ length (X next.2) + length (Y next.2) < length (X st) + length (Y st)).

Lemma straight_spec (xcount ycount : nat) (st : merging A) :
  invariant st → 2 ≤ length (X st) → Y st ≠ [] →
  step_spec (smaller st) (straight ltf xcount ycount st).
Proof.
  intros Hinv HX HY. unfold straight.
  destruct (X st) as [|x X'] eqn:HXeq; [cbn in HX; lia|].
  destruct (Y st) as [|y Y'] eqn:HYeq; [congruence|].
  destruct (ltf y x) eqn:Hcmp.
  - apply and_then_spec.
    + apply take_Y_invariant; [exact Hinv|congruence|].
      rewrite HXeq, HYeq. intros z x' [= <-] [= <-]. apply ltf_asym, Hcmp.
    + intros Hinv' HX' HY'.
      assert (Hlen : length (X (take_Y 1 st)) + length (Y (take_Y 1 st))
                     < S (length X') + S (length Y')).
      { cbn [take_Y X Y]. rewrite HXeq, HYeq. cbn. rewrite drop_0. lia. }
      destruct (min_gallop (take_Y 1 st) <=? S ycount);
        (split; [exact Hinv'|]; split; [exact HX'|]; split; [exact HY'|]);
        exact Hlen.
  - apply and_then_spec.
    + apply take_X_invariant; [exact Hinv|congruence|].
      rewrite HXeq, HYeq. intros z y' [= <-] [= <-]. exact Hcmp.
    + intros Hinv' HX' HY'.
      assert (Hlen : length (X (take_X 1 st)) + length (Y (take_X 1 st))
                     < S (length X') + S (length Y')).
      { cbn [take_X X Y]. rewrite HXeq, HYeq. cbn. rewrite drop_0. lia. }
      destruct (min_gallop (take_X 1 st) <=? S xcount);
        (split; [exact Hinv'|]; split; [exact HX'|]; split; [exact HY'|]);
        exact Hlen.
Qed.

Lemma count_X_take (st : merging A) :
  X st ≠ [] →
  ∀ z y, last (take (count_X gallop_X st) (X st)) = Some z →
         head (Y st) = Some y → ltf y z = false.
Proof.
  intros HX z y Hz Hy. unfold count_X in Hz.
  destruct (Y st) as [|y' Y']; [discriminate|]. injection Hy as ->.
  exact (proj1 (gallop_X_between y (X st) HX) z Hz).
Qed.

Lemma count_X_drop (st : merging A) :
  X st ≠ [] →
  ∀ z x, last (take 1 (Y st)) = Some z →
         head (drop (count_X gallop_X st) (X st)) = Some x →
         ltf x z = false.
Proof.
  intros HX z x Hz Hx. unfold count_X in Hx.
  destruct (Y st) as [|y' Y']; [discriminate|]. cbn in Hz.
  injection Hz as <-.
  exact (proj2 (gallop_X_between y' (X st) HX) x Hx).
Qed.

Lemma count_Y_take (st : merging A) :
  Y st ≠ [] →
  ∀ z x, last (take (count_Y gallop_Y st) (Y st)) = Some z →
         head (X st) = Some x → ltf x z = false.
Proof.
  intros HY z x Hz Hx. unfold count_Y in Hz.
  destruct (X st) as [|x' X']; [discriminate|]. injection Hx as ->.
  exact (proj1 (gallop_Y_between x (Y st) HY) z Hz).
Qed.

Lemma count_Y_drop (st : merging A) :
  Y st ≠ [] →
  ∀ z y, last (take 1 (X st)) = Some z →
         head (drop (count_Y gallop_Y st) (Y st)) = Some y →
         ltf y z = false.
Proof.
  intros HY z y Hz Hy. unfold count_Y in Hy.
  destruct (X st) as [|x' X']; [discriminate|]. cbn in Hz.
  injection Hz as <-.
  exact (proj2 (gallop_Y_between x' (Y st) HY) y Hy).
Qed.

Lemma nonempty_length (l : list A) : 2 ≤ length l → l ≠ [].
Proof. destruct l; cbn; [lia|discriminate]. Qed.

Lemma galloping_spec (st : merging A) :
  invariant st → 2 ≤ length (X st) → Y st ≠ [] →
  step_spec (smaller st) (galloping gallop_X gallop_Y X_first st).
Proof.
  intros Hinv HX HY. unfold galloping.
  set (st0 := Merging (out st) (X st) (Y st)
                (min_gallop st - (if 1 <? min_gallop st then 1 else 0))).
  assert (Hinv0 : invariant st0) by exact Hinv.
  change (X st) with (X st0) in HX |- *.
  change (Y st) with (Y st0) in HY |- *.
  clearbody st0. clear Hinv st.
  destruct X_first.
  - apply and_then_spec.
    { apply take_X_invariant; [exact Hinv0|exact HY|].
      apply count_X_take, nonempty_length, HX. }
    intros Hinv1 HX1 HY1.
    apply and_then_spec.
    { apply take_Y_invariant; [exact Hinv1|apply nonempty_length, HX1|].
      exact (count_X_drop _ (nonempty_length _ HX)). }
    intros Hinv2 HX2 HY2.
    apply and_then_spec.
    { apply take_Y_invariant; [exact Hinv2|apply nonempty_length, HX2|].
      apply count_Y_take, HY2. }
    intros Hinv3 HX3 HY3.
    apply and_then_spec.
    { apply take_X_invariant; [exact Hinv3|exact HY3|].
      exact (count_Y_drop _ HY2). }
    intros Hinv4 HX4 HY4.
    match goal with
    | |- context [if ?c then _ else _] => destruct c
    end; (split; [exact Hinv4|]; split; [exact HX4|]; split; [exact HY4|]);
      cbn [take_X take_Y X Y fst snd]; rewrite !length_drop;
      cbn [take_X take_Y X Y] in HX1; rewrite length_drop in HX1;
      destruct (Y st0); [congruence|cbn; lia|congruence|cbn; lia].
  - apply and_then_spec.
    { apply take_Y_invariant; [exact Hinv0|apply nonempty_length, HX|].
      apply count_Y_take, HY. }
    intros Hinv1 HX1 HY1.
    apply and_then_spec.
    { apply take_X_invariant; [exact Hinv1|exact HY1|].
      exact (count_Y_drop _ HY). }
    intros Hinv2 HX2 HY2.
    apply and_then_spec.
    { apply take_X_invariant; [exact Hinv2|exact HY2|].
      apply count_X_take, nonempty_length, HX2. }
    intros Hinv3 HX3 HY3.
    apply and_then_spec.
    { apply take_Y_invariant; [exact Hinv3|apply nonempty_length, HX3|].
      exact (count_X_drop _ (nonempty_length _ HX2)). }
    intros Hinv4 HX4 HY4.
    match goal with
    | |- context [if ?c then _ else _] => destruct c
    end; (split; [exact Hinv4|]; split; [exact HX4|]; split; [exact HY4|]);
      cbn [take_X take_Y X Y fst snd]; rewrite !length_drop;
      cbn [take_X take_Y X Y] in HY1;
      destruct (X st0); [cbn in HX; lia| |cbn in HX; lia|];
      destruct (drop (count_Y gallop_Y st0) (Y st0)) eqn:Hd;
      try congruence; apply (f_equal length) in Hd;
      rewrite length_drop in Hd; cbn in *; lia.
Qed.

Lemma merge_loop_spec : ∀ (fuel : nat) (m : mode) (st : merging A),
  invariant st → 2 ≤ length (X st) → Y st ≠ [] →
  length (X st) + length (Y st) < fuel →
  merge_ok (merge_loop ltf gallop_X gallop_Y X_first fuel m st).1.
Proof.
  induction fuel as [|fuel IH]; intros m st Hinv HX HY Hfuel; [lia|].
  cbn [merge_loop].
  assert (Hstep : step_spec (smaller st)
            match m with
            | Straight xcount ycount => straight ltf xcount ycount st
            | Galloping => galloping gallop_X gallop_Y X_first st
            end).
  { destruct m; [apply straight_spec|apply galloping_spec]; assumption. }
  destruct (match m with
            | Straight xcount ycount => straight ltf xcount ycount st
            | Galloping => galloping gallop_X gallop_Y X_first st
            end) as [done|[m' st']]; [exact Hstep|].
  cbn [fst snd] in Hstep. destruct Hstep as (Hinv' & HX' & HY' & Hlen).
  apply IH; [assumption..|lia].
Qed.

(** The merge of two runs between [pre] and [post]: each run can stand
    between them, the head of [X] can follow the head of [Y], and the last
    item of [X] the last item of [Y]. *)
Lemma merge_spec (X0 Y0 : list A) (min_gallop : nat) :
  X0 ≠ [] →
  nd (pre ++ X0 ++ post) → nd (pre ++ Y0 ++ post) →
  (∀ x y, head X0 = Some x → head Y0 = Some y → ltf x y = false) →
  (∀ x y, last X0 = Some x → last Y0 = Some y → ltf x y = false) →
  X0 ++ Y0 ≡ₚ all →
  merge_ok (merge ltf gallop_X gallop_Y X_first X0 Y0 min_gallop).1.
Proof.
  intros HX0 Ha Hb Hhead Hlast Hperm. unfold merge.
  assert (Hinv : invariant (Merging [] X0 Y0 min_gallop)).
  { split_and!; assumption. }
  assert (Hinv1 : invariant (take_Y 1 (Merging [] X0 Y0 min_gallop))).
  { apply take_Y_invariant; [exact Hinv|exact HX0|]. cbn [X Y].
    intros z x Hz Hx. destruct Y0 as [|y Y0']; [discriminate|].
    injection Hz as <-. exact (Hhead x y Hx eq_refl). }
  pose proof (check_spec _ Hinv1) as Hcheck.
  destruct (check (take_Y 1 (Merging [] X0 Y0 min_gallop))) as [done|st];
    [exact Hcheck|].
  destruct Hcheck as (-> & HX & HY).
  apply merge_loop_spec; [exact Hinv1|exact HX|exact HY|].
  cbn [take_Y X Y]. rewrite length_drop. cbn [take_Y X Y] in HX. lia.
Qed.

End merge_facts.

Section merge_at_facts.
Context {A : Type} (lt : A → A → bool).
Import ListObject.
#[local] Open Scope nat_scope.

Hypothesis lt_asym : ∀ x y, lt x y = true → lt y x = false.

#[local] Abbreviation nd := (nondescending lt).
#[local] Abbreviation lt_rev := (λ x y : A, lt y x).

Lemma gallop_right_spec (key : A) (a : list A) (hint : nat) :
  hint < length a →
  let k := gallop_right lt key a hint in
  k ≤ length a
  ∧ (∀ x, last (take k a) = Some x → lt key x = false)
  ∧ (∀ x, head (drop k a) = Some x → lt key x = true).
Proof.
  intros Hhint.
  destruct (gallop_spec (λ x, negb (lt key x)) a hint Hhint)
    as (Hk & H1 & H2).
  split; [exact Hk|]. split; intros x Hx.
  - apply negb_true_iff, H1, Hx.
  - apply negb_false_iff, H2, Hx.
Qed.

Lemma gallop_left_spec (key : A) (a : list A) (hint : nat) :
  hint < length a →
  let k := gallop_left lt key a hint in
  k ≤ length a
  ∧ (∀ x, last (take k a) = Some x → lt x key = true)
  ∧ (∀ x, head (drop k a) = Some x → lt x key = false).
Proof. intros Hhint. exact (gallop_spec (λ x, lt x key) a hint Hhint). Qed.

Lemma length_nonempty (l : list A) : l ≠ [] → 0 < length l.
Proof. destruct l; [congruence|cbn; lia]. Qed.

Lemma gallop_right_between :
  gallop_between lt (λ key X, gallop_right lt key X 0).
Proof.
  intros key l Hl.
  destruct (gallop_right_spec key l 0 (length_nonempty l Hl))
    as (_ & H1 & H2).
  split; intros z Hz; [exact (H1 z Hz)|apply lt_asym, H2, Hz].
Qed.

Lemma gallop_left_between :
  gallop_between lt (λ key Y, gallop_left lt key Y 0).
Proof.
  intros key l Hl.
  destruct (gallop_left_spec key l 0 (length_nonempty l Hl))
    as (_ & H1 & H2).
  split; intros z Hz; [apply lt_asym, H1, Hz|exact (H2 z Hz)].
Qed.

(** A run that is searched as the list has it and merged from its end:
    the items counted from the end are those after the place found. *)
Lemma take_from_end (l : list A) (k : nat) :
  k ≤ length l →
  last (take (length l - k) l) = head (drop k (reverse l))
  ∧ head (drop (length l - k) l) = last (take k (reverse l)).
Proof.
  intros Hk. rewrite drop_reverse, take_reverse, head_reverse, last_reverse.
  replace (length l - (length l - k)) with k by lia.
  split; reflexivity.
Qed.

Lemma gallop_left_between_hi :
  gallop_between lt_rev
    (λ key X, length X - gallop_left lt key (reverse X) (length X - 1)).
Proof.
  intros key l Hl. pose proof (length_nonempty l Hl) as Hlen.
  destruct (gallop_left_spec key (reverse l) (length l - 1))
    as (Hk & H1 & H2); [rewrite length_reverse; lia|].
  rewrite length_reverse in Hk.
  destruct (take_from_end l _ Hk) as [-> ->].
  split; intros z Hz; [exact (H2 z Hz)|apply lt_asym, H1, Hz].
Qed.

Lemma gallop_right_between_hi :
  gallop_between lt_rev
    (λ key Y, length Y - gallop_right lt key (reverse Y) (length Y - 1)).
Proof.
  intros key l Hl. pose proof (length_nonempty l Hl) as Hlen.
  destruct (gallop_right_spec key (reverse l) (length l - 1))
    as (Hk & H1 & H2); [rewrite length_reverse; lia|].
  rewrite length_reverse in Hk.
  destruct (take_from_end l _ Hk) as [-> ->].
  split; intros z Hz; [apply lt_asym, H2, Hz|exact (H1 z Hz)].
Qed.

Lemma lt_rev_asym : ∀ x y, lt_rev x y = true → lt_rev y x = false.
Proof. intros x y. apply lt_asym. Qed.

(** The two merges, of runs [a] and [b] that stand between [pre] and
    [post]: the head of [a] is not less than the head of [b], and the
    last item of [a] not less than the last item of [b]. *)
Lemma merge_lo_spec (pre post a b : list A) (min_gallop : nat) :
  a ≠ [] →
  nd (pre ++ a ++ post) → nd (pre ++ b ++ post) →
  (∀ x y, head a = Some x → head b = Some y → lt x y = false) →
  (∀ x y, last a = Some x → last b = Some y → lt x y = false) →
  merge_result lt pre post (a ++ b) (merge_lo lt a b min_gallop).1.
Proof.
  intros Ha H1 H2 H3 H4. unfold merge_lo.
  apply merge_spec; try assumption.
  - apply gallop_right_between.
  - apply gallop_left_between.
  - reflexivity.
Qed.

Lemma merge_hi_spec (pre post a b : list A) (min_gallop : nat) :
  b ≠ [] →
  nd (pre ++ a ++ post) → nd (pre ++ b ++ post) →
  (∀ x y, head a = Some x → head b = Some y → lt x y = false) →
  (∀ x y, last a = Some x → last b = Some y → lt x y = false) →
  merge_result lt pre post (a ++ b) (merge_hi lt a b min_gallop).1.
Proof.
  intros Hb H1 H2 H3 H4. unfold merge_hi.
  pose proof (merge_spec lt_rev
    (λ key X, length X - gallop_left lt key (reverse X) (length X - 1))
    (λ key Y, length Y - gallop_right lt key (reverse Y) (length Y - 1))
    false (reverse post) (reverse pre) (reverse (a ++ b))
    lt_rev_asym gallop_left_between_hi gallop_right_between_hi
    (reverse b) (reverse a) min_gallop) as Hmerge.
  destruct (merge _ _ _ _ _ _ _) as [l min_gallop'].
  cbn [fst] in *. destruct Hmerge as [Hnd Hperm].
  - intros Hrev. apply (f_equal reverse) in Hrev.
    rewrite reverse_involutive in Hrev. exact (Hb Hrev).
  - rewrite <- !reverse_app, <- app_assoc.
    apply (nondescending_reverse lt_rev). exact H2.
  - rewrite <- !reverse_app, <- app_assoc.
    apply (nondescending_reverse lt_rev). exact H1.
  - intros x y. rewrite !head_reverse. intros Hx Hy. exact (H4 y x Hy Hx).
  - intros x y. rewrite !last_reverse. intros Hx Hy. exact (H3 y x Hy Hx).
  - rewrite reverse_app. reflexivity.
  - split.
    + rewrite <- (reverse_involutive (pre ++ reverse l ++ post)).
      apply nondescending_reverse.
      rewrite !reverse_app, reverse_involutive, <- app_assoc. exact Hnd.
    + rewrite reverse_Permutation, Hperm. apply reverse_Permutation.
Qed.

(** [merge_at] makes one run of two. *)
Lemma merge_at_spec (a b : list A) (min_gallop : nat) :
  nd a → nd b →
  nd (merge_at lt a b min_gallop).1
  ∧ (merge_at lt a b min_gallop).1 ≡ₚ a ++ b.
Proof.
  intros Ha Hb. unfold merge_at.
  destruct b as [|b0 b'] eqn:Hbeq; [rewrite app_nil_r; split; done|].
  rewrite <- Hbeq in *.
  assert (Hb0 : head b = Some b0) by (rewrite Hbeq; reflexivity).
  assert (Hbne : b ≠ []) by (rewrite Hbeq; discriminate).
  clear Hbeq b'.
  set (k := gallop_right lt b0 a 0).
  destruct (decide (a = [])) as [->|Hane].
  { rewrite drop_nil. cbn. split; done. }
  destruct (gallop_right_spec b0 a 0 (length_nonempty a Hane))
    as (Hk & Hk1 & Hk2). fold k in Hk, Hk1, Hk2.
  assert (Hpre : nd (take k a ++ b)).
  { apply nondescending_app_iff. split_and!.
    - rewrite <- (take_drop k a) in Ha.
      exact (nondescending_app_l _ _ _ Ha).
    - exact Hb.
    - intros x y Hx Hy. rewrite Hb0 in Hy. injection Hy as <-.
      exact (Hk1 x Hx). }
  destruct (last (drop k a)) as [a_last|] eqn:Hlast.
  2: { apply last_None in Hlast. cbn [fst]. split; [|reflexivity].
       rewrite <- (take_drop k a), Hlast, app_nil_r. exact Hpre. }
  pose proof (last_drop_Some _ _ _ Hlast) as Hlast'.
  set (nb := gallop_left lt a_last b (length b - 1)).
  destruct (gallop_left_spec a_last b (length b - 1))
    as (Hnb & Hnb1 & Hnb2); [pose proof (length_nonempty b Hbne); lia|].
  fold nb in Hnb, Hnb1, Hnb2.
  assert (Hpost : nd (a ++ drop nb b)).
  { apply nondescending_app_iff. split_and!.
    - exact Ha.
    - rewrite <- (take_drop nb b) in Hb.
      exact (nondescending_app_r _ _ _ Hb).
    - intros x y Hx Hy. rewrite Hlast' in Hx. injection Hx as <-.
      exact (Hnb2 y Hy). }
  destruct (Nat.eqb_spec nb 0) as [Hzero|Hnonzero].
  { cbn [fst]. split; [|reflexivity]. rewrite Hzero, drop_0 in Hpost.
    exact Hpost. }
  assert (Hmerge : ∀ l,
    merge_result lt (take k a) (drop nb b) (drop k a ++ take nb b) l →
    nd (take k a ++ l ++ drop nb b) ∧ take k a ++ l ++ drop nb b ≡ₚ a ++ b).
  { intros l [Hnd Hperm]. split; [exact Hnd|].
    rewrite Hperm, <- app_assoc, (app_assoc (take k a)), take_drop, take_drop.
    reflexivity. }
  assert (H1 : nd (take k a ++ drop k a ++ drop nb b))
    by (rewrite app_assoc, take_drop; exact Hpost).
  assert (H2 : nd (take k a ++ take nb b ++ drop nb b))
    by (rewrite take_drop; exact Hpre).
  assert (H3 : ∀ x y, head (drop k a) = Some x → head (take nb b) = Some y →
                      lt x y = false).
  { intros x y Hx Hy. apply lt_asym.
    assert (y = b0) as ->; [|exact (Hk2 x Hx)].
    destruct b as [|b1 b']; [discriminate|]. injection Hb0 as ->.
    destruct nb; [lia|]. cbn in Hy. congruence. }
  assert (H4 : ∀ x y, last (drop k a) = Some x → last (take nb b) = Some y →
                      lt x y = false).
  { intros x y Hx Hy. rewrite Hlast in Hx. injection Hx as <-.
    apply lt_asym, Hnb1, Hy. }
  destruct (length (drop k a) <=? nb).
  - pose proof (merge_lo_spec (take k a) (drop nb b) (drop k a) (take nb b)
                  min_gallop) as Hlo.
    destruct (merge_lo lt (drop k a) (take nb b) min_gallop) as [l mg].
    cbn [fst] in *. apply Hmerge, Hlo; try assumption.
    intros Hnil. rewrite Hnil in Hlast. discriminate.
  - pose proof (merge_hi_spec (take k a) (drop nb b) (drop k a) (take nb b)
                  min_gallop) as Hhi.
    destruct (merge_hi lt (drop k a) (take nb b) min_gallop) as [l mg].
    cbn [fst] in *. apply Hmerge, Hhi; try assumption.
    intros Hnil. apply (f_equal length) in Hnil.
    rewrite length_take in Hnil. cbn in Hnil.
    pose proof (length_nonempty b Hbne). lia.
Qed.

End merge_at_facts.

Section list_sort_facts.
Context {A : Type} (lt : A → A → bool).
Import PySort ListObject.
#[local] Open Scope nat_scope.

Hypothesis lt_asym : ∀ x y, lt x y = true → lt y x = false.

#[local] Abbreviation nd := (nondescending lt).
#[local] Abbreviation runs_nd := (Forall (λ r : run A, nd (items r))).

Lemma run_asc_le (l : list A) : ∀ prev, run_asc lt prev l ≤ length l.
Proof.
  induction l as [|x l IH]; intros prev; cbn; [lia|].
  destruct (lt x prev); [lia|]. specialize (IH x). lia.
Qed.

Lemma run_desc_le (l : list A) : ∀ prev, run_desc lt prev l ≤ length l.
Proof.
  induction l as [|x l IH]; intros prev; cbn; [lia|].
  destruct (lt x prev); [|lia]. specialize (IH x). lia.
Qed.

(** The run that [count_run] finds, reversed when it descends. *)
Lemma count_run_spec (l : list A) :
  l ≠ [] →
  let run := take (count_run lt l).1 l in
  1 ≤ (count_run lt l).1 ≤ length l
  ∧ nd (if (count_run lt l).2 then reverse run else run).
Proof.
  intros Hl. destruct l as [|x [|y l]]; [congruence| |]; cbn [count_run].
  - cbn. split; [lia|apply nondescending_singleton].
  - destruct (lt y x) eqn:Hcmp; cbn [fst snd].
    + split; [pose proof (run_desc_le l y); cbn [length]; lia|].
      change (take (S (S (run_desc lt y l))) (x :: y :: l))
        with (x :: y :: take (run_desc lt y l) l).
      rewrite reverse_cons. apply nondescending_snoc.
      * apply run_desc_nondescending, lt_asym.
      * intros z Hz. rewrite last_reverse in Hz. injection Hz as <-.
        apply lt_asym, Hcmp.
    + split; [pose proof (run_asc_le l y); cbn [length]; lia|].
      change (take (S (S (run_asc lt y l))) (x :: y :: l))
        with (x :: y :: take (run_asc lt y l) l).
      apply nondescending_cons_iff. split; [|apply run_asc_nondescending].
      intros z [= <-]. exact Hcmp.
Qed.

Lemma stack_items_cons (r : run A) (stack : list (run A)) :
  stack_items (r :: stack) = stack_items stack ++ items r.
Proof.
  unfold stack_items. cbn [map]. rewrite reverse_cons, concat_app.
  cbn. rewrite app_nil_r. reflexivity.
Qed.

Lemma merge_above_spec : ∀ (fuel new_power : nat) (stack : list (run A))
    (min_gallop : nat),
  runs_nd stack →
  let r := merge_above lt fuel new_power stack min_gallop in
  runs_nd r.1 ∧ stack_items r.1 ≡ₚ stack_items stack.
Proof.
  induction fuel as [|fuel IH]; intros new_power stack min_gallop Hstack;
    cbn [merge_above]; [split; done|].
  destruct stack as [|top [|below stack]]; [split; done..|].
  destruct (new_power <? power below); [|split; done].
  apply Forall_cons in Hstack as [Htop Hstack].
  apply Forall_cons in Hstack as [Hbelow Hstack].
  destruct (merge_at_spec lt lt_asym (items below) (items top) min_gallop
              Hbelow Htop) as [Hnd Hperm].
  destruct (merge_at lt (items below) (items top) min_gallop) as [l mg].
  cbn [fst] in Hnd, Hperm.
  destruct (IH new_power (Run (start below) l (power below) :: stack) mg)
    as [IH1 IH2]; [constructor; assumption|].
  split; [exact IH1|]. rewrite IH2, !stack_items_cons. cbn [items].
  rewrite Hperm, app_assoc. reflexivity.
Qed.

Lemma found_new_run_spec (stack : list (run A)) (n2 listlen min_gallop : nat) :
  runs_nd stack →
  let r := found_new_run lt stack n2 listlen min_gallop in
  runs_nd r.1 ∧ stack_items r.1 ≡ₚ stack_items stack.
Proof.
  intros Hstack. unfold found_new_run.
  destruct stack as [|top stack]; [split; done|].
  pose proof (merge_above_spec (length (top :: stack))
                (powerloop (start top) (length (items top)) n2 listlen)
                (top :: stack) min_gallop Hstack) as Habove.
  destruct (merge_above _ _ _ _ _) as [stack' mg]. cbn [fst] in Habove.
  destruct Habove as [H1 H2].
  destruct stack' as [|top' stack']; [split; assumption|].
  cbn [fst]. apply Forall_cons in H1 as [Htop' H1]. split.
  - constructor; assumption.
  - rewrite <- H2, !stack_items_cons. reflexivity.
Qed.

Lemma merge_force_collapse_spec : ∀ (fuel : nat) (stack : list (run A))
    (min_gallop : nat),
  runs_nd stack → length stack ≤ S fuel →
  let r := merge_force_collapse lt fuel stack min_gallop in
  runs_nd r.1 ∧ stack_items r.1 ≡ₚ stack_items stack ∧ length r.1 ≤ 1.
Proof.
  induction fuel as [|fuel IH]; intros stack min_gallop Hstack Hlen;
    cbn [merge_force_collapse].
  { cbn [fst]. split_and!; [done..|].
    destruct stack as [|? [|? ?]]; cbn in *; lia. }
  destruct stack as [|top [|below stack]];
    [cbn; split_and!; [done..|lia]|cbn; split_and!; [done..|lia]|].
  apply Forall_cons in Hstack as [Htop Hstack].
  apply Forall_cons in Hstack as [Hbelow Hstack].
  assert (Htwo : ∀ r,
    r = (let '(l, min_gallop) :=
           merge_at lt (items below) (items top) min_gallop in
         merge_force_collapse lt fuel
           (Run (start below) l (power below) :: stack) min_gallop) →
    runs_nd r.1 ∧ stack_items r.1 ≡ₚ stack_items (top :: below :: stack)
    ∧ length r.1 ≤ 1).
  { intros r ->.
    destruct (merge_at_spec lt lt_asym (items below) (items top) min_gallop
                Hbelow Htop) as [Hnd Hperm].
    destruct (merge_at lt (items below) (items top) min_gallop) as [l mg].
    cbn [fst] in Hnd, Hperm.
    destruct (IH (Run (start below) l (power below) :: stack) mg)
      as (IH1 & IH2 & IH3);
      [constructor; assumption|cbn [length] in *; lia|].
    split_and!; [exact IH1| |exact IH3].
    rewrite IH2, !stack_items_cons. cbn [items].
    rewrite Hperm, app_assoc. reflexivity. }
  destruct stack as [|third stack]; [apply Htwo; reflexivity|].
  destruct (length (items third) <? length (items top));
    [|apply Htwo; reflexivity].
  apply Forall_cons in Hstack as [Hthird Hstack].
  destruct (merge_at_spec lt lt_asym (items third) (items below) min_gallop
              Hthird Hbelow) as [Hnd Hperm].
  destruct (merge_at lt (items third) (items below) min_gallop) as [l mg].
  cbn [fst] in Hnd, Hperm.
  destruct (IH (top :: Run (start third) l (power third) :: stack) mg)
    as (IH1 & IH2 & IH3);
    [repeat constructor; assumption|cbn [length] in *; lia|].
  split_and!; [exact IH1| |exact IH3].
  rewrite IH2, !stack_items_cons. cbn [items].
  rewrite Hperm, !app_assoc. reflexivity.
Qed.

Lemma runs_loop_spec : ∀ (fuel listlen minrun : nat) (stack : list (run A))
    (lo : nat) (rest : list A) (min_gallop : nat),
  length rest ≤ fuel → runs_nd stack →
  let r := runs_loop lt fuel listlen minrun stack lo rest min_gallop in
  runs_nd r.1 ∧ stack_items r.1 ≡ₚ stack_items stack ++ rest.
Proof.
  induction fuel as [|fuel IH];
    intros listlen minrun stack lo rest min_gallop Hfuel Hstack;
    cbn [runs_loop].
  { destruct rest; [|cbn in Hfuel; lia]. rewrite app_nil_r. split; done. }
  destruct rest as [|x rest'] eqn:Hrest;
    [rewrite app_nil_r; split; done|].
  rewrite <- Hrest in *.
  assert (Hne : rest ≠ []) by (rewrite Hrest; discriminate).
  clear Hrest x rest'.
  destruct (count_run_spec rest Hne) as [Hn Hrun].
  destruct (count_run lt rest) as [n descending]. cbn [fst snd] in Hn, Hrun.
  set (new := if descending then reverse (take n rest) else take n rest)
    in *.
  assert (Hnew_perm : new ≡ₚ take n rest).
  { unfold new. destruct descending; [apply reverse_Permutation|done]. }
  assert (Hnew : ∀ new' n',
    (new', n') =
      (if n <? minrun
       then (binarysort lt new
               (take (Nat.min (length rest) minrun - n) (drop n rest)),
             Nat.min (length rest) minrun)
       else (new, n)) →
    nd new' ∧ new' ≡ₚ take n' rest ∧ 1 ≤ n' ≤ length rest).
  { intros new' n'. destruct (Nat.ltb_spec n minrun) as [Hshort|Hlong];
      intros [= -> ->].
    - split; [apply binarysort_nondescending; assumption|].
      split; [|lia].
      rewrite binarysort_Permutation, Hnew_perm, take_take_drop.
      replace (n + (Nat.min (length rest) minrun - n))
        with (Nat.min (length rest) minrun) by lia.
      reflexivity.
    - split; [exact Hrun|]. split; [exact Hnew_perm|lia]. }
  destruct (if n <? minrun
            then (binarysort lt new
                    (take (Nat.min (length rest) minrun - n) (drop n rest)),
                  Nat.min (length rest) minrun)
            else (new, n)) as [new' n'].
  destruct (Hnew new' n' eq_refl) as (Hnd' & Hperm' & Hn').
  pose proof (found_new_run_spec stack n' listlen min_gallop Hstack)
    as Hfound.
  destruct (found_new_run lt stack n' listlen min_gallop) as [stack' mg].
  cbn [fst] in Hfound. destruct Hfound as [Hstack' Hitems'].
  destruct (IH listlen minrun (Run lo new' 0 :: stack') (lo + n')
              (drop n' rest) mg) as [IH1 IH2].
  - rewrite length_drop. lia.
  - constructor; assumption.
  - split; [exact IH1|].
    rewrite IH2, stack_items_cons, Hitems'. cbn [items].
    rewrite Hperm', <- app_assoc, take_drop. reflexivity.
Qed.

Lemma list_sort_spec (l : list A) :
  nd (list_sort lt l) ∧ list_sort lt l ≡ₚ l.
Proof.
  unfold list_sort. destruct (Nat.ltb_spec (length l) 2) as [Hshort|Hlong].
  { split; [|reflexivity].
    destruct l as [|x [|y l]]; [apply nondescending_nil|
      apply nondescending_singleton|cbn in Hshort; lia]. }
  pose proof (runs_loop_spec (length l) (length l)
                (merge_compute_minrun (length l)) [] 0 l MIN_GALLOP
                (Nat.le_refl _) (Forall_nil_2 _)) as Hruns.
  destruct (runs_loop _ _ _ _ _ _ _ _) as [stack mg].
  cbn [fst] in Hruns. destruct Hruns as [Hstack Hitems].
  pose proof (merge_force_collapse_spec (length stack) stack mg Hstack
                ltac:(lia)) as Hcollapse.
  destruct (merge_force_collapse _ _ _ _) as [stack' mg'].
  cbn [fst] in Hcollapse. destruct Hcollapse as (Hstack' & Hitems' & Hone).
  fold (stack_items stack'). split.
  - destruct stack' as [|r [|? ?]]; [apply nondescending_nil| |
      cbn in Hone; lia].
    rewrite stack_items_cons. cbn. apply Forall_cons in Hstack' as [Hr _].
    exact Hr.
  - rewrite Hitems', Hitems. reflexivity.
Qed.

End list_sort_facts.

Section list_sort_facts_general.
Context {A : Type} (lt : A → A → bool).
Import PySort ListObject.
#[local] Open Scope nat_scope.

Lemma runs_loop_one_run (fuel listlen minrun : nat) (l : list A)
    (min_gallop : nat) :
  l ≠ [] → nondescending lt l →
  runs_loop lt (S fuel) listlen minrun [] 0 l min_gallop
  = ([Run 0 l 0], min_gallop).
Proof.
  intros Hne Hl.
  assert (Hrun : count_run lt l = (length l, false)).
  { destruct l as [|x [|y l]]; [congruence|reflexivity|].
    cbn [count_run]. apply nondescending_cons_iff in Hl as [Hhd Htl].
    rewrite (Hhd y eq_refl), (run_asc_all _ _ _ Htl). reflexivity. }
  destruct l as [|x l']; [congruence|].
  cbn [runs_loop]. rewrite Hrun.
  rewrite take_ge, drop_all, take_nil by lia. cbn [binarysort].
  assert (Hnew :
    (if length (x :: l') <? minrun
     then (x :: l', Nat.min (length (x :: l')) minrun)
     else (x :: l', length (x :: l')))
    = (x :: l', length (x :: l'))).
  { destruct (Nat.ltb_spec (length (x :: l')) minrun); [|reflexivity].
    rewrite Nat.min_l by lia. reflexivity. }
  rewrite Hnew. cbn [found_new_run]. rewrite drop_all.
  destruct fuel; reflexivity.
Qed.

(** A list with no item less than the one before it is one run, which
    [list.sort] leaves as it is. *)
Lemma list_sort_fixes_nondescending (l : list A) :
  nondescending lt l → list_sort lt l = l.
Proof.
  intros Hl. unfold list_sort.
  destruct (Nat.ltb_spec (length l) 2) as [Hshort|Hlong]; [reflexivity|].
  destruct (length l) as [|n] eqn:Hlen; [lia|].
  rewrite runs_loop_one_run; [|intros ->; discriminate|exact Hl].
  cbn. apply app_nil_r.
Qed.



(** [powerloop] ends before its passes are used up: with more of them
    it gives the same power. *)
Lemma powerloop_from_fuel (n : nat) : ∀ (fuel more a b result : nat),
  a < b → b < 2 * n → 2 * n ≤ (b - a) * 2 ^ fuel →
  powerloop_from (fuel + more) a b n result
  = powerloop_from fuel a b n result.
Proof.
  induction fuel as [|fuel IH]; intros more a b result Hab Hb Hfuel.
  { cbn in Hfuel. lia. }
  cbn [Nat.add powerloop_from].
  rewrite Nat.pow_succ_r' in Hfuel.
  destruct (Nat.leb_spec n a) as [Ha|Ha].
  - apply IH; [lia|lia|].
    replace (2 * (b - n) - 2 * (a - n)) with (2 * (b - a)) by lia. lia.
  - destruct (Nat.leb_spec n b) as [Hn|Hn]; [reflexivity|].
    apply IH; [lia|lia|].
    replace (2 * b - 2 * a) with (2 * (b - a)) by lia. lia.
Qed.

Lemma powerloop_fuel (s1 n1 n2 n more : nat) :
  0 < n1 → 0 < n2 → s1 + n1 + n2 ≤ n →
  powerloop_from (S n + more) (2 * s1 + n1) (2 * s1 + n1 + n1 + n2) n 0
  = powerloop s1 n1 n2 n.
Proof.
  intros Hn1 Hn2 Hn. unfold powerloop.
  apply powerloop_from_fuel; [lia|lia|].
  pose proof (Nat.pow_gt_lin_r 2 (S n) ltac:(lia)) as Hpow.
  replace (2 * s1 + n1 + n1 + n2 - (2 * s1 + n1)) with (n1 + n2) by lia.
  nia.
Qed.


End list_sort_facts_general.

(** ** The order of the events *)

Section event_order_facts.
Import WorkHistory.


Lemma compare_events_rule a b :
  compare_events a b =
    match editid a, editid b with
    | Some ea, Some eb => if ea =? eb then ts a - ts b else ea - eb
    | _, _ => ts a - ts b
    end.
Proof.
  unfold compare_events.
  destruct (editid a) as [ea|], (editid b) as [eb|]; try reflexivity.
  cbv zeta. destruct (Z.eqb_spec (ea - eb) 0), (Z.eqb_spec ea eb);
    cbn; try reflexivity; lia.
Qed.

Lemma compare_events_antisym a b : compare_events a b = - compare_events b a.
Proof.
  rewrite !compare_events_rule.
  destruct (editid a) as [ea|], (editid b) as [eb|]; try lia.
  destruct (Z.eqb_spec ea eb), (Z.eqb_spec eb ea); lia.
Qed.

Lemma lt_events_asym a b :
  PySort.cmp_to_key compare_events a b = true →
  PySort.cmp_to_key compare_events b a = false.
Proof.
  unfold PySort.cmp_to_key. rewrite (compare_events_antisym b a).
  intros H%Z.ltb_lt. apply Z.ltb_ge. lia.
Qed.

Lemma not_lt_events a b :
  PySort.cmp_to_key compare_events b a = false ↔ compare_events a b ≤ 0.
Proof.
  unfold PySort.cmp_to_key. rewrite Z.ltb_ge, (compare_events_antisym b a).
  lia.
Qed.

Lemma le_events_trans_editid x y z :
  is_Some (editid x) → is_Some (editid y) → is_Some (editid z) →
  compare_events x y ≤ 0 → compare_events y z ≤ 0 → compare_events x z ≤ 0.
Proof.
  intros Hx Hy Hz. rewrite !compare_events_rule.
  destruct (editid x) as [ex|]; [|by destruct Hx].
  destruct (editid y) as [ey|]; [|by destruct Hy].
  destruct (editid z) as [ez|]; [|by destruct Hz].
  destruct (Z.eqb_spec ex ey), (Z.eqb_spec ey ez), (Z.eqb_spec ex ez); lia.
Qed.

Lemma le_events_trans_no_editid x y z :
  editid x = None → editid y = None → editid z = None →
  compare_events x y ≤ 0 → compare_events y z ≤ 0 → compare_events x z ≤ 0.
Proof.
  intros Hx Hy Hz. rewrite !compare_events_rule.
  destruct (editid x); [discriminate|].
  destruct (editid y); [discriminate|]. lia.
Qed.

Lemma events_init file_events sortworkhistory :
  (events (init file_events sortworkhistory)).2 =
    if sortworkhistory
    then PySort.sort (PySort.cmp_to_key compare_events) file_events
    else file_events.
Proof. reflexivity. Qed.



End event_order_facts.




(** C5. Sorting a list of events, of any length, with the comparator of
    the work history and sorting the result again gives the list that
    sorting once gives: the sorted list has no event less than the one
    before it, so that [list.sort] finds it to be one run and leaves it as
    it is. *)
Theorem sort_events_idempotent (l : list Event) :
  let sort :=
    ListObject.list_sort (PySort.cmp_to_key WorkHistory.compare_events) in
  sort (sort l) = sort l.
Proof.
  intros sort. apply list_sort_fixes_nondescending.
  apply list_sort_spec, lt_events_asym.
Qed.

(** ** Storage *)

Section str_lt_facts.
Import PySort.

Lemma nat_of_ascii_inj x y : nat_of_ascii x = nat_of_ascii y → x = y.
Proof.
  intros H. rewrite <- (ascii_nat_embedding x), <- (ascii_nat_embedding y), H.
  reflexivity.
Qed.

Lemma str_lt_asym a : ∀ b, str_lt a b = true → str_lt b a = false.
Proof.
  induction a as [|x a IH]; intros [|y b]; cbn [str_lt]; try done.
  destruct (Nat.ltb_spec (nat_of_ascii x) (nat_of_ascii y)),
    (Nat.ltb_spec (nat_of_ascii y) (nat_of_ascii x)); try done; try lia.
  apply IH.
Qed.

Lemma str_le_trans a : ∀ b c,
  str_lt b a = false → str_lt c b = false → str_lt c a = false.
Proof.
  induction a as [|x a IH]; intros [|y b] [|z c]; cbn [str_lt]; try done.
  destruct (Nat.ltb_spec (nat_of_ascii x) (nat_of_ascii y)),
    (Nat.ltb_spec (nat_of_ascii y) (nat_of_ascii x)),
    (Nat.ltb_spec (nat_of_ascii y) (nat_of_ascii z)),
    (Nat.ltb_spec (nat_of_ascii z) (nat_of_ascii y)),
    (Nat.ltb_spec (nat_of_ascii x) (nat_of_ascii z)),
    (Nat.ltb_spec (nat_of_ascii z) (nat_of_ascii x));
    try done; try lia.
  apply IH.
Qed.

Lemma str_lt_total a : ∀ b, str_lt a b = false → str_lt b a = false → a = b.
Proof.
  induction a as [|x a IH]; intros [|y b]; cbn [str_lt]; try done.
  destruct (Nat.ltb_spec (nat_of_ascii x) (nat_of_ascii y)),
    (Nat.ltb_spec (nat_of_ascii y) (nat_of_ascii x)); try done.
  intros Hab Hba. f_equal; [apply nat_of_ascii_inj; lia|].
  apply IH; assumption.
Qed.

Lemma StronglySorted_strict (l : list str) :
  NoDup l →
  StronglySorted (λ a b, str_lt b a = false) l →
  StronglySorted (λ a b, str_lt a b = true) l.
Proof.
  intros Hnodup. induction 1 as [|x l _ IH Hx]; constructor.
  - apply IH. apply NoDup_cons in Hnodup as [_ H]. exact H.
  - apply NoDup_cons in Hnodup as [Hnotin _].
    rewrite Forall_forall in Hx. apply Forall_forall. intros y Hy.
    destruct (str_lt x y) eqn:Hxy; [reflexivity|]. exfalso.
    apply Hnotin. rewrite (str_lt_total x y Hxy (Hx y Hy)). exact Hy.
Qed.

Lemma sort_str_StronglySorted (l : list str) :
  NoDup l → StronglySorted (λ a b, str_lt a b = true) (sort str_lt l).
Proof.
  intros Hnodup. apply StronglySorted_strict.
  - rewrite sort_Permutation. exact Hnodup.
  - apply (nondescending_StronglySorted _ (λ _, True)).
    + intros x y z _ _ _. apply str_le_trans.
    + apply Forall_forall. done.
    + apply sort_nondescending. intros x y. apply str_lt_asym.
Qed.

End str_lt_facts.

Section listdir_facts.
Import ProgsnapZipfile.

Lemma startswith_app pfx rest : Py.startswith (pfx ++ rest) pfx = true.
Proof.
  induction pfx as [|c pfx IH]; cbn; [destruct rest; reflexivity|].
  rewrite bool_decide_eq_true_2 by reflexivity. exact IH.
Qed.

Lemma startswith_inv pfx : ∀ fname,
  Py.startswith fname pfx = true → ∃ rest, fname = pfx ++ rest.
Proof.
  induction pfx as [|c pfx IH]; intros fname H; cbn in H.
  - exists fname. reflexivity.
  - destruct fname as [|x fname]; [discriminate|].
    apply andb_true_iff in H as [Hx H]. apply bool_decide_eq_true in Hx.
    destruct (IH _ H) as [rest ->]. exists rest. subst x. reflexivity.
Qed.

Lemma first_segment_absent s : SLASH ∉ s → first_segment s = s.
Proof.
  induction s as [|c s IH]; intros H; cbn; [reflexivity|].
  apply not_elem_of_cons in H as [Hc Hs].
  destruct (decide (c = SLASH)); [congruence|]. rewrite IH by exact Hs.
  reflexivity.
Qed.

Lemma first_segment_first s1 s2 :
  SLASH ∉ s1 → first_segment (s1 ++ SLASH :: s2) = s1.
Proof.
  induction s1 as [|c s1 IH]; intros H; cbn.
  - destruct (decide (SLASH = SLASH)); done.
  - apply not_elem_of_cons in H as [Hc Hs].
    destruct (decide (c = SLASH)); [congruence|]. rewrite IH by exact Hs.
    reflexivity.
Qed.

Lemma find_0 c s : Py.find c s 0 = Py.find_from c s 0.
Proof.
  unfold Py.find. rewrite clamp_id by (pose proof (len_nonneg s); lia).
  reflexivity.
Qed.

Lemma slice_0 s1 s2 : Py.slice (s1 ++ s2) 0 (Py.len s1) = s1.
Proof.
  pose proof (len_nonneg s1). pose proof (len_nonneg s2).
  unfold Py.slice. rewrite !clamp_id by (rewrite len_app; lia).
  rewrite Z.sub_0_r. unfold Py.len. rewrite Nat2Z.id. cbn [Z.to_nat drop].
  apply take_app_length.
Qed.

Lemma member_of_under pfx rest :
  rest ≠ [] → head rest ≠ Some SLASH →
  member_of pfx (pfx ++ rest) = Some (first_segment rest).
Proof.
  intros Hne Hhd. unfold member_of.
  rewrite startswith_app, slice_from_app, bool_decide_eq_true_2 by exact Hne.
  f_equal. rewrite find_0.
  destruct (decide (SLASH ∈ rest)) as [Hin|Hnotin].
  - apply list_elem_of_split_l in Hin as (s1 & s2 & -> & Hs1).
    rewrite find_from_first, first_segment_first by exact Hs1.
    destruct s1 as [|c s1]; [done|].
    pose proof (len_nonneg s1). rewrite Z.add_0_l.
    destruct (Z.gtb_spec (Py.len (c :: s1)) 0) as [_|Hle];
      [|rewrite len_cons in Hle; lia].
    apply slice_0.
  - rewrite find_from_absent, first_segment_absent by exact Hnotin.
    reflexivity.
Qed.

Lemma member_of_not_under pfx fname :
  Py.startswith fname pfx = false ∨ fname = pfx → member_of pfx fname = None.
Proof.
  intros [H| ->]; unfold member_of.
  - rewrite H. reflexivity.
  - pose proof (startswith_app pfx []) as Hpfx. rewrite app_nil_r in Hpfx.
    rewrite Hpfx, slice_from_len. reflexivity.
Qed.

Lemma elem_of_members pfx entries name :
  name ∈ members pfx entries
  ↔ ∃ fname, fname ∈ entries ∧ member_of pfx fname = Some name.
Proof.
  unfold members.
  enough (H : ∀ (acc : gset str),
    name ∈ foldl (λ result fname,
                    match member_of pfx fname with
                    | Some member => {[ member ]} ∪ result
                    | None => result
                    end) acc entries
    ↔ name ∈ acc ∨ ∃ fname, fname ∈ entries ∧ member_of pfx fname = Some name).
  { rewrite H. split; [intros [Hempty|Hex]|intros Hex].
    - apply elem_of_empty in Hempty. done.
    - exact Hex.
    - right. exact Hex. }
  induction entries as [|fname entries IH]; intros acc; cbn [foldl].
  - split; [intros H; left; exact H|intros [H|(fname & Hin & _)]].
    + exact H.
    + apply elem_of_nil in Hin. done.
  - rewrite IH. split.
    + intros [Hacc|(f & Hin & Hf)].
      * destruct (member_of pfx fname) as [member|] eqn:Hm;
          [|left; exact Hacc].
        apply elem_of_union in Hacc as [Hs|Hacc]; [|left; exact Hacc].
        apply elem_of_singleton in Hs as ->. right. exists fname.
        split; [apply list_elem_of_here|exact Hm].
      * right. exists f. split; [apply list_elem_of_further, Hin|exact Hf].
    + intros [Hacc|(f & Hin & Hf)].
      * left. destruct (member_of pfx fname); [|exact Hacc].
        apply elem_of_union. right. exact Hacc.
      * apply elem_of_cons in Hin as [->|Hin].
        -- left. rewrite Hf. apply elem_of_union. left.
           apply elem_of_singleton. reflexivity.
        -- right. exists f. split; assumption.
Qed.

End listdir_facts.

(** C8, as the claim states it, fails for the directory backend: its
    listing is the one of the operating system, in the order it comes. A
    system that lists "b" before "a" makes [listdir] return "b" before
    "a". *)
Lemma listdir_directory_unsorted :
  ProgsnapDirectory.listdir (λ _, [lit "b"; lit "a"])
    (ProgsnapDirectory.Make (lit "data")) (lit "history")
  = [lit "b"; lit "a"]
  ∧ ¬ nondescending PySort.str_lt
        (ProgsnapDirectory.listdir (λ _, [lit "b"; lit "a"])
           (ProgsnapDirectory.Make (lit "data")) (lit "history")).
Proof.
  split; [reflexivity|]. intros H.
  specialize (H 0%nat (lit "b") (lit "a") eq_refl eq_refl). discriminate.
Qed.

(** C8, amended. The listing of the archive backend is in strictly
    ascending order, so sorted and without duplicates; its names are the
    members that the entries of the archive stand for; only an entry whose
    name is [path], a slash and some more text stands for a member, and
    when that text does not begin with a slash the member is the first
    path segment of it. The listing of the directory backend is the
    operating system's listing of [basedir/path], as it comes. *)
Theorem listdir_archive_sorted (self : ProgsnapZipfile.t) (path : str) :
  let pfx := path ++ [SLASH] in
  let names := ProgsnapZipfile.listdir self path in
  StronglySorted (λ a b, PySort.str_lt a b = true) names
  ∧ NoDup names
  ∧ (∀ name,
       name ∈ names
       ↔ ∃ fname, fname ∈ ProgsnapZipfile.infolist self
                  ∧ ProgsnapZipfile.member_of pfx fname = Some name)
  ∧ (∀ fname,
       ProgsnapZipfile.member_of pfx fname ≠ None →
       ∃ rest, fname = pfx ++ rest ∧ rest ≠ [])
  ∧ (∀ rest,
       rest ≠ [] → head rest ≠ Some SLASH →
       ProgsnapZipfile.member_of pfx (pfx ++ rest)
       = Some (first_segment rest))
  ∧ (∀ os_listdir d,
       ProgsnapDirectory.listdir os_listdir d path
       = os_listdir (ProgsnapDirectory._basedir d ++ SLASH :: path)).
Proof.
  intros pfx names. subst names. unfold ProgsnapZipfile.listdir. fold pfx.
  split_and!.
  - apply sort_str_StronglySorted, NoDup_elements.
  - rewrite sort_Permutation. apply NoDup_elements.
  - intros name. rewrite sort_Permutation, elem_of_elements.
    apply elem_of_members.
  - intros fname Hsome.
    destruct (Py.startswith fname pfx) eqn:Hpfx.
    + destruct (startswith_inv _ _ Hpfx) as [rest ->]. exists rest.
      split; [reflexivity|]. intros ->. apply Hsome.
      apply member_of_not_under. right. apply app_nil_r.
    + exfalso. apply Hsome, member_of_not_under. left. exact Hpfx.
  - intros rest. apply member_of_under.
  - reflexivity.
Qed.

Lemma listdir_archive_sorted_witness :
  ProgsnapZipfile.member_of (lit "history/") (lit "history/2/a.txt")
  = Some (lit "2")
  ∧ ProgsnapZipfile.listdir
      (ProgsnapZipfile.Make
         [lit "history/2/a.txt"; lit "history/10"; lit "history/2/b";
          lit "other/x"; lit "history/"])
      (lit "history")
    = [lit "10"; lit "2"].
Proof.
  split; [|reflexivity].
  apply (listdir_archive_sorted (ProgsnapZipfile.Make []) (lit "history")).
  - discriminate.
  - discriminate.
Defined.

(** ** TextDocument: the lines of the buffer *)

Section lines_facts.
Import TextDocument.
Implicit Types (text pre tail line : str) (lines : list str).

(** The text made of the lines [lines], each ended by a newline, and of
    the text [tail] after the last newline. *)
#[local] Abbreviation terminated lines :=
  (concat (map (λ line : str, line ++ [NL]) lines)).

Lemma text_lines text :
  ∃ lines tail,
    text = terminated lines ++ tail
    ∧ Forall (λ line, NL ∉ line) lines ∧ NL ∉ tail.
Proof.
  induction text as [|c text (lines & tail & -> & Hlines & Htail)].
  - exists [], []. split; [reflexivity|]. split; [constructor|].
    apply not_elem_of_nil.
  - destruct (decide (c = NL)) as [->|Hc].
    + exists ([] :: lines), tail. split; [reflexivity|].
      split; [|exact Htail]. constructor; [apply not_elem_of_nil|exact Hlines].
    + destruct lines as [|line lines].
      * exists [], (c :: tail). split; [reflexivity|].
        split; [constructor|]. apply not_elem_of_cons. split; [congruence|].
        exact Htail.
      * exists ((c :: line) :: lines), tail. split; [reflexivity|].
        apply Forall_cons_1 in Hlines as [Hline Hlines].
        split; [|exact Htail]. constructor; [|exact Hlines].
        apply not_elem_of_cons. split; [congruence|exact Hline].
Qed.

Lemma line_chunks_from_lines lines : ∀ pre tail fuel,
  Forall (λ line, NL ∉ line) lines →
  NL ∉ tail →
  (length lines + (if decide (tail = []) then 0 else 1) ≤ fuel)%nat →
  line_chunks_from fuel (pre ++ terminated lines ++ tail) (Py.len pre)
  = map (λ line, line ++ [NL]) lines
    ++ (if decide (tail = []) then [] else [tail]).
Proof.
  induction lines as [|line lines IH]; intros pre tail fuel Hlines Htail Hfuel.
  - cbn [map concat app length] in *.
    destruct (decide (tail = [])) as [->|Hne].
    + rewrite app_nil_r. destruct fuel as [|fuel]; [reflexivity|].
      cbn [line_chunks_from]. rewrite Z.ltb_irrefl. reflexivity.
    + destruct fuel as [|fuel]; [lia|]. cbn [line_chunks_from].
      pose proof (len_nonneg pre). rewrite len_app.
      destruct tail as [|c tail]; [done|]. rewrite len_cons.
      pose proof (len_nonneg tail).
      destruct (Z.ltb_spec (Py.len pre) (Py.len pre + (1 + Py.len tail)));
        [|lia].
      rewrite find_app, find_from_absent by exact Htail. cbn.
      rewrite slice_from_app. reflexivity.
  - apply Forall_cons_1 in Hlines as [Hline Hlines].
    destruct fuel as [|fuel];
      [cbn [length] in Hfuel; destruct (decide (tail = [])); lia|].
    cbn [map concat app length] in *. cbn [line_chunks_from].
    pose proof (len_nonneg pre). pose proof (len_nonneg line).
    rewrite <- !app_assoc. cbn [app].
    set (rest := terminated lines ++ tail).
    pose proof (len_nonneg rest).
    rewrite !len_app, len_cons.
    destruct (Z.ltb_spec (Py.len pre)
                (Py.len pre + (Py.len line + (1 + Py.len rest)))); [|lia].
    rewrite find_app, find_from_first by exact Hline.
    destruct (Z.ltb_spec (Py.len pre + Py.len line) 0); [lia|].
    f_equal.
    + change (pre ++ line ++ NL :: rest) with (pre ++ line ++ [NL] ++ rest).
      rewrite (app_assoc line [NL] rest).
      replace (Py.len pre + Py.len line + 1)
        with (Py.len pre + Py.len (line ++ [NL]))
        by (rewrite len_app; change (Py.len [NL]) with 1; lia).
      apply slice_app_mid.
    + specialize (IH (pre ++ line ++ [NL]) tail fuel Hlines Htail).
      rewrite <- !app_assoc in IH. cbn [app] in IH.
      rewrite !len_app in IH. change (Py.len [NL]) with 1 in IH.
      replace (Py.len pre + (Py.len line + 1))
        with (Py.len pre + Py.len line + 1) in IH by lia.
      apply IH. destruct (decide (tail = [])); lia.
Qed.

Lemma line_chunks_lines lines tail :
  Forall (λ line, NL ∉ line) lines →
  NL ∉ tail →
  _line_chunks (terminated lines ++ tail)
  = map (λ line, line ++ [NL]) lines
    ++ (if decide (tail = []) then [] else [tail]).
Proof.
  intros Hlines Htail. unfold _line_chunks.
  apply (line_chunks_from_lines lines [] tail _ Hlines Htail).
  rewrite length_app.
  assert (length lines ≤ length (terminated lines))%nat.
  { clear. induction lines as [|line lines IH]; cbn; [lia|].
    rewrite !length_app. cbn. lia. }
  destruct (decide (tail = [])) as [->|Hne]; [lia|].
  destruct tail; [done|]. cbn. lia.
Qed.

End lines_facts.

Section lines_theorems.
Import TextDocument.
Implicit Types (text pre tail line : str) (lines : list str).

#[local] Abbreviation terminated' lines :=
  (concat (map (λ line : str, line ++ [NL]) lines)).

Lemma concat_chunks lines tail :
  concat (map (λ line, line ++ [NL]) lines
          ++ (if decide (tail = []) then [] else [tail]))
  = terminated' lines ++ tail.
Proof.
  rewrite concat_app. f_equal.
  destruct (decide (tail = [])) as [->|_]; [reflexivity|].
  cbn. apply app_nil_r.
Qed.

Lemma get_line_from_lookup (chunks : list str) : ∀ count index,
  get_line_from chunks count index =
    if index <? count then Raise (Progsnap (NoSuchLine index))
    else match chunks !! Z.to_nat (index - count) with
         | Some line => Ok line
         | None => Raise (Progsnap (NoSuchLine index))
         end.
Proof.
  induction chunks as [|chunk chunks IH]; intros count index;
    cbn [get_line_from].
  - destruct (index <? count); reflexivity.
  - destruct (Z.eqb_spec count index) as [->|Hne].
    + rewrite Z.ltb_irrefl, Z.sub_diag. reflexivity.
    + rewrite IH.
      destruct (Z.ltb_spec index (count + 1)), (Z.ltb_spec index count);
        try lia; try reflexivity.
      replace (Z.to_nat (index - count))
        with (S (Z.to_nat (index - (count + 1)))) by lia.
      reflexivity.
Qed.

Lemma skip_rows_terminated lines : ∀ pre tail row n,
  Forall (λ line, NL ∉ line) lines →
  NL ∉ tail →
  skip_rows (pre ++ terminated' lines ++ tail) row n (Py.len pre) =
    if decide (n ≤ length lines)%nat
    then Ok (Py.len pre + Py.len (terminated' (take n lines)))
    else Raise (Progsnap (NoSuchLine row)).
Proof.
  induction lines as [|line lines IH]; intros pre tail row n Hlines Htail.
  - destruct n as [|n]; cbn [skip_rows map concat app take length].
    + rewrite decide_True by lia. rewrite len_nil, Z.add_0_r. reflexivity.
    + rewrite decide_False by lia.
      rewrite find_app, find_from_absent by exact Htail. reflexivity.
  - apply Forall_cons_1 in Hlines as [Hline Hlines].
    destruct n as [|n]; cbn [skip_rows map concat app take length].
    + rewrite decide_True by lia. rewrite len_nil, Z.add_0_r. reflexivity.
    + rewrite <- !app_assoc. cbn [app].
      rewrite find_app, find_from_first by exact Hline.
      pose proof (len_nonneg pre). pose proof (len_nonneg line).
      destruct (Z.ltb_spec (Py.len pre + Py.len line) 0); [lia|].
      specialize (IH (pre ++ line ++ [NL]) tail row n Hlines Htail).
      rewrite <- !app_assoc in IH. cbn [app] in IH.
      rewrite !len_app in IH. change (Py.len [NL]) with 1 in IH.
      replace (Py.len pre + (Py.len line + 1))
        with (Py.len pre + Py.len line + 1) in IH by lia.
      rewrite IH.
      destruct (decide (n ≤ length lines)%nat);
        [rewrite decide_True by lia|rewrite decide_False by lia];
        [|reflexivity].
      f_equal. rewrite !len_app, len_cons. lia.
Qed.

Lemma take_chunks lines tail n :
  (n ≤ length lines)%nat →
  concat (take n (map (λ line, line ++ [NL]) lines
                  ++ (if decide (tail = []) then [] else [tail])))
  = terminated' (take n lines).
Proof.
  intros Hn. rewrite take_app_le by (rewrite length_map; exact Hn).
  rewrite <- fmap_take. reflexivity.
Qed.

Lemma count_text lines tail :
  Forall (λ line, NL ∉ line) lines → NL ∉ tail →
  Py.count NL (terminated' lines ++ tail) = Z.of_nat (length lines).
Proof.
  intros Hlines Htail. rewrite count_app, (count_terminated _ Hlines).
  apply count_zero in Htail. rewrite Htail. lia.
Qed.

Lemma get_pos_lines lines tail row col :
  Forall (λ line, NL ∉ line) lines → NL ∉ tail →
  _get_pos (Doc (terminated' lines ++ tail)) row col =
    if Z.of_nat (length lines) <? row
    then Raise (Progsnap (NoSuchLine row))
    else
      let pos := Py.len (terminated' (take (Z.to_nat row) lines)) + col in
      if pos >? Py.len (terminated' lines ++ tail)
      then Raise (Progsnap (PositionOutOfBounds row col pos
                              (Py.len (terminated' lines ++ tail))))
      else Ok pos.
Proof.
  intros Hlines Htail. unfold _get_pos. cbn [_text].
  pose proof (skip_rows_terminated lines [] tail row (Z.to_nat row)
                Hlines Htail) as Hskip.
  cbn [app] in Hskip. rewrite len_nil, Z.add_0_l in Hskip. rewrite Hskip.
  destruct (Z.ltb_spec (Z.of_nat (length lines)) row).
  - rewrite decide_False by lia. reflexivity.
  - rewrite decide_True by lia. reflexivity.
Qed.

End lines_theorems.

(** X1. The chunks that [_line_chunks] yields are the lines of the text:
    put together they give the text back, and each chunk is a line with
    the newline that ends it, or, as the last chunk only, a non-empty line
    that no newline ends. *)
Theorem line_chunks_partition (text : str) :
  concat (_line_chunks text) = text
  ∧ ∀ i chunk,
      (_line_chunks text) !! i = Some chunk →
      ∃ line, (NL ∉ line)
              ∧ (chunk = line ++ [NL]
                 ∨ (chunk = line ∧ line ≠ []
                    ∧ S i = length (_line_chunks text))).
Proof.
  destruct (text_lines text) as (lines & tail & -> & Hlines & Htail).
  rewrite (line_chunks_lines _ _ Hlines Htail). split.
  - apply concat_chunks.
  - intros i chunk Hi. apply lookup_app_Some in Hi as [Hi|[Hlen Hi]].
    + rewrite list_lookup_fmap in Hi.
      destruct (lines !! i) as [line|] eqn:Hline; [|discriminate].
      injection Hi as <-. exists line. split; [|left; reflexivity].
      rewrite Forall_forall in Hlines. apply Hlines.
      apply list_elem_of_lookup. exists i. exact Hline.
    + rewrite length_map in Hlen, Hi.
      destruct (decide (tail = [])) as [->|Hne]; [discriminate|].
      apply list_lookup_singleton_Some in Hi as [Hi <-].
      exists tail. split; [exact Htail|]. right.
      split; [reflexivity|]. split; [exact Hne|].
      rewrite length_app, length_map. cbn. lia.
Qed.

(** X2. For a buffer that is not empty, [get_num_lines] is the number of
    chunks that [_line_chunks] yields, so the number of lines that
    [get_line] can return. *)
Theorem get_num_lines_counts_chunks (text : str) :
  text ≠ [] →
  TextDocument.get_num_lines (TextDocument.Doc text)
  = Z.of_nat (length (_line_chunks text)).
Proof.
  destruct (text_lines text) as (lines & tail & -> & Hlines & Htail).
  intros Hne. rewrite (line_chunks_lines _ _ Hlines Htail).
  rewrite (get_num_lines_nonempty _ _ Hlines Htail).
  - rewrite length_app, length_map.
    destruct (decide (tail = [])); cbn [length]; lia.
  - destruct lines as [|line lines]; [|left; discriminate].
    right. intros ->. apply Hne. reflexivity.
Qed.

Lemma get_num_lines_counts_chunks_witness :
  TextDocument.get_num_lines (TextDocument.Doc (lit "ab" ++ NL :: lit "c"))
  = Z.of_nat (length (_line_chunks (lit "ab" ++ NL :: lit "c"))).
Proof.
  apply (get_num_lines_counts_chunks (lit "ab" ++ NL :: lit "c")).
  discriminate.
Defined.

(** X3. [get_line] returns the chunk at the index, counted from 0, and
    raises "No such line" for every other index: an index from the number
    of chunks on, and every negative index (indices do not count back
    from the end). *)
Theorem get_line_lookup (d : TextDocument.t) (index : Z) :
  TextDocument.get_line d index =
    if index <? 0 then Raise (Progsnap (NoSuchLine index))
    else match (_line_chunks (TextDocument._text d)) !! Z.to_nat index with
         | Some line => Ok line
         | None => Raise (Progsnap (NoSuchLine index))
         end.
Proof.
  unfold TextDocument.get_line. rewrite get_line_from_lookup, Z.sub_0_r.
  reflexivity.
Qed.

(** X4. [_get_pos] resolves (row, col) against the lines of the buffer:
    it raises "No such line" when the buffer has fewer than [row]
    newlines; otherwise the position is the length of the first [row]
    chunks plus [col], out of bounds when it is past the end of the
    buffer. A row that is not positive is row 0. *)
Theorem get_pos_row_offset (d : TextDocument.t) (row col : Z) :
  TextDocument._get_pos d row col =
    let text := TextDocument._text d in
    if Py.count NL text <? row then Raise (Progsnap (NoSuchLine row))
    else
      let pos :=
        Py.len (concat (take (Z.to_nat row) (_line_chunks text))) + col in
      if pos >? Py.len text
      then Raise (Progsnap (PositionOutOfBounds row col pos (Py.len text)))
      else Ok pos.
Proof.
  destruct d as [text]. cbn [TextDocument._text]. cbv zeta.
  destruct (text_lines text) as (lines & tail & -> & Hlines & Htail).
  rewrite (get_pos_lines _ _ _ _ Hlines Htail), (count_text _ _ Hlines Htail).
  destruct (Z.ltb_spec (Z.of_nat (length lines)) row); [reflexivity|].
  rewrite (line_chunks_lines _ _ Hlines Htail), take_chunks by lia.
  reflexivity.
Qed.

(** X5. The line that [get_line] returns for a row is the text of the
    buffer at the position that [_get_pos] gives for column 0 of that
    row. *)
Theorem get_line_at_pos (d : TextDocument.t) (row : Z) (line : str) :
  TextDocument.get_line d row = Ok line →
  ∃ pos,
    TextDocument._get_pos d row 0 = Ok pos
    ∧ Py.slice (TextDocument._text d) pos (pos + Py.len line) = line.
Proof.
  destruct d as [text]. unfold TextDocument.get_line.
  cbn [TextDocument._text].
  destruct (text_lines text) as (lines & tail & -> & Hlines & Htail).
  rewrite get_line_from_lookup, Z.sub_0_r,
    (line_chunks_lines _ _ Hlines Htail), (get_pos_lines _ _ _ _ Hlines Htail).
  destruct (Z.ltb_spec row 0) as [|Hrow]; [discriminate|].
  set (n := Z.to_nat row).
  destruct ((_ ++ _) !! n) as [chunk|] eqn:Hn; [|discriminate].
  intros [= ->]. cbv zeta. rewrite Z.add_0_r.
  set (chunks := concat (map (λ l, l ++ [NL]) lines)) in *.
  apply lookup_app_Some in Hn as [Hn|[Hlen Hn]].
  - rewrite list_lookup_fmap in Hn.
    destruct (lines !! n) as [l|] eqn:Hl; [|discriminate].
    injection Hn as <-.
    pose proof (lookup_lt_Some _ _ _ Hl) as Hlt.
    destruct (Z.ltb_spec (Z.of_nat (length lines)) row); [lia|].
    assert (Hsplit : chunks ++ tail
              = concat (map (λ l, l ++ [NL]) (take n lines))
                ++ (l ++ [NL])
                ++ (concat (map (λ l, l ++ [NL]) (drop (S n) lines)) ++ tail)).
    { subst chunks. rewrite <- (take_drop_middle lines n l Hl) at 1.
      rewrite map_app, concat_app. cbn [map concat].
      rewrite <- !app_assoc. reflexivity. }
    rewrite Hsplit. set (pre := concat (map _ (take n lines))).
    set (mid := l ++ [NL]). set (post := concat _ ++ tail).
    pose proof (len_nonneg pre). pose proof (len_nonneg (mid ++ post)).
    destruct (Z.gtb_spec (Py.len pre) (Py.len (pre ++ mid ++ post)))
      as [Hgt|_]; [rewrite len_app in Hgt; lia|].
    exists (Py.len pre). split; [reflexivity|]. apply slice_app_mid.
  - rewrite length_map in Hlen, Hn.
    destruct (decide (tail = [])) as [->|Hne]; [discriminate|].
    apply list_lookup_singleton_Some in Hn as [Hn <-].
    assert (n = length lines) as Hnl by lia.
    destruct (Z.ltb_spec (Z.of_nat (length lines)) row); [lia|].
    rewrite Hnl, firstn_all. fold chunks.
    pose proof (len_nonneg chunks). pose proof (len_nonneg tail).
    destruct (Z.gtb_spec (Py.len chunks) (Py.len (chunks ++ tail)))
      as [Hgt|_]; [rewrite len_app in Hgt; lia|].
    exists (Py.len chunks). split; [reflexivity|].
    rewrite <- (app_nil_r tail) at 1. apply slice_app_mid.
Qed.

Lemma get_line_at_pos_witness :
  ∃ pos,
    TextDocument._get_pos
      (TextDocument.Doc (lit "ab" ++ NL :: lit "cd" ++ NL :: lit "e")) 1 0
    = Ok pos
    ∧ Py.slice (lit "ab" ++ NL :: lit "cd" ++ NL :: lit "e") pos
        (pos + Py.len (lit "cd" ++ [NL]))
      = lit "cd" ++ [NL].
Proof.
  apply (get_line_at_pos
           (TextDocument.Doc (lit "ab" ++ NL :: lit "cd" ++ NL :: lit "e")) 1).
  reflexivity.
Defined.

(** ** TextDocument: edits undo each other *)

Section round_trip_facts.
Import TextDocument.
Implicit Types (d : t) (text pre post : str).

(** The position of (row, col), for a column that is not negative, lies
    inside the buffer and depends on the text before it only. *)
Lemma get_pos_stable pre post post' row col :
  _get_pos (Doc (pre ++ post)) row col = Ok (Py.len pre) →
  0 ≤ col →
  _get_pos (Doc (pre ++ post')) row col = Ok (Py.len pre).
Proof.
  intros Hpos Hcol.
  destruct (text_lines (pre ++ post)) as (lines & tail & Hbuf & Hlines & Htail).
  rewrite Hbuf, (get_pos_lines _ _ _ _ Hlines Htail) in Hpos.
  destruct (Z.ltb_spec (Z.of_nat (length lines)) row) as [|Hrow];
    [discriminate|].
  cbv zeta in Hpos. destruct (_ >? _); [discriminate|].
  injection Hpos as Hpos.
  set (n := Z.to_nat row) in *.
  set (rowpre := concat (map (λ line, line ++ [NL]) (take n lines))) in *.
  assert (Hn : (n ≤ length lines)%nat) by lia.
  assert (Hsplit : pre ++ post
            = rowpre ++ concat (map (λ line, line ++ [NL]) (drop n lines))
                     ++ tail).
  { rewrite Hbuf, <- (take_drop n lines) at 1.
    rewrite map_app, concat_app, <- app_assoc. reflexivity. }
  assert (Hpre : pre = rowpre ++ take (length pre - length rowpre)
                                   (concat (map (λ line, line ++ [NL])
                                              (drop n lines)) ++ tail)).
  { rewrite <- take_app_ge by (unfold Py.len in Hpos; lia).
    rewrite <- Hsplit, take_app_length. reflexivity. }
  rewrite Hpre at 1. rewrite <- app_assoc. unfold _get_pos. cbn [_text].
  pose proof (skip_rows_lines row n [] rowpre) as Hskip.
  cbn [app] in Hskip. rewrite len_nil, Z.add_0_l in Hskip.
  rewrite Hskip.
  - cbn. rewrite Hpos, app_assoc, <- Hpre.
    pose proof (len_nonneg post').
    destruct (Z.gtb_spec (Py.len pre) (Py.len (pre ++ post'))) as [Hgt|_];
      [rewrite len_app in Hgt; lia|reflexivity].
  - subst rowpre. rewrite count_terminated.
    + rewrite length_take. lia.
    + apply Forall_take, Hlines.
  - destruct (take n lines) as [|l ls] eqn:Htake; [left; reflexivity|right].
    subst rowpre. apply endswith_terminated. discriminate.
Qed.

Lemma get_pos_range d row col pos :
  _get_pos d row col = Ok pos → 0 ≤ col → 0 ≤ pos ≤ Py.len (_text d).
Proof.
  destruct d as [buf]. cbn [_text]. intros Hpos Hcol.
  destruct (text_lines buf) as (lines & tail & -> & Hlines & Htail).
  rewrite (get_pos_lines _ _ _ _ Hlines Htail) in Hpos.
  destruct (Z.ltb_spec (Z.of_nat (length lines)) row); [discriminate|].
  cbv zeta in Hpos.
  destruct (Z.gtb_spec
              (Py.len (concat (map (λ line, line ++ [NL])
                                 (take (Z.to_nat row) lines))) + col)
              (Py.len (concat (map (λ line, line ++ [NL]) lines) ++ tail)));
    [discriminate|].
  injection Hpos as <-.
  pose proof (len_nonneg (concat (map (λ line, line ++ [NL])
                                    (take (Z.to_nat row) lines)))).
  lia.
Qed.

(** The buffer around a position inside it. *)
Lemma buffer_split (buf : str) pos :
  0 ≤ pos ≤ Py.len buf →
  buf = Py.slice_to buf pos ++ Py.slice_from buf pos
  ∧ Py.len (Py.slice_to buf pos) = pos.
Proof.
  intros Hpos. unfold Py.slice_to, Py.slice_from.
  rewrite clamp_id by exact Hpos. split.
  - symmetry. apply take_drop.
  - unfold Py.len in *. rewrite length_take. lia.
Qed.

End round_trip_facts.

(** X6. Deleting, at the same (row, col), the text that an insert has just
    put there gives the buffer back, for a column that is not negative. *)
Theorem insert_then_delete (d d' : TextDocument.t) (row col : Z) (text : str) :
  0 ≤ col →
  TextDocument.insert_at d row col text = Ok d' →
  TextDocument.delete_at d' row col text = Ok d.
Proof.
  intros Hcol Hins. unfold TextDocument.insert_at in Hins.
  destruct (TextDocument._get_pos d row col) as [pos|e] eqn:Hpos;
    [|discriminate].
  cbn in Hins. injection Hins as <-.
  destruct d as [buf]. cbn [TextDocument._text] in *.
  pose proof (get_pos_range _ _ _ _ Hpos Hcol) as Hrange.
  cbn [TextDocument._text] in Hrange.
  destruct (buffer_split buf pos Hrange) as [Hbuf Hlen].
  set (pre := Py.slice_to buf pos) in *.
  set (post := Py.slice_from buf pos) in *.
  rewrite Hbuf in Hpos. rewrite <- Hlen in Hpos.
  pose proof (get_pos_stable pre post (text ++ post) row col Hpos Hcol)
    as Hpos'.
  rewrite (delete_at_in_range _ row col text (Py.len pre) Hpos').
  - cbn [TextDocument._text]. cbv zeta.
    rewrite slice_app_mid.
    rewrite bool_decide_eq_false_2 by (intros H; apply H; reflexivity).
    rewrite slice_to_app.
    replace (Py.len pre + Py.len text) with (Py.len (pre ++ text))
      by apply len_app.
    rewrite app_assoc, slice_from_app, <- Hbuf. reflexivity.
  - cbn [TextDocument._text]. rewrite !len_app.
    pose proof (len_nonneg post). lia.
Qed.

Lemma insert_then_delete_witness :
  TextDocument.delete_at
    (TextDocument.Doc (lit "ab" ++ NL :: lit "cXYd")) 1 1 (lit "XY")
  = Ok (TextDocument.Doc (lit "ab" ++ NL :: lit "cd")).
Proof.
  apply (insert_then_delete
           (TextDocument.Doc (lit "ab" ++ NL :: lit "cd"))
           (TextDocument.Doc (lit "ab" ++ NL :: lit "cXYd")) 1 1 (lit "XY")).
  - lia.
  - reflexivity.
Defined.

(** X7. Inserting, at the same (row, col), the text that a delete has just
    removed gives the buffer back, for a column that is not negative and a
    delete that removed all of its text (the buffer got shorter by the
    length of the text: the delete did not go on without a trailing
    newline). *)
Theorem delete_then_insert (d d' : TextDocument.t) (row col : Z) (text : str) :
  0 ≤ col →
  TextDocument.delete_at d row col text = Ok d' →
  Py.len (TextDocument._text d') + Py.len text = Py.len (TextDocument._text d) →
  TextDocument.insert_at d' row col text = Ok d.
Proof.
  intros Hcol Hdel Hlen.
  destruct (TextDocument._get_pos d row col) as [pos|e] eqn:Hpos;
    [|unfold TextDocument.delete_at, TextDocument.delete_at_with in Hdel;
      rewrite Hpos in Hdel; discriminate].
  pose proof (get_pos_range _ _ _ _ Hpos Hcol) as Hrange.
  destruct d as [buf]. cbn [TextDocument._text] in *.
  pose proof (len_nonneg text) as Htext.
  destruct (Z.le_gt_cases (pos + Py.len text) (Py.len buf)) as [Hend|Hend].
  - rewrite (delete_at_in_range _ row col text pos Hpos Hend) in Hdel.
    cbn [TextDocument._text] in Hdel. cbv zeta in Hdel.
    destruct (bool_decide_reflect (Py.slice buf pos (pos + Py.len text) ≠ text))
      as [|Hsaw]; [discriminate|].
    injection Hdel as <-.
    assert (Hsaw' : Py.slice buf pos (pos + Py.len text) = text)
      by (destruct (decide (Py.slice buf pos (pos + Py.len text) = text));
          [assumption|contradiction]).
    destruct (slice_split buf pos (pos + Py.len text)) as (Hbuf & Hpre & _);
      [lia|lia|].
    rewrite Hsaw' in Hbuf.
    set (pre := Py.slice_to buf pos) in *.
    set (post := Py.slice_from buf (pos + Py.len text)) in *.
    rewrite Hbuf in Hpos. rewrite <- Hpre in Hpos.
    pose proof (get_pos_stable pre (text ++ post) post row col Hpos Hcol)
      as Hpos'.
    unfold TextDocument.insert_at. rewrite Hpos'. cbn.
    rewrite slice_to_app, slice_from_app, <- Hbuf. reflexivity.
  - exfalso.
    destruct (decide (pos + Py.len text = Py.len buf + 1
                      ∧ Py.endswith text NL = true)) as [[Hone Hnl]|Hno].
    + apply endswith_inv in Hnl as [text' ->].
      rewrite len_app in Hone, Hlen. change (Py.len [NL]) with 1 in *.
      rewrite (delete_at_drop_newline _ row col text' pos Hpos) in Hdel
        by (cbn [TextDocument._text]; lia).
      rewrite (delete_at_in_range _ row col text' pos Hpos) in Hdel
        by (cbn [TextDocument._text]; lia).
      cbn [TextDocument._text] in Hdel. cbv zeta in Hdel.
      destruct (bool_decide _); [discriminate|].
      injection Hdel as <-. cbn [TextDocument._text] in Hlen.
      replace (pos + Py.len text') with (Py.len buf) in Hlen by lia.
      rewrite slice_from_len, app_nil_r in Hlen.
      destruct (buffer_split buf pos Hrange) as [_ Hpre].
      rewrite Hpre in Hlen. lia.
    + rewrite (delete_at_beyond_end _ row col text pos Hpos) in Hdel;
        [discriminate|cbn [TextDocument._text]; lia|exact Hno].
Qed.

Lemma delete_then_insert_witness :
  TextDocument.insert_at
    (TextDocument.Doc (lit "ab" ++ NL :: lit "cd")) 1 1 (lit "XY")
  = Ok (TextDocument.Doc (lit "ab" ++ NL :: lit "cXYd")).
Proof.
  apply (delete_then_insert
           (TextDocument.Doc (lit "ab" ++ NL :: lit "cXYd"))
           (TextDocument.Doc (lit "ab" ++ NL :: lit "cd")) 1 1 (lit "XY")).
  - lia.
  - reflexivity.
  - reflexivity.
Defined.

(** X8. A negative column is not rejected. On a row that is not positive
    the position is the column itself, and the insert uses it as Python
    uses a negative index: the text goes in that many characters before
    the end of the buffer, or at its start when the buffer is shorter. *)
Theorem insert_at_negative_column (d : TextDocument.t) (row col : Z)
    (text : str) :
  row ≤ 0 → col < 0 →
  let buf := TextDocument._text d in
  let k := Z.to_nat (Py.len buf + col) in
  TextDocument._get_pos d row col = Ok col
  ∧ TextDocument.insert_at d row col text
    = Ok (TextDocument.Doc (take k buf ++ text ++ drop k buf)).
Proof.
  intros Hrow Hcol buf k.
  assert (Hpos : TextDocument._get_pos d row col = Ok col).
  { unfold TextDocument._get_pos.
    replace (Z.to_nat row) with 0%nat by lia. cbn.
    pose proof (len_nonneg (TextDocument._text d)).
    rewrite Z.add_0_l.
    destruct (Z.gtb_spec col (Py.len (TextDocument._text d))); [lia|].
    reflexivity. }
  split; [exact Hpos|].
  unfold TextDocument.insert_at. rewrite Hpos. cbn.
  unfold Py.slice_to, Py.slice_from, Py.clamp. fold buf.
  destruct (Z.ltb_spec col 0); [|lia].
  replace (Z.to_nat (Z.max (col + Py.len buf) 0)) with k by (subst k; lia).
  reflexivity.
Qed.

Lemma insert_at_negative_column_witness :
  TextDocument.insert_at (TextDocument.Doc (lit "abc")) 0 (-1) (lit "X")
  = Ok (TextDocument.Doc (lit "abXc")).
Proof.
  apply (insert_at_negative_column (TextDocument.Doc (lit "abc")) 0 (-1)
           (lit "X")); lia.
Defined.

(** ** Tag handlers and the scanner, further *)

Section scanner_further.
Context {S : Type}.
Implicit Types (th : TagHandler.t S) (cb : callback S).

Lemma register_callbacks_handlers th tagnames cb tag :
  TagHandler._handlers (TagHandler.register_callbacks th tagnames cb) !! tag
  = if decide (tag ∈ tagnames) then Some cb
    else TagHandler._handlers th !! tag.
Proof.
  unfold TagHandler.register_callbacks. revert th.
  induction tagnames as [|tagname tagnames IH]; intros th; cbn [foldl].
  - rewrite decide_False by apply not_elem_of_nil. reflexivity.
  - rewrite IH. destruct (decide (tag ∈ tagnames)) as [Hin|Hnotin].
    + rewrite decide_True by (apply list_elem_of_further, Hin). reflexivity.
    + unfold TagHandler.register_callback. cbn [TagHandler._handlers].
      destruct (decide (tag = tagname)) as [->|Hne].
      * rewrite lookup_insert_eq, decide_True by apply list_elem_of_here.
        reflexivity.
      * rewrite lookup_insert_ne by congruence.
        rewrite decide_False; [reflexivity|].
        intros [->|Hin]%elem_of_cons; done.
Qed.

Lemma dispatch_all_registered th (calls : list (str * JValue)) : ∀ s,
  TagHandler._handlers th !! TagHandler.unknown = Some TagHandler.ignore →
  dispatch_all th calls s
  = dispatch_all th
      (filter (λ call, is_Some (TagHandler._handlers th !! call.1)) calls) s.
Proof.
  intros s Hu. revert s.
  induction calls as [|[tag value] calls IH]; intros s; [reflexivity|].
  rewrite filter_cons. cbn [fst].
  destruct (decide (is_Some (TagHandler._handlers th !! tag))) as [Hreg|Hno].
  - cbn [dispatch_all].
    destruct (TagHandler.get_callback th tag) as [tv|e]; [|reflexivity].
    destruct (tv tag value s) as [s' [e|]]; [reflexivity|]. apply IH.
  - cbn [dispatch_all].
    assert (Hnone : TagHandler._handlers th !! tag = None).
    { destruct (TagHandler._handlers th !! tag); [|reflexivity].
      exfalso. apply Hno. eauto. }
    rewrite (get_callback_fallback _ _ _ Hnone Hu). cbn. apply IH.
Qed.

End scanner_further.

(** X9. [register_callbacks] makes the callback the handler of every tag
    name of the list, and leaves the handler of every other tag name as it
    was; a record with one of these tags is then dispatched to the
    callback. *)
Theorem register_callbacks_lookup {S : Type} (th : TagHandler.t S)
    (tagnames : list str) (cb : callback S) (tag : str) :
  let th' := TagHandler.register_callbacks th tagnames cb in
  TagHandler._handlers th' !! tag
  = (if decide (tag ∈ tagnames) then Some cb
     else TagHandler._handlers th !! tag)
  ∧ (tag ∈ tagnames →
     TagHandler.get_callback th' tag = Ok cb
     ∧ ∀ value s, _scan [record tag value] th' s = cb tag value s).
Proof.
  intros th'. split; [apply register_callbacks_handlers|].
  intros Hin.
  assert (Hcb : TagHandler.get_callback th' tag = Ok cb).
  { apply get_callback_registered. subst th'.
    rewrite register_callbacks_handlers, decide_True by exact Hin.
    reflexivity. }
  split; [exact Hcb|]. intros value s.
  rewrite (scan_single _ _ th' s (is_record_record tag value)). cbn [fst snd].
  rewrite Hcb. reflexivity.
Qed.

Lemma register_callbacks_lookup_witness :
  let th := TagHandler.register_callbacks (TagHandler.init ∅)
              [lit "name"; lit "url"] log_call in
  _scan [record (lit "url") JNull] th [] = ([(lit "url", JNull)], None).
Proof.
  intros th.
  apply (register_callbacks_lookup (TagHandler.init ∅)
           [lit "name"; lit "url"] log_call (lit "url")).
  apply list_elem_of_further, list_elem_of_here.
Defined.

(** X10. Records with tags that have no handler are ignored: with the
    handler of 'unknown' left as [__init__] sets it, scanning well-formed
    records makes the handler calls of the records whose tag is
    registered, in order, and no other; the records with other tags change
    nothing and raise nothing. *)
Theorem unknown_tags_ignored {S : Type} (th : TagHandler.t S)
    (lines : list JValue) (calls : list (str * JValue)) (s : S) :
  TagHandler._handlers th !! TagHandler.unknown = Some TagHandler.ignore →
  Forall2 is_record lines calls →
  _scan lines th s
  = dispatch_all th
      (filter (λ call, is_Some (TagHandler._handlers th !! call.1)) calls) s.
Proof.
  intros Hu Hlines. unfold _scan. rewrite <- (app_nil_r lines).
  rewrite (scan_from_records th [] lines calls 0 s Hlines).
  rewrite <- (dispatch_all_registered th calls s Hu).
  destruct (dispatch_all th calls s) as [s' [e|]]; reflexivity.
Qed.

Lemma unknown_tags_ignored_witness :
  let th := TagHandler.register_callback (TagHandler.init ∅)
              (lit "edit") log_call in
  _scan [record (lit "note") JNull; record (lit "edit") (JNum 1);
         record (lit "other") (JNum 2)] th []
  = ([(lit "edit", JNum 1)], None).
Proof.
  intros th.
  rewrite (unknown_tags_ignored th
             [record (lit "note") JNull; record (lit "edit") (JNum 1);
              record (lit "other") (JNum 2)]
             [(lit "note", JNull); (lit "edit", JNum 1);
              (lit "other", JNum 2)] []).
  - reflexivity.
  - reflexivity.
  - repeat constructor; apply is_record_record.
Defined.

(** X11. A line that is JSON but not an object never reaches a handler and
    ends the scan, after the handler calls of the lines before it: with a
    TypeError when it is null, a boolean or a number, where [in] is not
    defined. A string ends it with the error "Invalid data at line n" of
    its line, unless it contains both 'tag' and 'value' as substrings, and
    an array does, unless it has both 'tag' and 'value' among its items;
    a string or an array that has both ends it with a TypeError, since
    indexing by 'tag' is not defined. *)
Theorem scan_non_object_line {S : Type} (th : TagHandler.t S)
    (good : list JValue) (calls : list (str * JValue))
    (rest : list JValue) (s s' : S) :
  Forall2 is_record good calls →
  dispatch_all th calls s = (s', None) →
  let line_no := Z.of_nat (length good) + 1 in
  let ends obj e := _scan (good ++ obj :: rest) th s = (s', Some e) in
  ends JNull TypeError
  ∧ (∀ b, ends (JBool b) TypeError)
  ∧ (∀ n, ends (JNum n) TypeError)
  ∧ (∀ str,
       ends (JStr str)
         (if substring_of (lit "tag") str && substring_of (lit "value") str
          then TypeError else Progsnap (InvalidData line_no)))
  ∧ (∀ items,
       ends (JArr items)
         (if existsb (is_JStr (lit "tag")) items
             && existsb (is_JStr (lit "value")) items
          then TypeError else Progsnap (InvalidData line_no))).
Proof.
  intros Hgood Hcalls line_no ends.
  assert (Hscan : ∀ obj,
    _scan (good ++ obj :: rest) th s
    = match scan_line (0 + Z.of_nat (length good) + 1) obj th s' with
      | (s1, None) =>
          scan_from (0 + Z.of_nat (length good) + 1) rest th s1
      | (s1, Some e) => (s1, Some e)
      end).
  { intros obj. unfold _scan.
    rewrite (scan_from_records th (obj :: rest) good calls 0 s Hgood), Hcalls.
    reflexivity. }
  subst ends. cbn beta. split_and!; intros; rewrite Hscan, Z.add_0_l;
    fold line_no; unfold scan_line, fields_missing;
    cbn [contains getitem mbind result_bind mret result_ret];
    try reflexivity.
  - destruct (substring_of (lit "tag") str); cbn [negb andb orb];
      [|reflexivity].
    destruct (substring_of (lit "value") str); reflexivity.
  - destruct (existsb (is_JStr (lit "tag")) items); cbn [negb andb orb];
      [|reflexivity].
    destruct (existsb (is_JStr (lit "value")) items); reflexivity.
Qed.

Lemma scan_non_object_line_witness :
  let th := TagHandler.register_callback (TagHandler.init ∅)
              (lit "edit") log_call in
  _scan [record (lit "edit") (JNum 1); JStr (lit "a tag");
         record (lit "edit") (JNum 2)] th []
  = ([(lit "edit", JNum 1)], Some (Progsnap (InvalidData 2))).
Proof.
  intros th.
  pose proof (scan_non_object_line th [record (lit "edit") (JNum 1)]
                [(lit "edit", JNum 1)] [record (lit "edit") (JNum 2)]
                [] [(lit "edit", JNum 1)]) as H.
  destruct H as (_ & _ & _ & H & _).
  - repeat constructor; apply is_record_record.
  - reflexivity.
  - exact (H (lit "a tag")).
Defined.

(** ** Directories of an archive *)

Section dirpart_facts.
Implicit Types (f g p d base : str).

Lemma rfind_absent c (s : str) : c ∉ s → rfind c s = -1.
Proof.
  induction s as [|x s IH]; intros Hc; cbn [rfind]; [reflexivity|].
  apply not_elem_of_cons in Hc as [Hx Hs]. rewrite (IH Hs). cbn.
  destruct (decide (x = c)); [congruence|reflexivity].
Qed.

Lemma rfind_last c (s1 s2 : str) :
  c ∉ s2 → rfind c (s1 ++ c :: s2) = Py.len s1.
Proof.
  intros Hc. induction s1 as [|x s1 IH]; cbn [app rfind].
  - rewrite (rfind_absent _ _ Hc). cbn.
    destruct (decide (c = c)); [reflexivity|done].
  - rewrite IH. pose proof (len_nonneg s1).
    destruct (Z.ltb_spec (Py.len s1) 0); [lia|]. rewrite len_cons. lia.
Qed.

Lemma get_dirpart_split d base :
  SLASH ∉ base → _get_dirpart (d ++ SLASH :: base) = d.
Proof.
  intros Hbase. unfold _get_dirpart. rewrite (rfind_last _ _ _ Hbase).
  destruct (Z.gtb_spec (Py.len d) 0) as [Hpos|Hzero].
  - apply slice_0.
  - destruct d as [|c d]; [reflexivity|].
    rewrite len_cons in Hzero. pose proof (len_nonneg d). lia.
Qed.

Lemma get_dirpart_no_slash f : SLASH ∉ f → _get_dirpart f = [].
Proof.
  intros Hf. unfold _get_dirpart. rewrite (rfind_absent _ _ Hf). reflexivity.
Qed.

Lemma get_dirpart_shorter g :
  g ≠ [] → (length (_get_dirpart g) < length g)%nat.
Proof.
  intros Hg. destruct (decide (SLASH ∈ g)) as [Hin|Hnotin].
  - apply list_elem_of_split_r in Hin as (d & base & -> & Hbase).
    rewrite (get_dirpart_split _ _ Hbase), length_app. cbn. lia.
  - rewrite (get_dirpart_no_slash _ Hnotin). destruct g; [done|cbn; lia].
Qed.

Lemma dir_above_step g p :
  dir_above g p
  ↔ _get_dirpart g ≠ [] ∧ (p = _get_dirpart g ∨ dir_above (_get_dirpart g) p).
Proof.
  destruct (decide (SLASH ∈ g)) as [Hin|Hnotin].
  - apply list_elem_of_split_r in Hin as (d & base & -> & Hbase).
    rewrite (get_dirpart_split _ _ Hbase). split.
    + intros [Hp [rest Heq]].
      apply app_eq_inv in Heq as [(k & -> & Hk)|(k & -> & Hk)].
      * destruct k as [|c k].
        -- rewrite app_nil_r. split; [exact Hp|]. left. reflexivity.
        -- injection Hk as Hc Hrest. subst c rest.
           split; [intros H; destruct p; done|].
           right. split; [exact Hp|]. exists k. reflexivity.
      * destruct k as [|c k].
        -- rewrite app_nil_r in *. split; [exact Hp|]. left. reflexivity.
        -- injection Hk as Hc Hbase'. subst c base. exfalso. apply Hbase.
           apply elem_of_app. right. apply list_elem_of_here.
    + intros [Hd [->|[Hp [rest ->]]]].
      * split; [exact Hd|]. exists base. reflexivity.
      * split; [exact Hp|]. exists (rest ++ SLASH :: base).
        rewrite <- app_assoc. reflexivity.
  - rewrite (get_dirpart_no_slash _ Hnotin). split.
    + intros [_ [rest ->]]. exfalso. apply Hnotin.
      apply elem_of_app. right. apply list_elem_of_here.
    + intros [H _]. done.
Qed.

Lemma elem_of_add_dirparts p : ∀ fuel g (dirs : gset str),
  (length g ≤ fuel)%nat →
  p ∈ ZipDirs.add_dirparts fuel g dirs
  ↔ p ∈ dirs ∨ (g ≠ [] ∧ (p = g ∨ dir_above g p)).
Proof.
  induction fuel as [|fuel IH]; intros g dirs Hfuel;
    cbn [ZipDirs.add_dirparts].
  - destruct g; [|cbn in Hfuel; lia]. split; [auto|].
    intros [H|[H _]]; [exact H|done].
  - destruct (bool_decide_reflect (g ≠ [])) as [Hg|Hg].
    + pose proof (get_dirpart_shorter g Hg).
      rewrite IH by lia. rewrite elem_of_union, elem_of_singleton.
      rewrite (dir_above_step g p). tauto.
    + split; [auto|]. intros [H|[H _]]; [exact H|done].
Qed.

Lemma elem_of_find_dirs (self : ProgsnapZipfile.t) p :
  p ∈ ZipDirs._find_dirs self
  ↔ ∃ fname, fname ∈ ProgsnapZipfile.infolist self
             ∧ dir_above (ZipDirs.trimmed fname) p.
Proof.
  unfold ZipDirs._find_dirs.
  enough (H : ∀ entries (acc : gset str),
    p ∈ foldl (λ dirs fname,
                 let fname := ZipDirs.trimmed fname in
                 let dirpart := _get_dirpart fname in
                 ZipDirs.add_dirparts (length dirpart) dirpart dirs)
              acc entries
    ↔ p ∈ acc ∨ ∃ fname, fname ∈ entries
                          ∧ dir_above (ZipDirs.trimmed fname) p).
  { rewrite H. split; [intros [Hempty|Hex]|intros Hex].
    - apply elem_of_empty in Hempty. done.
    - exact Hex.
    - right. exact Hex. }
  induction entries as [|fname entries IH]; intros acc; cbn [foldl].
  - split; [auto|]. intros [H|(fname & Hin & _)]; [exact H|].
    apply elem_of_nil in Hin. done.
  - rewrite IH. cbv zeta. rewrite elem_of_add_dirparts by lia.
    rewrite <- dir_above_step. split.
    + intros [[Hacc|Habove]|(f & Hin & Hf)].
      * left. exact Hacc.
      * right. exists fname. split; [apply list_elem_of_here|exact Habove].
      * right. exists f. split; [apply list_elem_of_further, Hin|exact Hf].
    + intros [Hacc|(f & Hin & Hf)].
      * left. left. exact Hacc.
      * apply elem_of_cons in Hin as [->|Hin].
        -- left. right. exact Hf.
        -- right. exists f. split; assumption.
Qed.

Lemma trimmed_slash f : ZipDirs.trimmed (f ++ [SLASH]) = f.
Proof.
  unfold ZipDirs.trimmed. rewrite endswith_snoc.
  replace (Py.len (f ++ [SLASH]) - 1) with (Py.len f)
    by (rewrite len_app; change (Py.len [SLASH]) with 1; lia).
  apply slice_0.
Qed.

Lemma trimmed_no_slash f :
  Py.endswith f SLASH = false → ZipDirs.trimmed f = f.
Proof. intros H. unfold ZipDirs.trimmed. rewrite H. reflexivity. Qed.

Lemma member_of_some pfx rest :
  rest ≠ [] → is_Some (ProgsnapZipfile.member_of pfx (pfx ++ rest)).
Proof.
  intros Hne. unfold ProgsnapZipfile.member_of.
  rewrite startswith_app, slice_from_app, bool_decide_eq_true_2 by exact Hne.
  eauto.
Qed.

Lemma member_of_inv pfx fname name :
  ProgsnapZipfile.member_of pfx fname = Some name →
  ∃ rest, fname = pfx ++ rest ∧ rest ≠ [].
Proof.
  intros Hsome. destruct (Py.startswith fname pfx) eqn:Hpfx.
  - destruct (startswith_inv _ _ Hpfx) as [rest ->]. exists rest.
    split; [reflexivity|]. intros ->.
    rewrite member_of_not_under in Hsome; [discriminate|].
    right. apply app_nil_r.
  - rewrite member_of_not_under in Hsome; [discriminate|]. left. exact Hpfx.
Qed.

End dirpart_facts.

Lemma isdir_iff_aux (self : ProgsnapZipfile.t) (path : str) :
  ZipDirs.isdir self path = true
  ↔ path ≠ []
    ∧ ∃ fname rest,
        fname ∈ ProgsnapZipfile.infolist self
        ∧ ZipDirs.trimmed fname = path ++ SLASH :: rest.
Proof.
  unfold ZipDirs.isdir.
  rewrite bool_decide_eq_true, elem_of_find_dirs. unfold dir_above. split.
  - intros (fname & Hin & Hp & rest & Heq). split; [exact Hp|].
    exists fname, rest. split; assumption.
  - intros (Hp & fname & rest & Hin & Heq). exists fname.
    split; [exact Hin|]. split; [exact Hp|]. exists rest. exact Heq.
Qed.

(** X12. The directory part of a filename is the text before its last
    slash, and is empty when the filename has no slash (or only a leading
    one); it is shorter than the filename, so that taking directory parts
    again and again ends. *)
Theorem get_dirpart_cases (fname : str) :
  (SLASH ∉ fname → _get_dirpart fname = [])
  ∧ (∀ d base,
       fname = d ++ SLASH :: base → SLASH ∉ base → _get_dirpart fname = d)
  ∧ (fname ≠ [] → (length (_get_dirpart fname) < length fname)%nat).
Proof.
  split_and!.
  - apply get_dirpart_no_slash.
  - intros d base -> Hbase. apply get_dirpart_split, Hbase.
  - apply get_dirpart_shorter.
Qed.

Lemma get_dirpart_cases_witness :
  _get_dirpart (lit "history/0001/12.txt") = lit "history/0001"
  ∧ _get_dirpart (lit "dataset.txt") = [].
Proof.
  split.
  - apply (proj1 (proj2 (get_dirpart_cases (lit "history/0001/12.txt")))
             (lit "history/0001") (lit "12.txt")); [reflexivity|].
    intros H. repeat (apply elem_of_cons in H as [H|H]; [discriminate|]).
    apply elem_of_nil in H. exact H.
  - apply (proj1 (get_dirpart_cases (lit "dataset.txt"))).
    intros H. repeat (apply elem_of_cons in H as [H|H]; [discriminate|]).
    apply elem_of_nil in H. exact H.
Defined.

(** X13. The directories of an archive are the paths above its entries: a
    path is a directory exactly when it is not empty and some entry, its
    trailing slash trimmed, is the path, a slash and more text. So an
    entry for a directory alone ("d/") does not make "d" a directory. *)
Theorem isdir_iff (self : ProgsnapZipfile.t) (path : str) :
  (ZipDirs.isdir self path = true
   ↔ path ≠ []
     ∧ ∃ fname rest,
         fname ∈ ProgsnapZipfile.infolist self
         ∧ ZipDirs.trimmed fname = path ++ SLASH :: rest)
  ∧ (∀ d, SLASH ∉ d →
          ZipDirs.isdir (ProgsnapZipfile.Make [d ++ [SLASH]]) d = false).
Proof.
  split; [apply isdir_iff_aux|].
  intros d Hd. apply not_true_is_false. intros Hdir.
  apply isdir_iff_aux in Hdir as (_ & fname & rest & Hin & Heq).
  cbn in Hin. apply list_elem_of_singleton in Hin as ->.
  rewrite trimmed_slash in Heq. apply Hd. rewrite Heq.
  apply elem_of_app. right. apply list_elem_of_here.
Qed.

(** X14. For the archive backend a path that is not empty is a directory
    exactly when its listing is not empty. *)
Theorem isdir_iff_listdir (self : ProgsnapZipfile.t) (path : str) :
  path ≠ [] →
  ZipDirs.isdir self path = true ↔ ProgsnapZipfile.listdir self path ≠ [].
Proof.
  intros Hpath.
  assert (Hlist : ProgsnapZipfile.listdir self path ≠ []
            ↔ ∃ fname rest, fname ∈ ProgsnapZipfile.infolist self
                            ∧ fname = (path ++ [SLASH]) ++ rest ∧ rest ≠ []).
  { unfold ProgsnapZipfile.listdir. split.
    - intros Hne.
      destruct (PySort.sort PySort.str_lt _) as [|name names] eqn:Hsort;
        [done|].
      assert (Hin : name ∈ PySort.sort PySort.str_lt
                (elements (ProgsnapZipfile.members (path ++ [SLASH])
                             (ProgsnapZipfile.infolist self))))
        by (rewrite Hsort; apply list_elem_of_here).
      rewrite sort_Permutation, elem_of_elements, elem_of_members in Hin.
      destruct Hin as (fname & Hin & Hmember).
      destruct (member_of_inv _ _ _ Hmember) as (rest & -> & Hrest).
      exists ((path ++ [SLASH]) ++ rest), rest. auto.
    - intros (fname & rest & Hin & -> & Hrest) Hnil.
      destruct (member_of_some (path ++ [SLASH]) rest Hrest) as [name Hname].
      assert (Hmem : name ∈ PySort.sort PySort.str_lt
                (elements (ProgsnapZipfile.members (path ++ [SLASH])
                             (ProgsnapZipfile.infolist self)))).
      { rewrite sort_Permutation, elem_of_elements, elem_of_members.
        exists ((path ++ [SLASH]) ++ rest). auto. }
      rewrite Hnil in Hmem. apply elem_of_nil in Hmem. exact Hmem. }
  rewrite Hlist, isdir_iff_aux. split.
  - intros (_ & fname & rest & Hin & Heq).
    destruct (Py.endswith fname SLASH) eqn:Hend.
    + apply endswith_inv in Hend as [f' ->].
      rewrite trimmed_slash in Heq. subst f'.
      exists ((path ++ SLASH :: rest) ++ [SLASH]), (rest ++ [SLASH]).
      split; [exact Hin|]. split.
      * rewrite <- !app_assoc. reflexivity.
      * intros H. apply app_eq_nil in H as [_ H]. discriminate.
    + rewrite (trimmed_no_slash _ Hend) in Heq. subst fname.
      exists (path ++ SLASH :: rest), rest. split; [exact Hin|]. split.
      * rewrite <- app_assoc. reflexivity.
      * intros ->. rewrite endswith_snoc in Hend. discriminate.
  - intros (fname & rest & Hin & -> & Hrest). split; [exact Hpath|].
    exists ((path ++ [SLASH]) ++ rest).
    destruct (Py.endswith ((path ++ [SLASH]) ++ rest) SLASH) eqn:Hend.
    + destruct rest as [|c rest] using rev_ind; [done|].
      rewrite app_assoc in Hend.
      assert (c = SLASH) as ->.
      { unfold Py.endswith in Hend. rewrite last_snoc in Hend.
        apply bool_decide_eq_true in Hend. exact Hend. }
      exists rest. split; [exact Hin|].
      rewrite app_assoc, trimmed_slash, <- app_assoc. reflexivity.
    + exists rest. split; [exact Hin|].
      rewrite (trimmed_no_slash _ Hend), <- app_assoc. reflexivity.
Qed.

Lemma isdir_iff_listdir_witness :
  ZipDirs.isdir
    (ProgsnapZipfile.Make [lit "history/1/5.txt"; lit "dataset.txt"])
    (lit "history") = true
  ↔ ProgsnapZipfile.listdir
      (ProgsnapZipfile.Make [lit "history/1/5.txt"; lit "dataset.txt"])
      (lit "history") ≠ [].
Proof.
  apply (isdir_iff_listdir
           (ProgsnapZipfile.Make [lit "history/1/5.txt"; lit "dataset.txt"])
           (lit "history")).
  discriminate.
Defined.

Lemma isdir_iff_witness :
  ZipDirs.isdir (ProgsnapZipfile.Make [lit "history" ++ [SLASH]])
    (lit "history") = false.
Proof.
  apply (proj2 (isdir_iff (ProgsnapZipfile.Make []) [])).
  intros H. repeat (apply elem_of_cons in H as [H|H]; [discriminate|]).
  apply elem_of_nil in H. exact H.
Defined.

(** X15. For the archive backend [isfile] does not answer False for a path
    that the archive has no entry of: it raises the KeyError of
    [getinfo]. It answers False only for an entry of size zero, and so for
    the entry of a directory; and a directory that has no entry of its own
    makes it raise. *)
Theorem isfile_missing_raises (file_size : str → Z)
    (self : ProgsnapZipfile.t) (path : str) :
  (path ∉ ProgsnapZipfile.infolist self →
   ZipDirs.isfile file_size self path = Raise (KeyError path))
  ∧ (ZipDirs.isfile file_size self path = Ok false
     ↔ path ∈ ProgsnapZipfile.infolist self ∧ file_size path ≤ 0)
  ∧ (ZipDirs.isfile file_size self path = Ok true
     ↔ path ∈ ProgsnapZipfile.infolist self ∧ 0 < file_size path).
Proof.
  unfold ZipDirs.isfile.
  destruct (bool_decide_reflect (path ∈ ProgsnapZipfile.infolist self))
    as [Hin|Hnotin]; split_and!.
  - intros Hno. done.
  - destruct (Z.gtb_spec (file_size path) 0) as [Hgt|Hle]; split.
    + discriminate.
    + intros [_ Hsize]. lia.
    + intros _. split; [exact Hin|lia].
    + reflexivity.
  - destruct (Z.gtb_spec (file_size path) 0) as [Hgt|Hle]; split.
    + intros _. split; [exact Hin|lia].
    + reflexivity.
    + discriminate.
    + intros [_ Hsize]. lia.
  - reflexivity.
  - split; [discriminate|]. intros [Hin _]. done.
  - split; [discriminate|]. intros [Hin _]. done.
Qed.

Lemma isfile_missing_raises_witness :
  ZipDirs.isfile (λ _, 10)
    (ProgsnapZipfile.Make [lit "dataset.txt"; lit "assignments.txt"])
    (lit "students.txt")
  = Raise (KeyError (lit "students.txt")).
Proof.
  apply (isfile_missing_raises (λ _, 10)
           (ProgsnapZipfile.Make [lit "dataset.txt"; lit "assignments.txt"])
           (lit "students.txt")).
  intros H. repeat (apply elem_of_cons in H as [H|H]; [discriminate|]).
  apply elem_of_nil in H. exact H.
Defined.

(** ** Looking up events by snapshot *)

Section lookup_facts.
Context (snapid_of : Event → option SnapId).
Import WorkHistoryLookup.

Lemma find_event_spec wanted snapid (evts : list Event) :
  match find_event snapid_of wanted snapid evts with
  | Done (Some evt) =>
      ∃ before after,
        evts = before ++ evt :: after
        ∧ Forall (passed_over snapid_of wanted snapid) before
        ∧ evt_type evt = wanted ∧ snapid_of evt = Some snapid
  | Done None => Forall (passed_over snapid_of wanted snapid) evts
  | Failed e =>
      e = NoSuchProperty (lit "snapid")
      ∧ ∃ before evt after,
          evts = before ++ evt :: after
          ∧ Forall (passed_over snapid_of wanted snapid) before
          ∧ evt_type evt = wanted ∧ snapid_of evt = None
  end.
Proof.
  induction evts as [|evt evts IH]; cbn [find_event]; [constructor|].
  assert (Hstep : passed_over snapid_of wanted snapid evt →
    match find_event snapid_of wanted snapid evts with
    | Done (Some evt0) =>
        ∃ before after,
          evt :: evts = before ++ evt0 :: after
          ∧ Forall (passed_over snapid_of wanted snapid) before
          ∧ evt_type evt0 = wanted ∧ snapid_of evt0 = Some snapid
    | Done None => Forall (passed_over snapid_of wanted snapid) (evt :: evts)
    | Failed e =>
        e = NoSuchProperty (lit "snapid")
        ∧ ∃ before evt0 after,
            evt :: evts = before ++ evt0 :: after
            ∧ Forall (passed_over snapid_of wanted snapid) before
            ∧ evt_type evt0 = wanted ∧ snapid_of evt0 = None
    end).
  { intros Hevt.
    destruct (find_event snapid_of wanted snapid evts) as [[found|]|e].
    - destruct IH as (before & after & -> & Hbefore & Hty & Hid).
      exists (evt :: before), after. split; [reflexivity|].
      split; [constructor; assumption|]. split; assumption.
    - constructor; assumption.
    - destruct IH as (-> & before & evt0 & after & -> & Hbefore & Hty & Hid).
      split; [reflexivity|]. exists (evt :: before), evt0, after.
      split; [reflexivity|]. split; [constructor; assumption|].
      split; assumption. }
  destruct (bool_decide_reflect (evt_type evt = wanted)) as [Hty|Hty].
  - destruct (snapid_of evt) as [id|] eqn:Hid.
    + destruct (bool_decide_reflect (id = snapid)) as [->|Hne].
      * exists [], evts. split; [reflexivity|]. split; [constructor|].
        split; assumption.
      * apply Hstep. intros _. exists id. split; assumption.
    + split; [reflexivity|]. exists [], evt, evts. split; [reflexivity|].
      split; [constructor|]. split; assumption.
  - apply Hstep. intros H. contradiction.
Qed.

End lookup_facts.

(** X16. The lookup of the event of a type for a snapshot returns the
    first event of that type whose snapid is the one asked for, and None
    when every event of that type has another snapid. Events of other
    types are never asked for their snapid; an event of that type that has
    no snapid, met before a match, makes the lookup raise "No such
    property: snapid". *)
Theorem find_event_with_snapid_first (snapid_of : Event → option SnapId)
    (self : WorkHistory.t) (wanted : EventType) (snapid : SnapId) :
  let evts := (WorkHistory.events self).2 in
  match (WorkHistoryLookup._find_event_with_snapid snapid_of self wanted
           snapid).2 with
  | Done (Some evt) =>
      ∃ before after,
        evts = before ++ evt :: after
        ∧ Forall (passed_over snapid_of wanted snapid) before
        ∧ evt_type evt = wanted ∧ snapid_of evt = Some snapid
  | Done None => Forall (passed_over snapid_of wanted snapid) evts
  | Failed e =>
      e = NoSuchProperty (lit "snapid")
      ∧ ∃ before evt after,
          evts = before ++ evt :: after
          ∧ Forall (passed_over snapid_of wanted snapid) before
          ∧ evt_type evt = wanted ∧ snapid_of evt = None
  end.
Proof.
  cbn [snd WorkHistory.events WorkHistoryLookup._find_event_with_snapid].
  apply find_event_spec.
Qed.

(** ** Reading the file of a work history *)

Section reading_facts.
Context (construct : EventType → JValue → result Event).
Import WorkHistoryFile.

#[local] Abbreviation th := (handlers construct).

Lemma get_callback_handlers tag :
  TagHandler.get_callback th tag
  = Ok (match event_class tag with
        | Some class => append construct class
        | None => TagHandler.ignore
        end).
Proof.
  unfold event_class, handlers, TagHandler.get_callback,
    TagHandler.register_callback, TagHandler.init.
  cbn [TagHandler._handlers].
  repeat match goal with
  | |- context [decide (tag = ?k)] =>
      destruct (decide (tag = k)) as [->|?];
        [reflexivity|rewrite (lookup_insert_ne _ k tag) by congruence]
  end.
  rewrite (left_id_L ∅ (∪)).
  destruct (decide (tag = TagHandler.unknown)) as [->|Hne].
  - rewrite lookup_insert_eq. reflexivity.
  - rewrite lookup_insert_ne, lookup_empty by congruence.
    rewrite lookup_insert_ne by discriminate.
    rewrite lookup_insert_ne by discriminate.
    rewrite lookup_insert_ne by discriminate.
    rewrite lookup_insert_ne by discriminate.
    rewrite lookup_insert_eq. reflexivity.
Qed.

Lemma dispatch_all_handlers calls : ∀ events,
  dispatch_all th calls events
  = (events ++ (events_of construct calls).1, (events_of construct calls).2).
Proof.
  induction calls as [|[tag value] calls IH]; intros events;
    cbn [dispatch_all events_of].
  - rewrite app_nil_r. reflexivity.
  - rewrite get_callback_handlers.
    destruct (event_class tag) as [class|].
    + unfold append. destruct (construct class value) as [evt|e].
      * rewrite IH.
        destruct (events_of construct calls) as [evts raised].
        cbn [fst snd]. rewrite <- app_assoc. reflexivity.
      * cbn [fst snd]. rewrite app_nil_r. reflexivity.
    + cbn [TagHandler.ignore]. apply IH.
Qed.

Lemma scan_records_then good calls tail events :
  Forall2 is_record good calls →
  _scan (good ++ tail) th events
  = match events_of construct calls with
    | (evts, None) =>
        scan_from (Z.of_nat (length good)) tail th (events ++ evts)
    | (evts, Some e) => (events ++ evts, Some e)
    end.
Proof.
  intros Hgood. unfold _scan.
  rewrite (scan_from_records th tail good calls 0 events Hgood).
  rewrite dispatch_all_handlers.
  destruct (events_of construct calls) as [evts [e|]]; reflexivity.
Qed.

End reading_facts.

(** X17. A work history reads its file once when the reading goes
    through, and again after a reading that raised. Let the file begin
    with the records [good], which give the events [evts]: one for each
    record with the tag 'edit', 'submission', 'compilation' or
    'testresults', in the order of the file. If the file ends there,
    [events] appends [evts] to the events held, sorts the list when
    sorting was requested, marks the history loaded and returns the list;
    asked again it returns the same list and leaves the history as it is.
    If the next line is a malformed record, or a record whose event the
    constructor cannot make, [events] raises, the history holds [evts]
    after the events it held and is still not loaded, and [events] asked
    again reads the file from its start, appends [evts] a second time and
    raises again. *)
Theorem events_read_again_after_error
    (construct : EventType → JValue → result Event)
    (self : WorkHistoryFile.t) (good : list JValue)
    (calls : list (str * JValue)) (evts : list Event) (tail : list JValue) :
  let events := WorkHistoryFile.events construct in
  let held := WorkHistoryFile._events self in
  let with_events evts loaded :=
    WorkHistoryFile.Make evts (WorkHistoryFile.file self) loaded
      (WorkHistoryFile._sortworkhistory self) in
  WorkHistoryFile._loaded self = false →
  WorkHistoryFile.file self = good ++ tail →
  Forall2 is_record good calls →
  events_of construct calls = (evts, None) →
  (tail = [] →
   let sorted :=
     if WorkHistoryFile._sortworkhistory self
     then ListObject.list_sort
            (PySort.cmp_to_key WorkHistory.compare_events) (held ++ evts)
     else held ++ evts in
   events self = (with_events sorted true, Ok sorted)
   ∧ events (with_events sorted true) = (with_events sorted true, Ok sorted))
  ∧ (∀ bad rest e,
       tail = bad :: rest →
       (malformed bad
        ∧ e = Progsnap (InvalidData (Z.of_nat (length good) + 1)))
       ∨ (∃ tag value class,
            is_record bad (tag, value) ∧ event_class tag = Some class
            ∧ construct class value = Raise e) →
       events self = (with_events (held ++ evts) false, Raise e)
       ∧ events (with_events (held ++ evts) false)
         = (with_events (held ++ evts ++ evts) false, Raise e)).
Proof.
  intros events held with_events Hloaded Hfile Hgood Hevts.
  destruct self as [held' file loaded sortwh].
  cbn [WorkHistoryFile._events WorkHistoryFile.file WorkHistoryFile._loaded
       WorkHistoryFile._sortworkhistory] in *.
  subst held with_events events loaded file.
  unfold WorkHistoryFile.events, WorkHistoryFile._load_events,
    WorkHistoryFile._read_work_history.
  cbn [WorkHistoryFile._events WorkHistoryFile.file WorkHistoryFile._loaded
       WorkHistoryFile._sortworkhistory negb].
  split.
  - intros ->. rewrite app_nil_r.
    rewrite <- (app_nil_r good) at 1.
    rewrite (scan_records_then construct good calls [] held' Hgood), Hevts.
    cbn [scan_from]. split; reflexivity.
  - intros bad rest e -> Hbad.
    assert (Hline : ∀ held,
      scan_line (Z.of_nat (length good) + 1) bad
        (WorkHistoryFile.handlers construct) held = (held, Some e)).
    { intros held. destruct Hbad as [[Hbad ->]|(tag & value & class & Hrec
        & Hclass & Hraise)].
      - apply scan_line_malformed, Hbad.
      - rewrite (scan_line_record _ _ _ _ _ Hrec).
        rewrite get_callback_handlers. cbn [fst snd]. rewrite Hclass.
        unfold WorkHistoryFile.append. rewrite Hraise. reflexivity. }
    rewrite !(scan_records_then construct good calls (bad :: rest) _ Hgood),
      Hevts.
    cbn [scan_from]. rewrite !Hline, <- app_assoc. split; reflexivity.
Qed.

Lemma events_read_again_after_error_witness :
  let file := [record (lit "edit") (JNum 10); record (lit "note") JNull;
               record (lit "submission") (JNum 20);
               record (lit "edit") JNull] in
  let edit := {| evt_type := Edit; editid := None; ts := 10;
                 snapids := None |} in
  let sub := {| evt_type := Submission; editid := None; ts := 20;
                snapids := None |} in
  let self := WorkHistoryFile.init file true in
  let self1 := WorkHistoryFile.Make [edit; sub] file false true in
  let self2 := WorkHistoryFile.Make [edit; sub; edit; sub] file false true in
  WorkHistoryFile.events event_at self
  = (self1, Raise (KeyError (lit "ts")))
  ∧ WorkHistoryFile.events event_at self1
    = (self2, Raise (KeyError (lit "ts"))).
Proof.
  intros file edit sub self self1 self2.
  refine (proj2 (events_read_again_after_error event_at self
            (take 3 file)
            [(lit "edit", JNum 10); (lit "note", JNull);
             (lit "submission", JNum 20)]
            [edit; sub] (drop 3 file) eq_refl eq_refl _ eq_refl)
            (record (lit "edit") JNull) [] (KeyError (lit "ts")) eq_refl _).
  - repeat constructor; apply is_record_record.
  - right. exists (lit "edit"), JNull, Edit.
    split; [apply is_record_record|]. split; reflexivity.
Defined.

(** ** Applying edits *)

Section applicator_facts.
Import EditApplicator.

Lemma apply_all_app (edits1 edits2 : list EditProps.t) : ∀ doc,
  apply_all (edits1 ++ edits2) doc
  = match apply_all edits1 doc with
    | Done doc1 => apply_all edits2 doc1
    | Failed e => Failed e
    end.
Proof.
  induction edits1 as [|edit edits1 IH]; intros doc; cbn [app apply_all].
  - reflexivity.
  - destruct (apply edit doc) as [doc'|e]; cbn; [apply IH|reflexivity].
Qed.

Lemma apply_fulltext (edit : EditProps.t) (doc : TextDocument.t) text :
  EditProps.type edit = Some (lit "fulltext") →
  EditProps.text edit = Some text →
  apply edit doc = Done (TextDocument.Doc text).
Proof.
  intros Hty Htext. unfold apply, EditProps.get_type. rewrite Hty. cbn.
  unfold _do_fulltext, EditProps.get_text. rewrite Htext. reflexivity.
Qed.

End applicator_facts.

(** X18. A fulltext edit sets the buffer to its text whatever the buffer
    was, and needs no start position. So the buffer after a sequence of
    edits is decided by its last fulltext edit and the edits after it:
    the edits before it matter only in that they must not raise. *)
Theorem fulltext_resets (before after : list EditProps.t)
    (edit : EditProps.t) (text : str) (doc doc1 : TextDocument.t) :
  EditProps.type edit = Some (lit "fulltext") →
  EditProps.text edit = Some text →
  apply_all before doc = Done doc1 →
  apply_all (before ++ edit :: after) doc
  = apply_all after (TextDocument.Doc text).
Proof.
  intros Hty Htext Hbefore. rewrite apply_all_app, Hbefore.
  cbn [apply_all]. rewrite (apply_fulltext _ _ _ Hty Htext). reflexivity.
Qed.

Lemma fulltext_resets_witness :
  let pos r c := Position.Make (Some r) (Some c) in
  let ins r c t :=
    EditProps.Make (Some (lit "insert")) (Some (pos r c)) (Some t) in
  let full t := EditProps.Make (Some (lit "fulltext")) None (Some t) in
  apply_all [ins 0 0 (lit "abc"); full (lit "xy"); ins 0 1 (lit "Z")]
    TextDocument.init
  = Done (TextDocument.Doc (lit "xZy")).
Proof.
  intros pos ins full.
  exact (fulltext_resets [ins 0 0 (lit "abc")] [ins 0 1 (lit "Z")]
           (full (lit "xy")) (lit "xy") TextDocument.init
           (TextDocument.Doc (lit "abc")) eq_refl eq_refl eq_refl).
Defined.

(** ** Objects with properties *)

(** X19. Asking a test whether it is opaque answers with the stored value,
    and with False when none is stored; and it stores the answer: after
    the call the test has the property, asking again gives the same answer
    and changes nothing more, and no other property is touched. *)
Theorem opaque_sets_default (props : HasProps.t) :
  let '(props', value) := Test.opaque props in
  value = default (JBool false) (props !! lit "opaque")
  ∧ HasProps.has props' (lit "opaque") = true
  ∧ HasProps.getprop props' (lit "opaque") = Done value
  ∧ Test.opaque props' = (props', value)
  ∧ ∀ name, name ≠ lit "opaque" → props' !! name = props !! name.
Proof.
  unfold Test.opaque, HasProps._setdefault, HasProps.has, HasProps.getprop.
  destruct (props !! lit "opaque") as [value|] eqn:Hvalue.
  - rewrite Hvalue. split_and!; try reflexivity;
      try (apply bool_decide_eq_true; eauto).
  - rewrite lookup_insert_eq. split_and!; try reflexivity;
      try (apply bool_decide_eq_true; eauto).
    intros name Hname. apply lookup_insert_ne. congruence.
Qed.

(** X20. The properties of an object: a property that was set is read
    back, and setting it leaves the others as they were; reading a
    property that the object does not have raises "No such property";
    [add_all] takes every property of the dictionary, over the value the
    object had, and keeps the properties that the dictionary does not
    have. *)
Theorem props_round_trip (props other : HasProps.t) (tag : str)
    (value : JValue) :
  HasProps.getprop (HasProps.setprop props tag value) tag = Done value
  ∧ (∀ name, name ≠ tag →
       HasProps.getprop (HasProps.setprop props tag value) name
       = HasProps.getprop props name)
  ∧ (HasProps.has props tag = false →
     HasProps.getprop props tag = Failed (NoSuchProperty tag))
  ∧ (∀ name,
       HasProps.getprop (HasProps.add_all props other) name
       = if HasProps.has other name then HasProps.getprop other name
         else HasProps.getprop props name).
Proof.
  unfold HasProps.getprop, HasProps.setprop, HasProps.has, HasProps.add_all.
  split_and!.
  - rewrite lookup_insert_eq. reflexivity.
  - intros name Hname. rewrite lookup_insert_ne by congruence. reflexivity.
  - intros Hhas. apply bool_decide_eq_false in Hhas.
    destruct (props !! tag); [|reflexivity]. exfalso. apply Hhas. eauto.
  - intros name. destruct (other !! name) as [v|] eqn:Hv.
    + rewrite (lookup_union_Some_l _ _ _ _ Hv).
      rewrite bool_decide_eq_true_2 by eauto. reflexivity.
    + rewrite lookup_union_r by exact Hv.
      rewrite bool_decide_eq_false_2 by (intros [? ?]; discriminate).
      reflexivity.
Qed.

(** ** Comparing texts, inserting *)

Lemma match_text_spec (actual expected : str) :
  match_text actual expected = true
  ↔ actual = expected ∨ actual ++ [NL] = expected
    ∨ actual = expected ++ [NL].
Proof.
  unfold match_text. rewrite !orb_true_iff, !bool_decide_eq_true. tauto.
Qed.

(** X21. [match_text] does not depend on the order of its arguments, and
    holds of a text and itself. *)
Theorem match_text_symmetric (actual expected : str) :
  match_text actual expected = match_text expected actual
  ∧ match_text actual actual = true.
Proof.
  split.
  - apply eq_true_iff_eq. rewrite !match_text_spec.
    split; intros [H|[H|H]]; auto.
  - apply match_text_spec. left. reflexivity.
Qed.

(** X22. An insert that succeeds loses no text and moves none: the new
    buffer is the old one with the text put in at one place, whatever the
    row and the column are. *)
Theorem insert_at_splices (d d' : TextDocument.t) (row col : Z) (text : str) :
  TextDocument.insert_at d row col text = Ok d' →
  ∃ k, TextDocument._text d'
       = take k (TextDocument._text d) ++ text ++ drop k (TextDocument._text d).
Proof.
  unfold TextDocument.insert_at.
  destruct (TextDocument._get_pos d row col) as [pos|e]; [|discriminate].
  cbn. intros [= <-]. cbn [TextDocument._text].
  exists (Z.to_nat (Py.clamp (Py.len (TextDocument._text d)) pos)).
  reflexivity.
Qed.

Lemma insert_at_splices_witness :
  ∃ k, lit "abXc" = take k (lit "abc") ++ lit "X" ++ drop k (lit "abc").
Proof.
  apply (insert_at_splices (TextDocument.Doc (lit "abc"))
           (TextDocument.Doc (lit "abXc")) 0 2 (lit "X")).
  reflexivity.
Defined.

(** ** The order of the events, further *)

(** X23. The comparator of the events is antisymmetric, but it is not
    transitive once some events have an editid and others have none: three
    events can be ordered in a circle. A sorted work history is then
    ordered from each event to the next only: an edit can stand before
    another edit with a smaller editid, with an event without editid
    between them. *)
Theorem compare_events_not_transitive :
  (∀ a b, WorkHistory.compare_events a b = - WorkHistory.compare_events b a)
  ∧ ∃ a b c,
      WorkHistory.compare_events a b < 0
      ∧ WorkHistory.compare_events b c < 0
      ∧ WorkHistory.compare_events c a < 0
      ∧ (WorkHistory.events (WorkHistory.init [c; b; a] true)).2 = [a; b; c]
      ∧ editid c = Some 1 ∧ editid a = Some 2.
Proof.
  split; [apply compare_events_antisym|].
  exists {| evt_type := Edit; editid := Some 2; ts := 100; snapids := None |},
    {| evt_type := Submission; editid := None; ts := 200; snapids := None |},
    {| evt_type := Edit; editid := Some 1; ts := 300; snapids := None |}.
  repeat split.
Qed.

(** ** Sorting keeps the order of ties *)

Section sort_stable_facts.
Context {A : Type} (lt : A → A → bool) (P : A → Prop).
Implicit Types (l done todo : list A).
Import PySort.

Hypothesis lt_asym : ∀ x y, lt x y = true → lt y x = false.
Hypothesis le_trans : ∀ x y z, P x → P y → P z →
  lt y x = false → lt z y = false → lt z x = false.

Lemma lt_le_lt p d y :
  P p → P d → P y → lt p d = true → lt y d = false → lt p y = true.
Proof.
  intros Hp Hd Hy Hpd Hdy. destruct (lt p y) eqn:Hpy; [reflexivity|].
  rewrite (le_trans d y p Hd Hy Hp Hdy Hpy) in Hpd. discriminate.
Qed.

Lemma lt_trans x y z :
  P x → P y → P z → lt x y = true → lt y z = true → lt x z = true.
Proof.
  intros Hx Hy Hz Hxy Hyz. destruct (lt x z) eqn:Hxz; [reflexivity|].
  rewrite (le_trans z x y Hz Hx Hy Hxz (lt_asym _ _ Hxy)) in Hyz.
  discriminate.
Qed.

Lemma tie_not_above x p y :
  P x → P p → P y → tie lt x p = true → lt p y = true → tie lt x y = false.
Proof.
  intros Hx Hp Hy Hxp Hpy. unfold tie in *.
  apply andb_true_iff in Hxp as [_ Hpx]. apply negb_true_iff in Hpx.
  destruct (lt x y) eqn:Hxy; [reflexivity|]. cbn.
  rewrite (le_trans y x p Hy Hx Hp Hxy Hpx) in Hpy. discriminate.
Qed.

Lemma tie_not_below x p y :
  P x → P p → P y → tie lt x p = true → lt y p = true → tie lt x y = false.
Proof.
  intros Hx Hp Hy Hxp Hyp. unfold tie in *.
  apply andb_true_iff in Hxp as [Hxp _]. apply negb_true_iff in Hxp.
  destruct (lt y x) eqn:Hyx; [apply andb_false_r|].
  rewrite (le_trans p x y Hp Hx Hy Hxp Hyx) in Hyp. discriminate.
Qed.

Lemma nondescending_far l :
  nondescending lt l → Forall P l →
  ∀ d i x y, l !! i = Some x → l !! (i + S d)%nat = Some y → lt y x = false.
Proof.
  intros Hl HP. rewrite Forall_forall in HP.
  induction d as [|d IH]; intros i x y Hx Hy.
  - replace (i + 1)%nat with (S i) in Hy by lia. exact (Hl i x y Hx Hy).
  - destruct (l !! (i + S d)%nat) as [m|] eqn:Hm.
    + replace (i + S (S d))%nat with (S (i + S d)) in Hy by lia.
      apply (le_trans x m y).
      * apply HP, list_elem_of_lookup. eauto.
      * apply HP, list_elem_of_lookup. eauto.
      * apply HP, list_elem_of_lookup. eauto.
      * exact (IH i x m Hx Hm).
      * exact (Hl _ m y Hm Hy).
    + apply lookup_ge_None in Hm. apply lookup_lt_Some in Hy. lia.
Qed.

Lemma bisect_splits pivot done :
  nondescending lt done → Forall P done → P pivot →
  let k := bisect lt (length done) pivot done 0 (length done) in
  Forall (λ x, lt pivot x = false) (take k done)
  ∧ Forall (λ y, lt pivot y = true) (drop k done).
Proof.
  intros Hdone HP Hpivot k.
  destruct (bisect_spec lt pivot done (length done) 0 (length done))
    as (Hk & Hleft & Hright); [lia|lia|intros x ?; lia| |].
  { intros y Hy. apply lookup_lt_Some in Hy. lia. }
  fold k in Hk, Hleft, Hright.
  pose proof (nondescending_far done Hdone HP) as Hfar.
  rewrite Forall_forall in HP. split; apply Forall_forall.
  - intros x Hx. apply list_elem_of_lookup in Hx as [i Hi].
    pose proof (lookup_lt_Some _ _ _ Hi) as Hlen.
    rewrite length_take in Hlen.
    rewrite lookup_take, decide_True in Hi by lia.
    destruct (decide (S i = k)) as [Hik|Hik].
    + apply Hleft; [lia|]. rewrite <- Hik. exact Hi.
    + destruct (done !! pred k) as [z|] eqn:Hz;
        [|apply lookup_ge_None in Hz; lia].
      apply (le_trans x z pivot).
      * apply HP, list_elem_of_lookup. eauto.
      * apply HP, list_elem_of_lookup. eauto.
      * exact Hpivot.
      * apply (Hfar (pred k - S i)%nat i x z Hi).
        replace (i + S (pred k - S i))%nat with (pred k) by lia. exact Hz.
      * apply Hleft; [lia|reflexivity].
  - intros y Hy. apply list_elem_of_lookup in Hy as [j Hj].
    rewrite lookup_drop in Hj.
    destruct j as [|j].
    + rewrite Nat.add_0_r in Hj. apply Hright, Hj.
    + destruct (done !! k) as [d|] eqn:Hd.
      * apply (lt_le_lt pivot d y).
        -- exact Hpivot.
        -- apply HP, list_elem_of_lookup. eauto.
        -- apply HP, list_elem_of_lookup. eauto.
        -- apply Hright. reflexivity.
        -- exact (Hfar j k d y Hd Hj).
      * apply lookup_ge_None in Hd. apply lookup_lt_Some in Hj. lia.
Qed.

Lemma filter_none_tie x (l : list A) :
  Forall (λ y, tie lt x y = false) l → List.filter (tie lt x) l = [].
Proof.
  induction 1 as [|y l Hy _ IH]; [reflexivity|]. cbn [List.filter].
  rewrite Hy. exact IH.
Qed.

Lemma insert_stable x pivot done :
  nondescending lt done → Forall P done → P pivot → P x →
  let k := bisect lt (length done) pivot done 0 (length done) in
  List.filter (tie lt x) (take k done ++ pivot :: drop k done)
  = List.filter (tie lt x) (done ++ [pivot]).
Proof.
  intros Hdone HP Hpivot Hx k.
  destruct (bisect_splits pivot done Hdone HP Hpivot) as [_ Hdrop].
  fold k in Hdrop.
  rewrite <- (take_drop k done) at 3.
  rewrite !List.filter_app. cbn [List.filter].
  destruct (tie lt x pivot) eqn:Htie; [|rewrite app_nil_r; reflexivity].
  rewrite (filter_none_tie x (drop k done));
    [rewrite app_nil_r; reflexivity|].
  assert (HPdrop : Forall P (drop k done)) by (apply Forall_drop, HP).
  rewrite Forall_forall in Hdrop, HPdrop. apply Forall_forall.
  intros y Hy. apply (tie_not_above x pivot y); auto.
Qed.

Lemma binarysort_stable x todo : ∀ done,
  nondescending lt done → Forall P done → Forall P todo → P x →
  List.filter (tie lt x) (binarysort lt done todo)
  = List.filter (tie lt x) (done ++ todo).
Proof.
  induction todo as [|pivot todo IH]; intros done Hdone HP HPtodo Hx;
    cbn [binarysort].
  - rewrite app_nil_r. reflexivity.
  - apply Forall_cons_1 in HPtodo as [Hpivot HPtodo].
    rewrite IH.
    + rewrite List.filter_app, (insert_stable x pivot done) by assumption.
      rewrite <- List.filter_app, <- app_assoc. reflexivity.
    + apply insert_nondescending; assumption.
    + apply Forall_app. split; [apply Forall_take, HP|].
      constructor; [exact Hpivot|apply Forall_drop, HP].
    + exact HPtodo.
    + exact Hx.
Qed.

Lemma run_desc_below l : ∀ prev top,
  P prev → P top → Forall P l →
  (prev = top ∨ lt prev top = true) →
  Forall (λ y, lt y top = true) (take (run_desc lt prev l) l).
Proof.
  induction l as [|x l IH]; intros prev top Hprev Htop HP Hbelow;
    cbn [run_desc]; [constructor|].
  apply Forall_cons_1 in HP as [Hx HP].
  destruct (lt x prev) eqn:Hcmp; cbn [take]; [|constructor].
  assert (Hxtop : lt x top = true).
  { destruct Hbelow as [->|Hlt]; [exact Hcmp|].
    apply (lt_trans x prev top); assumption. }
  constructor; [exact Hxtop|]. apply IH; auto.
Qed.

Lemma run_desc_stable x l : ∀ prev,
  P x → P prev → Forall P l →
  List.filter (tie lt x) (reverse (prev :: take (run_desc lt prev l) l))
  = List.filter (tie lt x) (prev :: take (run_desc lt prev l) l).
Proof.
  induction l as [|y l IH]; intros prev Hx Hprev HP; cbn [run_desc].
  - reflexivity.
  - apply Forall_cons_1 in HP as [Hy HP].
    destruct (lt y prev) eqn:Hcmp; cbn [take]; [|reflexivity].
    rewrite reverse_cons, List.filter_app, (IH y Hx Hy HP).
    cbn [List.filter]. destruct (tie lt x prev) eqn:Htie;
      [|rewrite app_nil_r; reflexivity].
    assert (Hnone : Forall (λ z, tie lt x z = false)
                      (y :: take (run_desc lt y l) l)).
    { assert (Hbelow : Forall (λ z, lt z prev = true)
                         (y :: take (run_desc lt y l) l)).
      { constructor; [exact Hcmp|].
        apply (run_desc_below l y prev); auto. }
      assert (HPall : Forall P (y :: take (run_desc lt y l) l))
        by (constructor; [exact Hy|apply Forall_take, HP]).
      rewrite Forall_forall in Hbelow, HPall. apply Forall_forall.
      intros z Hz. apply (tie_not_below x prev z); auto. }
    pose proof (filter_none_tie x _ Hnone) as Hfilter.
    cbn [List.filter] in Hfilter. rewrite Hfilter. reflexivity.
Qed.

Lemma sort_stable x l :
  Forall P l → P x →
  List.filter (tie lt x) (sort lt l) = List.filter (tie lt x) l.
Proof.
  intros HP Hx. unfold sort.
  destruct l as [|a [|b l]]; cbn [count_run]; [reflexivity..|].
  apply Forall_cons_1 in HP as [Ha HP].
  apply Forall_cons_1 in HP as [Hb HP].
  destruct (lt b a) eqn:Hcmp.
  - change (take (S (S (run_desc lt b l))) (a :: b :: l))
      with (a :: b :: take (run_desc lt b l) l).
    change (drop (S (S (run_desc lt b l))) (a :: b :: l))
      with (drop (run_desc lt b l) l).
    pose proof (run_desc_stable x (b :: l) a Hx Ha
                  (Forall_cons_2 _ _ _ Hb HP)) as Hrun.
    cbn [run_desc] in Hrun. rewrite Hcmp in Hrun. cbn [take] in Hrun.
    rewrite binarysort_stable.
    + rewrite List.filter_app, Hrun, <- List.filter_app.
      cbn [app]. rewrite take_drop. reflexivity.
    + rewrite reverse_cons. apply nondescending_app_iff.
      split; [apply run_desc_nondescending, lt_asym|].
      split; [apply nondescending_singleton|].
      intros u v Hu [= <-]. rewrite last_reverse in Hu.
      injection Hu as <-. apply lt_asym, Hcmp.
    + apply Forall_reverse. constructor; [exact Ha|].
      constructor; [exact Hb|apply Forall_take, HP].
    + apply Forall_drop, HP.
    + exact Hx.
  - change (take (S (S (run_asc lt b l))) (a :: b :: l))
      with (a :: b :: take (run_asc lt b l) l).
    change (drop (S (S (run_asc lt b l))) (a :: b :: l))
      with (drop (run_asc lt b l) l).
    rewrite binarysort_stable.
    + cbn [app]. rewrite take_drop. reflexivity.
    + apply nondescending_cons_iff.
      split; [|apply run_asc_nondescending].
      intros v [= <-]. exact Hcmp.
    + constructor; [exact Ha|]. constructor; [exact Hb|apply Forall_take, HP].
    + apply Forall_drop, HP.
    + exact Hx.
Qed.

End sort_stable_facts.

Lemma tie_events (a b : Event) :
  tie (PySort.cmp_to_key WorkHistory.compare_events) a b
  = (WorkHistory.compare_events a b =? 0).
Proof.
  unfold tie, PySort.cmp_to_key.
  rewrite (compare_events_antisym b a).
  destruct (Z.ltb_spec (WorkHistory.compare_events a b) 0),
    (Z.ltb_spec (- WorkHistory.compare_events a b) 0),
    (Z.eqb_spec (WorkHistory.compare_events a b) 0); cbn; lia.
Qed.

Lemma sort_events_stable (P : Event → Prop) (l : list Event) (e : Event) :
  (∀ x y z, P x → P y → P z →
            WorkHistory.compare_events x y ≤ 0 →
            WorkHistory.compare_events y z ≤ 0 →
            WorkHistory.compare_events x z ≤ 0) →
  Forall P (e :: l) →
  List.filter (λ e', WorkHistory.compare_events e e' =? 0)
    (PySort.sort (PySort.cmp_to_key WorkHistory.compare_events) l)
  = List.filter (λ e', WorkHistory.compare_events e e' =? 0) l.
Proof.
  intros Htrans HP. apply Forall_cons_1 in HP as [He HP].
  rewrite <- !(List.filter_ext _ _ (tie_events e)).
  apply (sort_stable _ P); [exact lt_events_asym| |exact HP|exact He].
  intros x y z Hx Hy Hz Hxy Hyz. apply not_lt_events.
  apply (Htrans x y z); try assumption; apply not_lt_events; assumption.
Qed.

(** X24. Sorting keeps the events of a work history that rank equally in
    the order of the file: when all the events have an editid, or none
    has, the events that compare equal to a given event (the same editid
    and timestamp; the same timestamp) follow each other in the sorted
    history as they do in the file. *)
Theorem sorted_events_keep_ties (file_events : list Event) (e : Event) :
  Forall (λ e, is_Some (editid e)) (e :: file_events)
  ∨ Forall (λ e, editid e = None) (e :: file_events) →
  List.filter (λ e', WorkHistory.compare_events e e' =? 0)
    (WorkHistory.events (WorkHistory.init file_events true)).2
  = List.filter (λ e', WorkHistory.compare_events e e' =? 0) file_events.
Proof.
  rewrite events_init. intros [H|H].
  - exact (sort_events_stable _ _ _ le_events_trans_editid H).
  - exact (sort_events_stable _ _ _ le_events_trans_no_editid H).
Qed.

Lemma sorted_events_keep_ties_witness :
  let ev id t ids := {| evt_type := Edit; editid := Some id; ts := t;
                        snapids := Some ids |} in
  List.filter (λ e', WorkHistory.compare_events (ev 2 50 []) e' =? 0)
    (WorkHistory.events
       (WorkHistory.init
          [ev 5 10 []; ev 2 50 [SnapInt 1]; ev 1 70 []; ev 2 50 [SnapInt 2]]
          true)).2
  = [ev 2 50 [SnapInt 1]; ev 2 50 [SnapInt 2]].
Proof.
  intros ev.
  rewrite (sorted_events_keep_ties
             [ev 5 10 []; ev 2 50 [SnapInt 1]; ev 1 70 []; ev 2 50 [SnapInt 2]]
             (ev 2 50 [])).
  - reflexivity.
  - left. repeat constructor; eexists; reflexivity.
Defined.
